(** * bootstrap.py: generation of nanoarrow_c.pxd from the nanoarrow headers

    A shallow embedding of [python/bootstrap.py] and the properties of its
    two components: the header aggregator [generate_nanoarrow_c] and the
    declaration translator [NanoarrowPxdGenerator].

    Text is a list of Unicode code points (a Python [str]) and a file holds
    bytes, decoded when it is read and encoded when it is written; the
    patterns the program compiles are values of [regex], matched by a
    backtracking search that lists the successes in the order Python's [re]
    tries them, so that the match Python reports is the first of the list. *)

From Stdlib Require Import NArith List String Ascii Bool Lia.
From stdpp Require Import base option list gmap strings.

Local Open Scope N_scope.
Local Open Scope list_scope.

(** ** Text *)

Abbreviation text := (list N).

(** A literal of the source, as code points. *)
Definition lit (s : string) : text :=
  List.map N_of_ascii (list_ascii_of_string s).

Definition NL : N := 10.
Definition SP : N := 32.
Definition DQ : N := 34.

(** [str.isspace] on one character, which is also the class [\s] of a [str]
    pattern: the ASCII controls 9-13 and 28-31, the space, and the Unicode
    separators. *)
Definition isspace (c : N) : bool :=
  ((9 <=? c) && (c <=? 13)) || ((28 <=? c) && (c <=? 32))
  || (c =? 133) || (c =? 160) || (c =? 5760)
  || ((8192 <=? c) && (c <=? 8202))
  || (c =? 8232) || (c =? 8233) || (c =? 8239) || (c =? 8287) || (c =? 12288).

Definition is_upper (c : N) : bool := (65 <=? c) && (c <=? 90).
Definition is_lower (c : N) : bool := (97 <=? c) && (c <=? 122).
Definition is_digit (c : N) : bool := (48 <=? c) && (c <=? 57).
Definition is_alpha (c : N) : bool := is_upper c || is_lower c.
Definition is_alnum (c : N) : bool := is_alpha c || is_digit c.

(** [[^x]] *)
Definition other_than (x : N) (c : N) : bool := negb (c =? x).

(** [str.strip()] *)
Fixpoint lstrip (s : text) : text :=
  match s with
  | c :: s' => if isspace c then lstrip s' else s
  | [] => []
  end.

Definition rstrip (s : text) : text := rev (lstrip (rev s)).

Definition strip (s : text) : text := rstrip (lstrip s).

(** [sep.join(items)] *)
Fixpoint join (sep : text) (items : list text) : text :=
  match items with
  | [] => []
  | [x] => x
  | x :: rest => x ++ sep ++ join sep rest
  end.

(** ** Patterns *)

(** The part of Python's pattern language the program uses: literals,
    character classes, greedy repetition of a class, sequence, ordered
    alternative, greedy option and numbered capture groups. *)
Inductive regex : Type :=
| Lit (l : text)
| Cls (p : N -> bool)
| Star (p : N -> bool)
| Seq (r1 r2 : regex)
| Alt (r1 r2 : regex)
| Opt (r : regex)
| Grp (n : nat) (r : regex).

(** [p+] *)
Definition Plus (p : N -> bool) : regex := Seq (Cls p) (Star p).

(** [l] is at the head of [s]: what is left of [s] after it. *)
Fixpoint strip_prefix (l s : text) : option text :=
  match l with
  | [] => Some s
  | a :: l' =>
      match s with
      | b :: s' => if a =? b then strip_prefix l' s' else None
      | [] => None
      end
  end.

(** One way of matching at the head of a text: the characters consumed, the
    text left, and the groups that took part. *)
Record success : Type := Success {
  matched : text;
  rest : text;
  caps : gmap nat text
}.

(** The ways [p*] matches at the head of [s], the longest first. *)
Fixpoint star_splits (p : N -> bool) (s : text) : list (text * text) :=
  match s with
  | c :: s' =>
      if p c
      then List.map (fun mr => (c :: fst mr, snd mr)) (star_splits p s') ++ [([], s)]
      else [([], s)]
  | [] => [([], [])]
  end.

(** All the ways [r] matches at the head of [s], in the order a backtracking
    matcher reaches them; [g] holds the groups set so far. *)
Fixpoint successes (r : regex) (s : text) (g : gmap nat text) : list success :=
  match r with
  | Lit l =>
      match strip_prefix l s with
      | Some s' => [Success l s' g]
      | None => []
      end
  | Cls p =>
      match s with
      | c :: s' => if p c then [Success [c] s' g] else []
      | [] => []
      end
  | Star p => List.map (fun mr => Success (fst mr) (snd mr) g) (star_splits p s)
  | Seq r1 r2 =>
      flat_map
        (fun a =>
           List.map (fun b => Success (matched a ++ matched b) (rest b) (caps b))
             (successes r2 (rest a) (caps a)))
        (successes r1 s g)
  | Alt r1 r2 => successes r1 s g ++ successes r2 s g
  | Opt r1 => successes r1 s g ++ [Success [] s g]
  | Grp n r1 =>
      List.map (fun a => Success (matched a) (rest a) (<[n := matched a]> (caps a)))
        (successes r1 s g)
  end.

(** [pattern.match(s)]: the first success, if any. *)
Definition rmatch (r : regex) (s : text) : option success :=
  head (successes r s ∅).

(** A match object: the text of the whole match and the groups that took
    part in it. *)
Record mobj : Type := Mobj {
  m_text : text;
  m_groups : gmap nat text
}.

Definition mobj_of (a : success) : mobj := Mobj (matched a) (caps a).

(** The scan all of [finditer], [sub] and [split] run: from left to right,
    the leftmost match at each place, and after a match the search resumes
    where the match ended (one character further after an empty match).
    The result is the text before the first match and then each match with
    the text between it and the next one. [skip] counts the characters of
    the last match that are still to be passed. *)
Fixpoint scan (r : regex) (s : text) (skip : nat) : text * list (mobj * text) :=
  match s with
  | [] =>
      match skip with
      | O =>
          match rmatch r [] with
          | Some a => ([], [(mobj_of a, [])])
          | None => ([], [])
          end
      | S _ => ([], [])
      end
  | c :: s' =>
      match skip with
      | S k => scan r s' k
      | O =>
          match rmatch r s with
          | Some a =>
              let tl := scan r s' (pred (length (matched a))) in
              match matched a with
              | [] => ([], (mobj_of a, c :: fst tl) :: snd tl)
              | _ :: _ => ([], (mobj_of a, fst tl) :: snd tl)
              end
          | None =>
              let tl := scan r s' 0 in
              (c :: fst tl, snd tl)
          end
      end
  end.

(** [pattern.finditer(s)] *)
Definition finditer (r : regex) (s : text) : list mobj :=
  List.map fst (snd (scan r s 0)).

(** The text a scan stands for when each match is replaced by [repl]. *)
Definition render (repl : mobj -> text) (sc : text * list (mobj * text)) : text :=
  fst sc ++ List.concat (List.map (fun mg => repl (fst mg) ++ snd mg) (snd sc)).

(** [pattern.sub(repl, s)], the replacement computed from the match. *)
Definition sub (r : regex) (repl : mobj -> text) (s : text) : text :=
  render repl (scan r s 0).

(** [pattern.split(s)] for a pattern without groups. *)
Definition split (r : regex) (s : text) : list text :=
  let sc := scan r s 0 in
  fst sc :: List.map snd (snd sc).

(** The replacement template [\n]: the text of group [n], empty when the
    group took no part. *)
Definition backref (n : nat) (m : mobj) : text := default [] (m_groups m !! n).

(** [m.groupdict()]: every named group of the pattern, [None] for a group
    that took no part in the match. *)
Definition groupdict (names : list (string * nat)) (m : mobj) : gmap string (option text) :=
  list_to_map (List.map (fun kn => (fst kn, m_groups m !! snd kn)) names).

(** ** The patterns of [_define_regexes] *)

Definition not_newline : N -> bool := other_than NL.

(** [\s*//[^\n]*] *)
Definition re_comment : regex :=
  Seq (Star isspace) (Seq (Lit (lit "//")) (Star not_newline)).

Definition MAX_FIXED_BUFFERS : text := lit "NANOARROW_MAX_FIXED_BUFFERS".

(** [NANOARROW_MAX_FIXED_BUFFERS] *)
Definition re_max_buffers : regex := Lit MAX_FIXED_BUFFERS.

Definition TYPEDEF : text := lit "typedef".

(** [typedef(?P<typedef>[^;]+)] *)
Definition re_typedef : regex :=
  Seq (Lit TYPEDEF) (Grp 1 (Plus (other_than 59))).

Definition re_typedef_names : list (string * nat) := [("typedef"%string, 1%nat)].

(** [struct|union|enum] *)
Definition tag_keyword : regex :=
  Alt (Lit (lit "struct")) (Alt (Lit (lit "union")) (Lit (lit "enum"))).

(** The pattern of a tagged type: group [type] is [struct|union|enum], then
    a space, group [name] is [Arrow[^ ]+], then a space and an opening
    brace, group [body] is any run of characters other than the closing
    brace, then the closing brace. *)
Definition re_type : regex :=
  Seq (Grp 1 tag_keyword)
    (Seq (Lit [SP])
       (Seq (Grp 2 (Seq (Lit (lit "Arrow")) (Plus (other_than SP))))
          (Seq (Lit (lit " {"))
             (Seq (Grp 3 (Star (other_than 125))) (Lit (lit "}")))))).

Definition re_type_names : list (string * nat) :=
  [("type"%string, 1%nat); ("name"%string, 2%nat); ("body"%string, 3%nat)].

(** [[A-Za-z0-9_*]] *)
Definition return_type_char (c : N) : bool := is_alnum c || (c =? 95) || (c =? 42).

(** The pattern of a function prototype: a newline, [(static inline )?],
    [(?P<const>const )?], [(struct |enum )?], group [return_type] is
    [[A-Za-z0-9_*]+], a space, group [name] is [Arrow[A-Za-z0-9]+], an
    opening parenthesis, group [args] is any run of characters other than
    the closing parenthesis, then the closing parenthesis and a semicolon.
    The unnamed groups are 1 and 3. *)
Definition re_func_def : regex :=
  Seq (Lit [NL])
    (Seq (Opt (Grp 1 (Lit (lit "static inline "))))
       (Seq (Opt (Grp 2 (Lit (lit "const "))))
          (Seq (Opt (Grp 3 (Alt (Lit (lit "struct ")) (Lit (lit "enum ")))))
             (Seq (Grp 4 (Plus return_type_char))
                (Seq (Lit [SP])
                   (Seq (Grp 5 (Seq (Lit (lit "Arrow")) (Plus is_alnum)))
                      (Seq (Lit (lit "("))
                         (Seq (Grp 6 (Star (other_than 41))) (Lit (lit ");")))))))))).

Definition re_func_def_names : list (string * nat) :=
  [("const"%string, 2%nat); ("return_type"%string, 4%nat);
   ("name"%string, 5%nat); ("args"%string, 6%nat)].

(** [(?P<type>struct|union|enum) (?P<name>Arrow[A-Za-z]+)] *)
Definition re_tagged_type : regex :=
  Seq (Grp 1 tag_keyword)
    (Seq (Lit [SP]) (Grp 2 (Seq (Lit (lit "Arrow")) (Plus is_alpha)))).

(** [;\s*] *)
Definition re_struct_delim : regex := Seq (Lit (lit ";")) (Star isspace).

(** [,\s*] *)
Definition re_enum_delim : regex := Seq (Lit (lit ",")) (Star isspace).

(** [\s+] *)
Definition re_whitespace : regex := Plus isspace.

(** [\n +] *)
Definition re_newline_plus_indent : regex := Seq (Lit [NL]) (Plus (N.eqb SP)).

(** The pattern of [generate_nanoarrow_c]: [#include], a space and a double
    quote, then the rest of the line ([.] is any character but a newline). *)
Definition INCLUDE_QUOTE : text := lit "#include " ++ [DQ].

Definition re_include : regex := Seq (Lit INCLUDE_QUOTE) (Star not_newline).

(** ** Exceptions *)

Inductive exn : Type :=
| KeyError | TypeError | AttributeError | OSError
| UnicodeDecodeError | UnicodeEncodeError.

Inductive result (A : Type) : Type :=
| Ok (a : A)
| Raise (e : exn).

Arguments Ok {A} a.
Arguments Raise {A} e.

Definition bind {A B : Type} (x : result A) (f : A -> result B) : result B :=
  match x with
  | Ok a => f a
  | Raise e => Raise e
  end.

Notation "'do' x <- e1 ; e2" := (bind e1 (fun x => e2))
  (at level 10, x name, e1 at level 100, e2 at level 200).

(** A list comprehension whose body may raise. *)
Fixpoint for_each {A B : Type} (f : A -> result B) (l : list A) : result (list B) :=
  match l with
  | [] => Ok []
  | a :: l' => do b <- f a; do bs <- for_each f l'; Ok (b :: bs)
  end.

(** [d[k]] *)
Definition getitem (d : gmap string (option text)) (k : string) : result (option text) :=
  match d !! k with
  | Some v => Ok v
  | None => Raise KeyError
  end.

(** A method of [str] called on a value, or a value passed where [re] wants
    a [str]: [None] raises. *)
Definition as_str (e : exn) (v : option text) : result text :=
  match v with
  | Some t => Ok t
  | None => Raise e
  end.

(** A value in an f-string. *)
Definition fmt (v : option text) : text :=
  match v with
  | Some t => t
  | None => lit "None"
  end.

(** The truth value of a group of a match. *)
Definition truthy (v : option text) : bool :=
  match v with
  | Some (_ :: _) => true
  | _ => false
  end.

(** ** The translator, [NanoarrowPxdGenerator] *)

Definition _strip_comments (content : text) : text :=
  sub re_comment (fun _ => []) content.

Definition _find_typedefs (content : text) : list (gmap string (option text)) :=
  List.map (groupdict re_typedef_names) (finditer re_typedef content).

Definition _find_types (content : text) : list (gmap string (option text)) :=
  List.map (groupdict re_type_names) (finditer re_type content).

Definition _find_func_defs (content : text) : list (gmap string (option text)) :=
  List.map (groupdict re_func_def_names) (finditer re_func_def content).

(** [self.re_tagged_type.sub(r"\2", s)] *)
Definition strip_tags (s : text) : text := sub re_tagged_type (backref 2) s.

Definition _typdef_to_cython (t : gmap string (option text)) (indent : text) : result text :=
  do typedef <- getitem t "typedef";
  do typedef <- as_str TypeError typedef;
  let typedef := strip_tags typedef in
  Ok (indent ++ lit "ctypedef " ++ typedef).

Definition text_eqb (a b : text) : bool := bool_decide (a = b).

Definition _type_to_cython (t : gmap string (option text)) (indent : text) : result text :=
  do type <- getitem t "type";
  do name <- getitem t "name";
  do body <- getitem t "body";
  do body <- as_str AttributeError body;
  let body := strip_tags (strip body) in
  let items :=
    if bool_decide (type = Some (lit "enum"))
    then List.filter (fun item => negb (text_eqb item [])) (split re_enum_delim body)
    else List.filter (fun item => negb (text_eqb item [])) (split re_struct_delim body) in
  let cython_body := join ([NL] ++ indent ++ lit "    ") ([] :: items) in
  Ok (indent ++ fmt type ++ lit " " ++ fmt name ++ lit ":" ++ cython_body).

Definition _func_def_to_cython (d : gmap string (option text)) (indent : text) : result text :=
  do return_type <- getitem d "return_type";
  do return_type <- as_str AttributeError return_type;
  let return_type := strip return_type in
  do const <- getitem d "const";
  let return_type := if truthy const then lit "const " ++ return_type else return_type in
  do name <- getitem d "name";
  do args <- getitem d "args";
  do args <- as_str AttributeError args;
  let args := sub re_whitespace (fun _ => lit " ") (strip args) in
  let args := strip_tags args in
  let args := if text_eqb args (lit "void") then [] else args in
  Ok (indent ++ return_type ++ lit " " ++ fmt name ++ lit "(" ++ args ++ lit ")").

(** The text [_pxd_header] returns: a line break, then each line of the
    licence and of the imports behind eight spaces (the empty lines
    excepted), and eight spaces after the last line break. *)
Definition indent8 : text := lit "        ".

Definition _pxd_header : text :=
  [NL] ++ indent8 ++ lit "# Licensed to the Apache Software Foundation (ASF) under one" ++
  [NL] ++ indent8 ++ lit "# or more contributor license agreements.  See the NOTICE file" ++
  [NL] ++ indent8 ++ lit "# distributed with this work for additional information" ++
  [NL] ++ indent8 ++ lit "# regarding copyright ownership.  The ASF licenses this file" ++
  [NL] ++ indent8 ++ lit "# to you under the Apache License, Version 2.0 (the" ++
  [NL] ++ indent8 ++ lit "# " ++ [DQ] ++ lit "License" ++ [DQ]
       ++ lit "); you may not use this file except in compliance" ++
  [NL] ++ indent8 ++ lit "# with the License.  You may obtain a copy of the License at" ++
  [NL] ++ indent8 ++ lit "#" ++
  [NL] ++ indent8 ++ lit "#   http://www.apache.org/licenses/LICENSE-2.0" ++
  [NL] ++ indent8 ++ lit "#" ++
  [NL] ++ indent8 ++ lit "# Unless required by applicable law or agreed to in writing," ++
  [NL] ++ indent8 ++ lit "# software distributed under the License is distributed on an" ++
  [NL] ++ indent8 ++ lit "# " ++ [DQ] ++ lit "AS IS" ++ [DQ]
       ++ lit " BASIS, WITHOUT WARRANTIES OR CONDITIONS OF ANY" ++
  [NL] ++ indent8 ++ lit "# KIND, either express or implied.  See the License for the" ++
  [NL] ++ indent8 ++ lit "# specific language governing permissions and limitations" ++
  [NL] ++ indent8 ++ lit "# under the License." ++
  [NL] ++
  [NL] ++ indent8 ++ lit "# cython: language_level = 3" ++
  [NL] ++
  [NL] ++ indent8 ++ lit "from libc.stdint cimport int8_t, uint8_t, int16_t, uint16_t" ++
  [NL] ++ indent8 ++ lit "from libc.stdint cimport int32_t, uint32_t, int64_t, uint64_t" ++
  [NL] ++ indent8.

(** ** Bytes and text

    A [bytes] value is a list of numbers below 256. *)

Abbreviation bytes := (list N).

(** A bytes literal of the source. *)
Definition blit (s : string) : bytes := lit s.

(** The surrogates, which UTF-8 does not encode. *)
Definition is_surrogate (c : N) : bool := (55296 <=? c) && (c <=? 57343).

(** The UTF-8 encoding of one code point (a [str] holds no code point above
    [0x10FFFF], and such a number is given no encoding). *)
Definition encode_char (c : N) : option bytes :=
  if c <? 128 then Some [c]
  else if c <? 2048 then Some [192 + c / 64; 128 + c mod 64]
  else if c <? 65536 then
    if is_surrogate c then None
    else Some [224 + c / 4096; 128 + (c / 64) mod 64; 128 + c mod 64]
  else if c <? 1114112 then
    Some [240 + c / 262144; 128 + (c / 4096) mod 64; 128 + (c / 64) mod 64;
          128 + c mod 64]
  else None.

(** [t.encode("UTF-8")] *)
Fixpoint encode (t : text) : result bytes :=
  match t with
  | [] => Ok []
  | c :: t' =>
      match encode_char c with
      | Some b => do bs <- encode t'; Ok (b ++ bs)
      | None => Raise UnicodeEncodeError
      end
  end.

(** A continuation byte of UTF-8. *)
Definition is_cont (b : N) : bool := (128 <=? b) && (b <=? 191).

(** The second byte that may follow the first byte [b0] of a sequence of
    three or four bytes: no overlong form, no surrogate, nothing above
    [0x10FFFF]. *)
Definition second_byte (b0 b1 : N) : bool :=
  if b0 =? 224 then (160 <=? b1) && (b1 <=? 191)
  else if b0 =? 237 then (128 <=? b1) && (b1 <=? 159)
  else if b0 =? 240 then (144 <=? b1) && (b1 <=? 191)
  else if b0 =? 244 then (128 <=? b1) && (b1 <=? 143)
  else is_cont b1.

(** The strict UTF-8 decoder, the codec of a file opened in text mode under
    a UTF-8 locale: [None] where Python raises [UnicodeDecodeError]. *)
Fixpoint utf8_decode (b : bytes) : option text :=
  match b with
  | [] => Some []
  | b0 :: r0 =>
      if b0 <? 128 then option_map (cons b0) (utf8_decode r0)
      else
        match r0 with
        | [] => None
        | b1 :: r1 =>
            if (194 <=? b0) && (b0 <=? 223) then
              if is_cont b1
              then option_map (cons ((b0 - 192) * 64 + (b1 - 128))) (utf8_decode r1)
              else None
            else
              match r1 with
              | [] => None
              | b2 :: r2 =>
                  if (224 <=? b0) && (b0 <=? 239) then
                    if second_byte b0 b1 && is_cont b2
                    then option_map
                           (cons ((b0 - 224) * 4096 + (b1 - 128) * 64 + (b2 - 128)))
                           (utf8_decode r2)
                    else None
                  else
                    match r2 with
                    | [] => None
                    | b3 :: r3 =>
                        if (240 <=? b0) && (b0 <=? 244) then
                          if second_byte b0 b1 && is_cont b2 && is_cont b3
                          then option_map
                                 (cons ((b0 - 240) * 262144 + (b1 - 128) * 4096
                                        + (b2 - 128) * 64 + (b3 - 128)))
                                 (utf8_decode r3)
                          else None
                        else None
                    end
              end
        end
  end.

(** The codec of a Latin-1 locale: every byte is the code point of its
    number. *)
Definition latin1_decode (b : bytes) : option text := Some b.

(** What a file opened in text mode, with the default [newline=None], does
    to the text it reads: a carriage return, alone or before a line feed,
    is read as one line feed. *)
Fixpoint universal_newlines (t : text) : text :=
  match t with
  | [] => []
  | c :: t' =>
      if c =? 13 then
        NL :: match t' with
              | d :: t'' => if d =? NL then universal_newlines t'' else universal_newlines t'
              | [] => []
              end
      else c :: universal_newlines t'
  end.

(** ** Files

    A path is the list of its components. In a file system [target] gives
    the file a path leads to, symbolic and hard links followed, so that two
    paths with the same target are one file; [contents] holds the bytes of
    each file that exists, by its target; [readable] and [writable] tell for
    a path whether [open(p)] and [open(p, "wb")] are granted (the directory
    exists, the permissions allow it). *)

Abbreviation path := (list string).

Record filesystem : Type := Filesystem {
  target : path -> path;
  contents : gmap path bytes;
  readable : path -> bool;
  writable : path -> bool
}.

(** The file system with the bytes [b] in the file [p] leads to. *)
Definition store (fs : filesystem) (p : path) (b : bytes) : filesystem :=
  Filesystem (target fs) (<[target fs p := b]> (contents fs)) (readable fs) (writable fs).

(** The bytes of the file [p] leads to. *)
Definition file_bytes (fs : filesystem) (p : path) : option bytes :=
  contents fs !! target fs p.

(** [p / name] *)
Definition path_join (p : path) (name : string) : path := p ++ [name].

(** [open(p).read()]: the file is opened in text mode with the encoding of
    the locale, [decode]. A file that is missing or may not be read raises
    [OSError], bytes the codec rejects raise [UnicodeDecodeError], and the
    line endings are translated. *)
Definition read_text (decode : bytes -> option text) (fs : filesystem) (p : path) :
    result text :=
  if readable fs p then
    match file_bytes fs p with
    | Some b =>
        match decode b with
        | Some t => Ok (universal_newlines t)
        | None => Raise UnicodeDecodeError
        end
    | None => Raise OSError
    end
  else Raise OSError.

(** A file open for writing inside its [with] block: the bytes written so
    far, and the exception that has left the block, if any. *)
Record output : Type := Output {
  written : bytes;
  raised : option exn
}.

(** [output.write(x)], where evaluating [x] may raise: once an exception
    has left the block nothing more is written. *)
Definition write (out : output) (x : result bytes) : output :=
  match raised out with
  | Some _ => out
  | None =>
      match x with
      | Ok b => Output (written out ++ b) None
      | Raise e => Output (written out) (Some e)
      end
  end.

(** [self.re_max_buffers.sub("3", content)] *)
Definition replace_max_buffers (content : text) : text :=
  sub re_max_buffers (fun _ => lit "3") content.

(** What [generate_nanoarrow_pxd] finds and converts before it opens the
    output file: the type blocks, the typedef lines and the function lines. *)
Definition declarations (content : text) : result (list text * list text * list text) :=
  (* Strip comments *)
  let content := sub re_comment (fun _ => []) content in
  (* Replace NANOARROW_MAX_FIXED_BUFFERS with its value *)
  let content := replace_max_buffers content in
  (* Find typedefs, types, and function definitions *)
  let typedefs := _find_typedefs content in
  let types := _find_types content in
  let func_defs := _find_func_defs content in
  (* Make corresponding cython definitions *)
  do typedefs_cython <- for_each (fun t => _typdef_to_cython t (lit "    ")) typedefs;
  do types_cython <- for_each (fun t => _type_to_cython t (lit "    ")) types;
  do func_defs_cython <- for_each (fun d => _func_def_to_cython d (lit "    ")) func_defs;
  Ok (types_cython, typedefs_cython, func_defs_cython).

(** The body of the [with] block of [generate_nanoarrow_pxd]: the writes on
    the file just opened, in order. *)
Definition pxd_output (types_cython typedefs_cython func_defs_cython : list text) : output :=
  (* Unindent the header *)
  let header := sub re_newline_plus_indent (fun _ => [NL]) _pxd_header in
  let output := Output [] None in
  let output := write output (encode header) in
  let output :=
    write output
      (encode ([NL] ++ lit "cdef extern from " ++ [DQ] ++ lit "nanoarrow.h" ++ [DQ]
                 ++ lit " nogil:" ++ [NL])) in
  (* A few things we add in manually *)
  let output := write output (Ok [NL]) in
  let output := write output (Ok (blit "    cdef int NANOARROW_OK" ++ [NL])) in
  let output := write output (Ok (blit "    cdef int NANOARROW_MAX_FIXED_BUFFERS" ++ [NL])) in
  let output := write output (Ok (blit "    cdef int ARROW_FLAG_DICTIONARY_ORDERED" ++ [NL])) in
  let output := write output (Ok (blit "    cdef int ARROW_FLAG_NULLABLE" ++ [NL])) in
  let output := write output (Ok (blit "    cdef int ARROW_FLAG_MAP_KEYS_SORTED" ++ [NL])) in
  let output := write output (Ok [NL]) in
  let output :=
    fold_left (fun out type => write (write out (encode type)) (Ok [NL; NL]))
      types_cython output in
  let output :=
    fold_left (fun out typedef => write (write out (encode typedef)) (Ok [NL]))
      typedefs_cython output in
  let output := write output (Ok [NL]) in
  let output :=
    fold_left (fun out func_def => write (write out (encode func_def)) (Ok [NL]))
      func_defs_cython output in
  output.

(** [generate_nanoarrow_pxd(content, build_dir)]: once the declarations are
    converted the file [build_dir / "nanoarrow_c.pxd"] is opened for
    writing, which raises [OSError] when that is not granted and otherwise
    creates or empties the file; the file is closed with what was written,
    also when an [encode] raises in the block. *)
Definition generate_nanoarrow_pxd (content : text) (build_dir : path)
    (fs : filesystem) : result unit * filesystem :=
  match declarations content with
  | Raise e => (Raise e, fs)
  | Ok (types_cython, typedefs_cython, func_defs_cython) =>
      let file_out := path_join build_dir "nanoarrow_c.pxd" in
      if writable fs file_out then
        let output := pxd_output types_cython typedefs_cython func_defs_cython in
        (match raised output with
         | Some e => Raise e
         | None => Ok tt
         end,
         store fs file_out (written output))
      else (Raise OSError, fs)
  end.

(** ** The aggregator, [generate_nanoarrow_c] *)

Definition files : list string :=
  ["nanoarrow_types.h"; "nanoarrow.h"; "buffer_inline.h"; "array_inline.h"]%string.

Definition nanoarrow_dir (this_dir : path) : path :=
  path_join (path_join (path_join (path_join this_dir "subprojects") "nanoarrow") "src")
    "nanoarrow".

(** Remove includes that aren't needed when the headers are concatenated *)
Definition strip_includes (contents : text) : text :=
  sub re_include (fun _ => []) contents.

Definition generate_nanoarrow_c (decode : bytes -> option text) (this_dir : path)
    (fs : filesystem) : result text :=
  do header_data <-
    for_each (fun file => read_text decode fs (path_join (nanoarrow_dir this_dir) file))
      files;
  let contents := join [NL] header_data in
  let contents := strip_includes contents in
  Ok contents.

(** The program run as a script from [this_dir] with the argument
    [build_dir], under a locale whose codec is [decode]. *)
Definition main (decode : bytes -> option text) (this_dir build_dir : path)
    (fs : filesystem) : result unit * filesystem :=
  match generate_nanoarrow_c decode this_dir fs with
  | Raise e => (Raise e, fs)
  | Ok contents => generate_nanoarrow_pxd contents build_dir fs
  end.


(** ** What a pattern matches

    [matches r s g a]: [a] is one way for [r] to match at the head of [s]
    when the groups [g] are already set. [successes] lists exactly these
    ways. *)
Fixpoint matches (r : regex) (s : text) (g : gmap nat text) (a : success) : Prop :=
  match r with
  | Lit l => s = l ++ rest a /\ matched a = l /\ caps a = g
  | Cls p => exists c, p c = true /\ s = c :: rest a /\ matched a = [c] /\ caps a = g
  | Star p => s = matched a ++ rest a /\ forallb p (matched a) = true /\ caps a = g
  | Seq r1 r2 =>
      exists a1 a2, matches r1 s g a1 /\ matches r2 (rest a1) (caps a1) a2 /\
        a = Success (matched a1 ++ matched a2) (rest a2) (caps a2)
  | Alt r1 r2 => matches r1 s g a \/ matches r2 s g a
  | Opt r1 => matches r1 s g a \/ a = Success [] s g
  | Grp n r1 =>
      exists a1, matches r1 s g a1 /\
        a = Success (matched a1) (rest a1) (<[n := matched a1]> (caps a1))
  end.

(** [t] occurs in [s]. *)
Definition occurs (t s : text) : Prop := exists u v, s = u ++ t ++ v.

(** No proper suffix of [t] is a prefix of [t]: two occurrences of [t]
    never overlap. *)
Definition unbordered (t : text) : bool :=
  forallb (fun k => negb (text_eqb (drop k t) (take (length t - k) t)))
    (seq 1 (length t - 1)).

(** The longest head of [s] whose characters are all in [p], and what
    follows it: the first of [star_splits p s]. *)
Fixpoint span (p : N -> bool) (s : text) : text * text :=
  match s with
  | c :: s' => if p c then (c :: fst (span p s'), snd (span p s')) else ([], s)
  | [] => ([], [])
  end.

(** A success with [t] added to the text it leaves. *)
Definition extend (t : text) (a : success) : success :=
  Success (matched a) (rest a ++ t) (caps a).

(** ** Examples of inputs *)

(** A file system without links in which every path may be read and
    written. *)
Definition plain (files : gmap path bytes) : filesystem :=
  Filesystem (fun p => p) files (fun _ => true) (fun _ => true).

(** A source tree whose first header has an include of each form. *)
Definition headers_example : filesystem :=
  plain
    (<[path_join (nanoarrow_dir ["python"%string]) "nanoarrow_types.h" :=
        blit "#include <stdint.h>" ++ [NL] ++
        blit "#include " ++ [DQ] ++ blit "nanoarrow_config.h" ++ [DQ] ++ [NL] ++
        blit "typedef int32_t ArrowErrorCode;"]>
    (<[path_join (nanoarrow_dir ["python"%string]) "nanoarrow.h" :=
        blit "struct ArrowBuffer { uint8_t* data; int64_t size_bytes; };"]>
    (<[path_join (nanoarrow_dir ["python"%string]) "buffer_inline.h" :=
        blit "ArrowErrorCode ArrowBufferInit(struct ArrowBuffer* buffer);"]>
    (<[path_join (nanoarrow_dir ["python"%string]) "array_inline.h" := []]> ∅)))).

(** The record of a typedef whose text after the keyword is [body]. *)
Definition typedef_record (body : text) : gmap string (option text) :=
  {["typedef"%string := Some body]}.

(** The scenario of the specification: a typedef, a struct and, after a
    line break, a prototype. *)
Definition scenario : text :=
  lit "typedef int32_t ArrowErrorCode;" ++ [NL] ++
  lit "struct ArrowBuffer { uint8_t* data; int64_t size_bytes; };" ++ [NL] ++
  lit "ArrowErrorCode ArrowBufferInit(struct ArrowBuffer* buffer);".

(** [t in s] *)
Fixpoint occursb (t s : text) : bool :=
  match strip_prefix t s with
  | Some _ => true
  | None =>
      match s with
      | [] => false
      | _ :: s' => occursb t s'
      end
  end.

(** The record of a tagged type, and the one of a function prototype
    ([const] is [None] when the prototype has no [const]). *)
Definition type_record (type name body : text) : gmap string (option text) :=
  <["type"%string := Some type]>
    (<["name"%string := Some name]> (<["body"%string := Some body]> ∅)).

Definition func_record (const : option text) (return_type name args : text) :
    gmap string (option text) :=
  <["const"%string := const]>
    (<["return_type"%string := Some return_type]>
       (<["name"%string := Some name]> (<["args"%string := Some args]> ∅))).

(** Group [n] takes part in every match of [r]. *)
Fixpoint always_sets (r : regex) (n : nat) : bool :=
  match r with
  | Lit _ | Cls _ | Star _ | Opt _ => false
  | Seq r1 r2 => always_sets r1 n || always_sets r2 n
  | Alt r1 r2 => always_sets r1 n && always_sets r2 n
  | Grp m r1 => Nat.eqb n m || always_sets r1 n
  end.

(** The delimiter of the items of a tagged type, by kind. *)
Definition delimiter (type : text) : regex :=
  if text_eqb type (lit "enum") then re_enum_delim else re_struct_delim.

(** The non-empty pieces of [body] between the matches of [delim]. *)
Definition segments (delim : regex) (body : text) : list text :=
  List.filter (fun item => negb (text_eqb item [])) (split delim body).

(** The number of line breaks of a text: the number of its lines after the
    first. *)
Definition count_nl (t : text) : nat := length (List.filter (N.eqb NL) t).

(** A struct with a member that takes two lines, and one with no member. *)
Definition allocator_source : text :=
  lit "struct ArrowBufferAllocator {" ++ [NL] ++
  lit "  uint8_t* (*reallocate)(struct ArrowBufferAllocator* allocator, uint8_t* ptr," ++ [NL] ++
  lit "                         int64_t old_size, int64_t new_size);" ++ [NL] ++
  lit "  void* private_data;" ++ [NL] ++
  lit "};".

Definition allocator_body : text :=
  [NL] ++
  lit "  uint8_t* (*reallocate)(struct ArrowBufferAllocator* allocator, uint8_t* ptr," ++ [NL] ++
  lit "                         int64_t old_size, int64_t new_size);" ++ [NL] ++
  lit "  void* private_data;" ++ [NL].

Definition allocator_block : text :=
  lit "    struct ArrowBufferAllocator:" ++ [NL] ++
  lit "        uint8_t* (*reallocate)(ArrowBufferAllocator* allocator, uint8_t* ptr," ++ [NL] ++
  lit "                         int64_t old_size, int64_t new_size)" ++ [NL] ++
  lit "        void* private_data".

Definition empty_struct_source : text := lit "struct ArrowEmpty { };".

(** The text the three passes read: the comments stripped, then the macro
    replaced. *)
Definition preprocessed (content : text) : text :=
  replace_max_buffers (_strip_comments content).

(** A prototype with a function pointer among its arguments, which the
    pattern of prototypes does not match, before one that it matches. *)
Definition callback_source : text :=
  [NL] ++ lit "int ArrowFoo(int (*cb)(int));" ++
  [NL] ++ lit "int ArrowBar(void);".

(** The source tree of [headers_example] without its second header. *)
Definition headers_incomplete : filesystem :=
  plain
    (delete (path_join (nanoarrow_dir ["python"%string]) "nanoarrow.h")
       (contents headers_example)).

(** What [generate_nanoarrow_pxd] writes before the declarations: the
    header, the opening of the [extern] block and the five constants. *)
Definition pxd_preamble : bytes :=
  sub re_newline_plus_indent (fun _ => [NL]) _pxd_header ++
  ([NL] ++ lit "cdef extern from " ++ [DQ] ++ lit "nanoarrow.h" ++ [DQ]
     ++ lit " nogil:" ++ [NL]) ++
  [NL] ++
  (lit "    cdef int NANOARROW_OK" ++ [NL]) ++
  (lit "    cdef int NANOARROW_MAX_FIXED_BUFFERS" ++ [NL]) ++
  (lit "    cdef int ARROW_FLAG_DICTIONARY_ORDERED" ++ [NL]) ++
  (lit "    cdef int ARROW_FLAG_NULLABLE" ++ [NL]) ++
  (lit "    cdef int ARROW_FLAG_MAP_KEYS_SORTED" ++ [NL]) ++
  [NL].

(** The texts [ms] stand in [s] one after the other, in the order of the
    list, with any text before, between and after them. *)
Inductive laid_out : list text -> text -> Prop :=
| laid_out_nil (g : text) : laid_out [] g
| laid_out_cons (g m : text) (ms : list text) (s : text) :
    laid_out ms s -> laid_out (m :: ms) (g ++ m ++ s).

(** ** Prototypes *)

(** What may stand before the return type: [static inline], [const], and
    [struct] or [enum], each with the space after it. *)
Inductive tag_prefix : Type := NoTag | StructTag | EnumTag.

Definition tag_text (t : tag_prefix) : text :=
  match t with
  | NoTag => []
  | StructTag => lit "struct "
  | EnumTag => lit "enum "
  end.

Definition prefix_text (static_inline const : bool) (t : tag_prefix) : text :=
  (if static_inline then lit "static inline " else []) ++
  (if const then lit "const " else []) ++ tag_text t.

(** A prototype of the supported grammar, from the line break before it to
    its semicolon. *)
Definition prototype (static_inline const : bool) (t : tag_prefix)
    (return_type name args : text) : text :=
  [NL] ++ prefix_text static_inline const t ++ return_type ++ [SP] ++ name ++
  lit "(" ++ args ++ lit ");".

(** The group [const] of a prototype. *)
Definition const_group (const : bool) : option text :=
  if const then Some (lit "const ") else None.

(** The pattern of a prototype after the optional words: the return type,
    a space, the name, and the arguments in parentheses with the semicolon. *)
Definition func_def_tail : regex :=
  Seq (Grp 4 (Plus return_type_char))
    (Seq (Lit [SP])
       (Seq (Grp 5 (Seq (Lit (lit "Arrow")) (Plus is_alnum)))
          (Seq (Lit (lit "("))
             (Seq (Grp 6 (Star (other_than 41))) (Lit (lit ");")))))).

(** The characters of the words before the parenthesis of a prototype. *)
Definition head_char (c : N) : bool := return_type_char c || (c =? SP).

(** ** White space, as the specification words it *)

(** [c] put at the head of the first word of [ws]. *)
Definition cons_head (c : N) (ws : list text) : list text :=
  match ws with
  | w :: ws' => (c :: w) :: ws'
  | [] => [[c]]
  end.

(** The words of a text: its longest pieces without white space. *)
Fixpoint words (s : text) : list text :=
  match s with
  | [] => []
  | c :: s' =>
      if isspace c then words s'
      else
        match s' with
        | d :: _ => if isspace d then [c] :: words s' else cons_head c (words s')
        | [] => [[c]]
        end
  end.

(** A text with every run of white space inside it collapsed to one space,
    and none at its ends. *)
Definition collapse_whitespace (s : text) : text := join [SP] (words s).

(** A single space in front of a text that begins with white space. *)
Definition lead (s : text) : text :=
  match s with
  | c :: _ => if isspace c then [SP] else []
  | [] => []
  end.

(** The text does not end with white space. *)
Definition ends_clean (s : text) : Prop :=
  match rev s with
  | c :: _ => isspace c = false
  | [] => True
  end.

(** The arguments of an example prototype, with a tag keyword and runs of
    white space. *)
Definition example_args : text :=
  lit "struct ArrowBuffer*   buffer," ++ [NL] ++ lit "    int64_t  size_bytes".

(** The three tag keywords. *)
Definition tag_keywords : list text := [lit "struct"; lit "union"; lit "enum"].

(** [a] and [b] are the same as far as the shorter of the two goes. *)
Definition agree (a b : text) : bool :=
  text_eqb (take (min (length a) (length b)) a) (take (min (length a) (length b)) b).

(** No end of [t], short of [t] itself, can be laid over the head of a text
    that begins with [k]. *)
Definition no_straddle (t k : text) : bool :=
  forallb (fun i => negb (agree (drop i t) k)) (seq 1 (length t - 1)).

(** The text of a tagged type definition. *)
Definition tagged_type (kw name body : text) : text :=
  kw ++ [SP] ++ name ++ lit " {" ++ body ++ lit "}".

(** The two slashes that open a line comment. *)
Definition SLASHES : text := lit "//".

(** The text does not go on with a letter. *)
Definition no_letter_ahead (s : text) : bool :=
  match s with
  | c :: _ => negb (is_alpha c)
  | [] => true
  end.

(** A reference to a tagged type: the keyword, a space and the name. *)
Definition tag_reference (kw name : text) : text := kw ++ [SP] ++ name.

(** The text is at the end of a line: it is empty or begins with a line
    break. *)
Definition at_line_end (s : text) : bool :=
  match s with
  | c :: _ => c =? NL
  | [] => true
  end.

(** The text begins with white space. *)
Definition begins_blank (s : text) : bool :=
  match s with
  | c :: _ => isspace c
  | [] => false
  end.

(** The character the delimiter of a kind begins with: the comma for an
    [enum], the semicolon for the others. *)
Definition delimiter_char (type : text) : N :=
  if text_eqb type (lit "enum") then 44 else 59.

(** The file at [p] may be opened for reading and its bytes decode to [t],
    line endings not yet translated. *)
Definition reads_as (decode : bytes -> option text) (fs : filesystem) (p : path)
    (t : text) : Prop :=
  readable fs p = true /\ exists b, file_bytes fs p = Some b /\ decode b = Some t.

(** A source tree written on another system: the lines of its first header
    end with a carriage return and a line feed, and a comment of it holds a
    letter that UTF-8 encodes in two bytes. *)
Definition headers_crlf : filesystem :=
  plain
    (<[path_join (nanoarrow_dir ["python"%string]) "nanoarrow_types.h" :=
        blit "// caf" ++ [195; 169] ++ [13; 10] ++
        blit "#include " ++ [DQ] ++ blit "nanoarrow_config.h" ++ [DQ] ++ [13; 10] ++
        blit "typedef int32_t ArrowErrorCode;" ++ [13; 10]]>
    (<[path_join (nanoarrow_dir ["python"%string]) "nanoarrow.h" := []]>
    (<[path_join (nanoarrow_dir ["python"%string]) "buffer_inline.h" := []]>
    (<[path_join (nanoarrow_dir ["python"%string]) "array_inline.h" := []]> ∅)))).

(** A source tree whose first header holds the byte 233, a letter in
    Latin-1 and no text in UTF-8. *)
Definition headers_latin1 : filesystem :=
  plain
    (<[path_join (nanoarrow_dir ["python"%string]) "nanoarrow_types.h" :=
        blit "int caf" ++ [233] ++ blit ";"]>
    (<[path_join (nanoarrow_dir ["python"%string]) "nanoarrow.h" := []]>
    (<[path_join (nanoarrow_dir ["python"%string]) "buffer_inline.h" := []]>
    (<[path_join (nanoarrow_dir ["python"%string]) "array_inline.h" := []]> ∅)))).

(** [t] is [s] edited in place: read from left to right the two texts are
    the same, but for pieces of [s] in whose place [t] has another piece,
    each such pair allowed by [step]. What an edit leaves keeps its order. *)
Inductive edits (step : text -> text -> Prop) : text -> text -> Prop :=
| edits_nil : edits step [] []
| edits_keep (c : N) (s t : text) : edits step s t -> edits step (c :: s) (c :: t)
| edits_step (d w s t : text) :
    step d w -> edits step s t -> edits step (d ++ s) (w ++ t).

(** The edits of the two passes before the extraction: a piece with a line
    comment is cut out, and the macro gives way to its value. *)
Definition comment_cut (d w : text) : Prop := occurs SLASHES d /\ w = [].

Definition macro_put (d w : text) : Prop := d = MAX_FIXED_BUFFERS /\ w = lit "3".

(** The texts [ms] come from pieces of [content] that stand in it one after
    the other in the order of the list, each piece turned into its text by
    the cutting of comments and then the replacement of the macro. *)
Definition from_source (content : text) (ms : list text) : Prop :=
  exists ps qs : list text,
    laid_out ps content /\
    Forall2 (edits comment_cut) ps qs /\
    Forall2 (edits macro_put) qs ms.

(** The source tree of [headers_example] in which the output file of the
    build directory is a link to the last header. *)
Definition headers_linked : filesystem :=
  Filesystem
    (fun p =>
       if bool_decide (p = ["build"; "nanoarrow_c.pxd"]%string)
       then path_join (nanoarrow_dir ["python"%string]) "array_inline.h"
       else p)
    (contents headers_example) (fun _ => true) (fun _ => true).

(** ** The conversions, as the specification words them *)

(** A reference to a tagged type is at the head of [s]: a tag keyword, a
    space, and a name made of [Arrow] and at least one letter. *)
Definition reference_ahead (s : text) : Prop :=
  exists kw letters rest : text,
    In kw tag_keywords /\ letters <> [] /\ forallb is_alpha letters = true /\
    s = tag_reference kw (lit "Arrow" ++ letters) ++ rest.

(** [out] is [s] with its references to tagged types replaced by their
    names: read from left to right, a reference gives way to its name,
    taken with all the letters that follow [Arrow], and any other character
    is kept. *)
Inductive tags_stripped : text -> text -> Prop :=
| tags_stripped_nil : tags_stripped [] []
| tags_stripped_ref (kw letters rest out : text) :
    In kw tag_keywords -> letters <> [] -> forallb is_alpha letters = true ->
    no_letter_ahead rest = true ->
    tags_stripped rest out ->
    tags_stripped (tag_reference kw (lit "Arrow" ++ letters) ++ rest)
      ((lit "Arrow" ++ letters) ++ out)
| tags_stripped_keep (c : N) (s out : text) :
    ~ reference_ahead (c :: s) -> tags_stripped s out ->
    tags_stripped (c :: s) (c :: out).

(** [t] is [s] without the white space at its two ends. *)
Definition trimmed (s t : text) : Prop :=
  exists w1 w2 : text,
    s = w1 ++ t ++ w2 /\ forallb isspace w1 = true /\ forallb isspace w2 = true /\
    begins_blank t = false /\ ends_clean t.

(** [pieces] are the pieces of [s] between its delimiters, a delimiter
    being the character [x] together with all the white space after it. *)
Inductive split_at (x : N) : text -> list text -> Prop :=
| split_at_last (item : text) : ~ In x item -> split_at x item [item]
| split_at_more (item w rest : text) (pieces : list text) :
    ~ In x item -> forallb isspace w = true -> begins_blank rest = false ->
    split_at x rest pieces ->
    split_at x (item ++ x :: w ++ rest) (item :: pieces).

(** The pieces that are not empty. *)
Definition nonempty_pieces (pieces : list text) : list text :=
  List.filter (fun item => negb (text_eqb item [])) pieces.

(** The arguments of a binding line: white space collapsed, references to
    tagged types replaced by their names, and nothing for [void]. *)
Definition binding_arguments (args out : text) : Prop :=
  exists stripped : text,
    tags_stripped (collapse_whitespace args) stripped /\
    out = if text_eqb stripped (lit "void") then [] else stripped.

(** Every opening parenthesis of [s] has a closing one after it. *)
Fixpoint parens_closed (s : text) : bool :=
  match s with
  | [] => true
  | c :: s' => (if c =? 40 then existsb (N.eqb 41) s' else true) && parens_closed s'
  end.

(** A word without white space and without slash. *)
Definition solid (w : text) : Prop :=
  w <> [] /\ forallb (fun c => negb (isspace c) && other_than 47 c) w = true.

(** A code point [t.encode("UTF-8")] accepts: any code point of a [str]
    that is no surrogate. *)
Definition scalar (c : N) : bool := (c <? 1114112) && negb (is_surrogate c).

(** A line the translator cannot encode. *)
Definition surrogate_source : text :=
  lit "typedef int ArrowA;" ++ [NL] ++ lit "typedef int x" ++ [55296] ++ lit ";".

(** * Properties *)

(** ** Lists and prefixes *)

Lemma strip_prefix_Some (l s s' : text) :
  strip_prefix l s = Some s' <-> s = l ++ s'.
Proof.
  revert s. induction l as [|a l IH]; intros s; simpl.
  - split; [intros [= ->] | intros ->]; reflexivity.
  - destruct s as [|b s]; [split; discriminate|].
    destruct (N.eqb_spec a b) as [->|Hne].
    + rewrite IH. split; [intros -> | intros [= ->]]; reflexivity.
    + split; [discriminate | intros [= ? ?]; congruence].
Qed.

Lemma strip_prefix_app (l s : text) : strip_prefix l (l ++ s) = Some s.
Proof. apply strip_prefix_Some. reflexivity. Qed.

Lemma strip_prefix_None (l s : text) :
  strip_prefix l s = None <-> forall s', s <> l ++ s'.
Proof.
  split.
  - intros H s' ->. rewrite strip_prefix_app in H. discriminate.
  - intros H. destruct (strip_prefix l s) as [s'|] eqn:E; [|reflexivity].
    apply strip_prefix_Some in E. exfalso. eapply H; eauto.
Qed.

Lemma star_splits_spec (p : N -> bool) (s m r : text) :
  In (m, r) (star_splits p s) <-> s = m ++ r /\ forallb p m = true.
Proof.
  revert m r. induction s as [|c s IH]; intros m r; simpl.
  - split.
    + intros [[= <- <-]|[]]. split; reflexivity.
    + intros [H _]. symmetry in H. apply app_eq_nil in H as [-> ->]. left; reflexivity.
  - destruct (p c) eqn:Hc.
    + rewrite in_app_iff, in_map_iff. split.
      * intros [[[m' r'] [[= <- <-] Hin]]|[[= <- <-]|[]]].
        -- apply IH in Hin as [-> Hm]. simpl. rewrite Hc. split; [reflexivity|exact Hm].
        -- split; reflexivity.
      * intros [H Hm]. destruct m as [|c' m].
        -- right. left. simpl in H. subst r. reflexivity.
        -- left. simpl in H. injection H as <- ->. simpl in Hm.
           rewrite Hc in Hm. simpl in Hm.
           exists (m, r). split; [reflexivity|]. apply IH. split; [reflexivity|exact Hm].
    + split.
      * intros [[= <- <-]|[]]. split; reflexivity.
      * intros [H Hm]. destruct m as [|c' m].
        -- left. simpl in H. subst r. reflexivity.
        -- simpl in H. injection H as <- ->. simpl in Hm. rewrite Hc in Hm. discriminate.
Qed.

(** The longest run comes first. *)
Lemma star_splits_longest (p : N -> bool) (a s : text) :
  forallb p a = true -> (forall c s', s = c :: s' -> p c = false) ->
  exists l, star_splits p (a ++ s) = (a, s) :: l.
Proof.
  intros Ha Hs. induction a as [|c a IH]; simpl.
  - destruct s as [|c s'].
    + eexists; reflexivity.
    + simpl. rewrite (Hs c s' eq_refl). eexists; reflexivity.
  - simpl in Ha. apply andb_true_iff in Ha as [Hc Ha]. rewrite Hc.
    destruct (IH Ha) as [l ->]. simpl. eexists; reflexivity.
Qed.

Theorem successes_spec (r : regex) (s : text) (g : gmap nat text) (a : success) :
  In a (successes r s g) <-> matches r s g a.
Proof.
  revert s g a. induction r as [l|p|p|r1 IH1 r2 IH2|r1 IH1 r2 IH2|r1 IH1|n r1 IH1];
    intros s g a; simpl.
  - destruct (strip_prefix l s) as [s'|] eqn:E.
    + apply strip_prefix_Some in E. subst s. simpl. split.
      * intros [<-|[]]. simpl. auto.
      * intros (H & Hm & Hc). apply app_inv_head in H. left.
        destruct a; simpl in *; subst; reflexivity.
    + simpl. split; [intros []|]. intros (H & _).
      rewrite strip_prefix_None in E. exfalso. eapply E; eauto.
  - destruct s as [|c s]; simpl.
    + split; [intros []|]. intros (c & _ & H & _). discriminate.
    + destruct (p c) eqn:Hc; simpl.
      * split.
        -- intros [<-|[]]. exists c. simpl. auto.
        -- intros (c' & _ & [= <- ->] & Hm & Hg). left.
           destruct a; simpl in *; subst; reflexivity.
      * split; [intros []|]. intros (c' & Hc' & [= <- ->] & _). congruence.
  - rewrite in_map_iff. split.
    + intros [[m r] [<- Hin]]. apply star_splits_spec in Hin as [-> Hm]. simpl. auto.
    + intros (H & Hm & Hg). exists (matched a, rest a). split.
      * destruct a; simpl in *; subst; reflexivity.
      * apply star_splits_spec. auto.
  - rewrite in_flat_map. split.
    + intros [a1 [H1 H2]]. apply in_map_iff in H2 as [a2 [<- H2]].
      exists a1, a2. rewrite <- IH1, <- IH2. auto.
    + intros (a1 & a2 & H1 & H2 & ->). exists a1. rewrite IH1. split; [exact H1|].
      apply in_map_iff. exists a2. rewrite IH2. auto.
  - rewrite in_app_iff, IH1, IH2. reflexivity.
  - rewrite in_app_iff, IH1. simpl. intuition.
  - rewrite in_map_iff. split.
    + intros [a1 [<- H1]]. exists a1. rewrite <- IH1. auto.
    + intros (a1 & H1 & ->). exists a1. rewrite IH1. auto.
Qed.

Lemma matches_sound (r : regex) (s : text) (g : gmap nat text) (a : success) :
  matches r s g a -> s = matched a ++ rest a.
Proof.
  revert s g a. induction r as [l|p|p|r1 IH1 r2 IH2|r1 IH1 r2 IH2|r1 IH1|n r1 IH1];
    intros s g a; simpl.
  - intros (-> & -> & _). reflexivity.
  - intros (c & _ & -> & -> & _). reflexivity.
  - intros (H & _). exact H.
  - intros (a1 & a2 & H1 & H2 & ->). simpl.
    apply IH1 in H1. apply IH2 in H2. rewrite H1, H2 at 1. apply app_assoc.
  - intros [H|H]; eauto.
  - intros [H| ->]; eauto.
  - intros (a1 & H1 & ->). simpl. eauto.
Qed.

Lemma rmatch_In (r : regex) (s : text) (a : success) :
  rmatch r s = Some a -> In a (successes r s ∅).
Proof.
  unfold rmatch. destruct (successes r s ∅) as [|x l]; simpl; [discriminate|].
  intros [= ->]. left. reflexivity.
Qed.

Lemma rmatch_matches (r : regex) (s : text) (a : success) :
  rmatch r s = Some a -> matches r s ∅ a.
Proof. intros H. apply successes_spec, rmatch_In, H. Qed.

Lemma rmatch_sound (r : regex) (s : text) (a : success) :
  rmatch r s = Some a -> s = matched a ++ rest a.
Proof. intros H. eapply matches_sound, rmatch_matches, H. Qed.

Lemma rmatch_None (r : regex) (s : text) :
  rmatch r s = None <-> forall a, ~ matches r s ∅ a.
Proof.
  unfold rmatch. split.
  - intros H a Ha. apply successes_spec in Ha.
    destruct (successes r s ∅); [destruct Ha | discriminate].
  - intros H. destruct (successes r s ∅) as [|x l] eqn:E; [reflexivity|].
    exfalso. apply (H x). apply successes_spec. rewrite E. left. reflexivity.
Qed.

(** A pattern that has a way to match does match. *)
Lemma rmatch_complete (r : regex) (s : text) (a : success) :
  matches r s ∅ a -> exists a', rmatch r s = Some a'.
Proof.
  intros H. apply successes_spec in H. unfold rmatch.
  destruct (successes r s ∅) as [|x l]; [destruct H|]. exists x. reflexivity.
Qed.

(** ** The scan *)

Lemma scan_skip (r : regex) (a b : text) :
  scan r (a ++ b) (length a) = scan r b 0.
Proof. induction a as [|c a IH]; simpl; [reflexivity | exact IH]. Qed.

Lemma scan_nil (r : regex) : rmatch r [] = None -> scan r [] 0 = ([], []).
Proof. intros H. simpl. rewrite H. reflexivity. Qed.

Lemma scan_nomatch (r : regex) (c : N) (s : text) :
  rmatch r (c :: s) = None ->
  scan r (c :: s) 0 = (c :: fst (scan r s 0), snd (scan r s 0)).
Proof. intros H. simpl. rewrite H. reflexivity. Qed.

Lemma scan_match (r : regex) (s : text) (a : success) :
  rmatch r s = Some a -> matched a <> [] ->
  scan r s 0 = ([], (mobj_of a, fst (scan r (rest a) 0)) :: snd (scan r (rest a) 0)).
Proof.
  intros H Hne. pose proof (rmatch_sound _ _ _ H) as Hs.
  destruct (matched a) as [|x m] eqn:Hm; [congruence|].
  destruct s as [|c s]; [discriminate|]. simpl in Hs. injection Hs as -> ->.
  simpl. rewrite H, Hm. simpl. rewrite scan_skip. reflexivity.
Qed.

Lemma sub_nil (r : regex) (repl : mobj -> text) :
  rmatch r [] = None -> sub r repl [] = [].
Proof. intros H. unfold sub. rewrite scan_nil by exact H. reflexivity. Qed.

Lemma sub_nomatch (r : regex) (repl : mobj -> text) (c : N) (s : text) :
  rmatch r (c :: s) = None -> sub r repl (c :: s) = c :: sub r repl s.
Proof. intros H. unfold sub. rewrite scan_nomatch by exact H. reflexivity. Qed.

Lemma sub_match (r : regex) (repl : mobj -> text) (s : text) (a : success) :
  rmatch r s = Some a -> matched a <> [] ->
  sub r repl s = repl (mobj_of a) ++ sub r repl (rest a).
Proof.
  intros H Hne. unfold sub. rewrite (scan_match _ _ _ H Hne).
  unfold render. simpl. rewrite app_assoc. reflexivity.
Qed.

Lemma finditer_nil (r : regex) : rmatch r [] = None -> finditer r [] = [].
Proof. intros H. unfold finditer. rewrite scan_nil by exact H. reflexivity. Qed.

Lemma finditer_nomatch (r : regex) (c : N) (s : text) :
  rmatch r (c :: s) = None -> finditer r (c :: s) = finditer r s.
Proof. intros H. unfold finditer. rewrite scan_nomatch by exact H. reflexivity. Qed.

Lemma finditer_match (r : regex) (s : text) (a : success) :
  rmatch r s = Some a -> matched a <> [] ->
  finditer r s = mobj_of a :: finditer r (rest a).
Proof.
  intros H Hne. unfold finditer. rewrite (scan_match _ _ _ H Hne). reflexivity.
Qed.

Lemma split_nil (r : regex) : rmatch r [] = None -> split r [] = [[]].
Proof. intros H. unfold split. rewrite scan_nil by exact H. reflexivity. Qed.

Lemma split_nomatch (r : regex) (c : N) (s : text) :
  rmatch r (c :: s) = None ->
  split r (c :: s) = (c :: hd [] (split r s)) :: tl (split r s).
Proof. intros H. unfold split. rewrite scan_nomatch by exact H. reflexivity. Qed.

Lemma split_match (r : regex) (s : text) (a : success) :
  rmatch r s = Some a -> matched a <> [] ->
  split r s = [] :: split r (rest a).
Proof.
  intros H Hne. unfold split. rewrite (scan_match _ _ _ H Hne). reflexivity.
Qed.

(** The matches and the text between them, put back in order, are the text
    that was scanned. *)
Lemma scan_partition (r : regex) (s : text) (skip : nat) :
  render m_text (scan r s skip) = drop skip s.
Proof.
  revert skip. induction s as [|c s IH]; intros skip.
  - destruct skip; simpl; [|reflexivity].
    destruct (rmatch r []) as [a|] eqn:E; [|reflexivity].
    apply rmatch_sound in E. symmetry in E. apply app_eq_nil in E as [E _].
    unfold render. simpl. rewrite E. reflexivity.
  - destruct skip as [|k]; simpl; [|apply IH].
    destruct (rmatch r (c :: s)) as [a|] eqn:E.
    + apply rmatch_sound in E.
      destruct (matched a) as [|x m] eqn:Hm; simpl in *.
      * specialize (IH 0%nat). unfold render in *. simpl in *.
        rewrite Hm. simpl. f_equal. exact IH.
      * injection E as <- ->. specialize (IH (length m)).
        unfold render in *. simpl in *. rewrite Hm. simpl. f_equal.
        rewrite <- app_assoc. rewrite IH. rewrite drop_app_length. reflexivity.
    + specialize (IH 0%nat). unfold render in *. simpl in *. f_equal. exact IH.
Qed.

(** Every match of a scan is the match the pattern reports at some place of
    the text. *)
Lemma scan_In (r : regex) (s : text) (skip : nat) (mg : mobj * text) :
  In mg (snd (scan r s skip)) ->
  exists s' a, rmatch r s' = Some a /\ fst mg = mobj_of a.
Proof.
  revert skip. induction s as [|c s IH]; intros skip.
  - destruct skip; simpl; [|intros []].
    destruct (rmatch r []) as [a|] eqn:E; simpl; [|intros []].
    intros [<-|[]]. eauto.
  - destruct skip as [|k]; simpl; [|apply IH].
    destruct (rmatch r (c :: s)) as [a|] eqn:E.
    + destruct (matched a); simpl; (intros [<-|H]; [eauto | eapply IH, H]).
    + simpl. apply IH.
Qed.

Lemma finditer_In (r : regex) (s : text) (m : mobj) :
  In m (finditer r s) -> exists s' a, rmatch r s' = Some a /\ m = mobj_of a.
Proof.
  unfold finditer. intros H. apply in_map_iff in H as [mg [<- H]].
  eapply scan_In, H.
Qed.

(** ** Occurrences of a word *)

Lemma text_eqb_true (a b : text) : text_eqb a b = true <-> a = b.
Proof. unfold text_eqb. apply bool_decide_eq_true. Qed.

Lemma text_eqb_false (a b : text) : text_eqb a b = false <-> a <> b.
Proof. unfold text_eqb. apply bool_decide_eq_false. Qed.

(** An occurrence of an unbordered word that starts inside a text followed
    by the word lies inside that text. *)
Lemma unbordered_overlap (t u v w : text) :
  unbordered t = true -> u ++ t ++ v = t ++ w ->
  u = [] \/ exists u', u = t ++ u'.
Proof.
  intros Hub Heq. destruct (le_lt_dec (length t) (length u)) as [Hle|Hlt].
  - right. exists (drop (length t) u).
    assert (take (length t) u = t) as Ht.
    { rewrite <- (take_app_le u (t ++ v)) by exact Hle.
      rewrite Heq. apply take_app_length. }
    rewrite <- Ht at 1. symmetry. apply take_drop.
  - destruct u as [|c u]; [left; reflexivity|]. exfalso.
    set (k := length (c :: u)) in *.
    assert (t = (c :: u) ++ take (length t - k) t) as Ht.
    { rewrite <- (take_app_length t w) at 1. rewrite <- Heq.
      rewrite take_app_ge by (fold k; lia). fold k.
      rewrite take_app_le by lia. reflexivity. }
    unfold unbordered in Hub. rewrite forallb_forall in Hub.
    specialize (Hub k). rewrite in_seq in Hub.
    assert (1 <= k)%nat by (subst k; simpl; lia).
    specialize (Hub ltac:(lia)). apply negb_true_iff, text_eqb_false in Hub.
    apply Hub. rewrite Ht at 1. apply drop_app_length.
Qed.

Lemma occurs_nil_inv (t : text) : t <> [] -> ~ occurs t [].
Proof.
  intros Hne (u & v & H). symmetry in H.
  apply app_eq_nil in H as [_ H]. apply app_eq_nil in H as [H _]. contradiction.
Qed.

Lemma occurs_cons (t : text) (c : N) (s : text) :
  occurs t s -> occurs t (c :: s).
Proof. intros (u & v & ->). exists (c :: u), v. reflexivity. Qed.

Lemma occurs_cons_inv (t : text) (c : N) (s : text) :
  occurs t (c :: s) -> (exists v, c :: s = t ++ v) \/ occurs t s.
Proof.
  intros (u & v & H). destruct u as [|c' u].
  - left. exists v. exact H.
  - right. injection H as _ ->. exists u, v. reflexivity.
Qed.

(** ** A pattern that is one word *)

Lemma rmatch_Lit (l s : text) :
  rmatch (Lit l) s =
    match strip_prefix l s with
    | Some s' => Some (Success l s' ∅)
    | None => None
    end.
Proof. unfold rmatch. simpl. destruct (strip_prefix l s); reflexivity. Qed.

Lemma rmatch_Lit_app (l s : text) : rmatch (Lit l) (l ++ s) = Some (Success l s ∅).
Proof. rewrite rmatch_Lit, strip_prefix_app. reflexivity. Qed.

Lemma rmatch_Lit_None (l s : text) :
  (forall v, s <> l ++ v) -> rmatch (Lit l) s = None.
Proof.
  intros H. rewrite rmatch_Lit.
  destruct (strip_prefix l s) as [s'|] eqn:E; [|reflexivity].
  apply strip_prefix_Some in E. exfalso. eapply H; eauto.
Qed.

Section WordSubstitution.
(** The substitution of a fixed text [rep] for a non-empty word [word]
    that no proper suffix of itself begins. *)
Variable word rep : text.
Hypothesis word_nonempty : word <> [].
Hypothesis word_unbordered : unbordered word = true.

Let replace (s : text) : text := sub (Lit word) (fun _ => rep) s.

Lemma replace_nil : replace [] = [].
Proof.
  apply sub_nil. apply rmatch_Lit_None. intros v H.
  symmetry in H. apply app_eq_nil in H as [H _]. contradiction.
Qed.

Lemma replace_word (b : text) : replace (word ++ b) = rep ++ replace b.
Proof.
  unfold replace. rewrite (sub_match _ _ _ _ (rmatch_Lit_app word b)); [reflexivity|].
  exact word_nonempty.
Qed.

Lemma replace_other (c : N) (s : text) :
  (forall v, c :: s <> word ++ v) -> replace (c :: s) = c :: replace s.
Proof. intros H. apply sub_nomatch, rmatch_Lit_None, H. Qed.

(** Every occurrence is replaced, whatever stands before and after it. *)
Lemma replace_app_word (a b : text) :
  replace (a ++ word ++ b) = replace a ++ rep ++ replace b.
Proof.
  remember (length a) as n eqn:Hn. revert a Hn.
  induction n as [n IH] using lt_wf_ind. intros a Hn.
  destruct a as [|c a].
  - simpl. rewrite replace_nil. apply replace_word.
  - destruct (strip_prefix word ((c :: a) ++ word ++ b)) as [w|] eqn:E.
    + apply strip_prefix_Some in E.
      destruct (unbordered_overlap _ _ _ _ word_unbordered E) as [H|[a' H]];
        [discriminate|].
      rewrite H. rewrite <- app_assoc. rewrite !replace_word.
      rewrite (IH (length a')); [rewrite <- app_assoc; reflexivity| |reflexivity].
      subst n. rewrite H, length_app.
      destruct word; [contradiction|simpl; lia].
    + rewrite strip_prefix_None in E. simpl.
      rewrite replace_other by exact E.
      rewrite replace_other.
      * simpl. f_equal. apply (IH (length a)); [subst n; simpl; lia|reflexivity].
      * intros v Hv. apply (E (v ++ word ++ b)). rewrite Hv.
        rewrite <- app_assoc. reflexivity.
Qed.

(** A text without the word is left as it is. *)
Lemma replace_absent (s : text) : ~ occurs word s -> replace s = s.
Proof.
  induction s as [|c s IH]; intros H; [apply replace_nil|].
  rewrite replace_other.
  - f_equal. apply IH. intros Ho. apply H, occurs_cons, Ho.
  - intros v Hv. apply H. exists [], v. exact Hv.
Qed.

(** What the result begins with, up to a character of [rep] that the word
    does not have, the text began with. *)
Lemma replace_prefix (x : N) (rep' t s v : text) :
  rep = x :: rep' -> ~ In x t -> replace s = t ++ v -> exists v', s = t ++ v'.
Proof.
  intros Hrep Hx. revert t v Hx. induction s as [|c s IH]; intros t v Hx H.
  - rewrite replace_nil in H. symmetry in H. apply app_eq_nil in H as [-> _].
    exists []. reflexivity.
  - destruct t as [|d t]; [eexists; reflexivity|].
    destruct (strip_prefix word (c :: s)) as [w|] eqn:E.
    + apply strip_prefix_Some in E. rewrite E, replace_word, Hrep in H.
      injection H as <- _. exfalso. apply Hx. left. reflexivity.
    + rewrite strip_prefix_None in E. rewrite replace_other in H by exact E.
      injection H as <- H. apply IH in H as [v' ->].
      * eexists; reflexivity.
      * intros Hin. apply Hx. right. exact Hin.
Qed.

(** No occurrence of the word is left. *)
Lemma replace_clean (x : N) (s : text) :
  rep = [x] -> ~ In x word -> ~ occurs word (replace s).
Proof.
  intros Hrep Hx.
  remember (length s) as n eqn:Hn. revert s Hn.
  induction n as [n IH] using lt_wf_ind. intros s Hn.
  destruct s as [|c s].
  - rewrite replace_nil. apply occurs_nil_inv, word_nonempty.
  - destruct (strip_prefix word (c :: s)) as [w|] eqn:E.
    + apply strip_prefix_Some in E. rewrite E, replace_word, Hrep.
      intros Ho. simpl in Ho. apply occurs_cons_inv in Ho as [[v Hv]|Ho].
      * destruct word as [|y word']; [contradiction|].
        injection Hv as <- _. apply Hx. left. reflexivity.
      * revert Ho. apply (IH (length w)); [|reflexivity].
        subst n. rewrite E, length_app.
        destruct word; [contradiction|simpl; lia].
    + rewrite strip_prefix_None in E. rewrite replace_other by exact E.
      intros Ho. apply occurs_cons_inv in Ho as [[v Hv]|Ho].
      * rewrite <- replace_other in Hv by exact E.
        apply (replace_prefix x [] word _ v Hrep Hx) in Hv as [v' Hv'].
        exact (E _ Hv').
      * revert Ho. apply (IH (length s)); [subst n; simpl; lia|reflexivity].
Qed.
End WordSubstitution.

(** ** Macro substitution *)

Lemma MAX_FIXED_BUFFERS_unbordered : unbordered MAX_FIXED_BUFFERS = true.
Proof. vm_compute. reflexivity. Qed.

Lemma MAX_FIXED_BUFFERS_nonempty : MAX_FIXED_BUFFERS <> [].
Proof. discriminate. Qed.

Lemma three_not_in_MAX_FIXED_BUFFERS : ~ In 51 MAX_FIXED_BUFFERS.
Proof.
  intros H. apply (In_nth_error) in H as [n H].
  assert (forallb (fun c => negb (c =? 51)) MAX_FIXED_BUFFERS = true) as Hall
    by (vm_compute; reflexivity).
  rewrite forallb_forall in Hall. apply nth_error_In in H.
  specialize (Hall _ H). rewrite N.eqb_refl in Hall. discriminate.
Qed.

(** ** Runs of a class *)

Lemma star_splits_span (p : N -> bool) (s : text) :
  exists l, star_splits p s = span p s :: l.
Proof.
  induction s as [|c s [l IH]]; simpl.
  - eexists; reflexivity.
  - destruct (p c).
    + rewrite IH. simpl. destruct (span p s). eexists; reflexivity.
    + eexists; reflexivity.
Qed.

Lemma span_sound (p : N -> bool) (s : text) :
  s = fst (span p s) ++ snd (span p s) /\ forallb p (fst (span p s)) = true.
Proof.
  induction s as [|c s [IH1 IH2]]; simpl; [auto|].
  destruct (p c) eqn:Hc; simpl; [|auto].
  rewrite Hc, IH2. split; [f_equal; exact IH1 | reflexivity].
Qed.

Lemma span_stop (p : N -> bool) (x : N) (u v : text) :
  p x = false ->
  span p (u ++ x :: v) = (fst (span p u), snd (span p u) ++ x :: v).
Proof.
  intros Hx. induction u as [|c u IH]; simpl.
  - rewrite Hx. reflexivity.
  - destruct (p c); [rewrite IH|]; reflexivity.
Qed.

Lemma span_all (p : N -> bool) (a s : text) :
  forallb p a = true -> (forall c s', s = c :: s' -> p c = false) ->
  span p (a ++ s) = (a, s).
Proof.
  intros Ha Hs. induction a as [|c a IH]; simpl.
  - destruct s as [|c s']; [reflexivity|]. simpl. rewrite (Hs c s' eq_refl). reflexivity.
  - simpl in Ha. apply andb_true_iff in Ha as [Hc Ha]. rewrite Hc, (IH Ha). reflexivity.
Qed.

Lemma strip_prefix_stop (l : text) (x : N) (u v : text) :
  ~ In x l ->
  strip_prefix l (u ++ x :: v) = option_map (fun s' => s' ++ x :: v) (strip_prefix l u).
Proof.
  revert u. induction l as [|a l IH]; intros u Hx; simpl; [reflexivity|].
  destruct u as [|b u]; simpl.
  - destruct (N.eqb_spec a x) as [->|_]; [|reflexivity].
    exfalso. apply Hx. left. reflexivity.
  - destruct (a =? b); [|reflexivity]. apply IH. intros H. apply Hx. right. exact H.
Qed.

Lemma head_map {A B : Type} (f : A -> B) (l : list A) :
  head (List.map f l) = option_map f (head l).
Proof. destruct l; reflexivity. Qed.

(** ** A pattern that begins with a word *)

Section BeginsWith.
(** A pattern [r] whose matches all begin with the unbordered word [word]. *)
Variable r : regex.
Variable word : text.
Hypothesis begins : forall s, (forall v, s <> word ++ v) -> rmatch r s = None.
Hypothesis word_nonempty : word <> [].
Hypothesis word_unbordered : unbordered word = true.

Lemma rmatch_nil_begins : rmatch r [] = None.
Proof.
  apply begins. intros v H. symmetry in H.
  apply app_eq_nil in H as [H _]. contradiction.
Qed.

Lemma no_match_before (c : N) (a b : text) :
  ~ occurs word (c :: a) -> rmatch r ((c :: a) ++ word ++ b) = None.
Proof.
  intros Ho. apply begins. intros v Hv.
  destruct (unbordered_overlap _ _ _ _ word_unbordered Hv) as [H|[u H]];
    [discriminate|].
  apply Ho. exists [], u. exact H.
Qed.

Lemma sub_absent (repl : mobj -> text) (s : text) :
  ~ occurs word s -> sub r repl s = s.
Proof.
  induction s as [|c s IH]; intros H; [apply sub_nil, rmatch_nil_begins|].
  rewrite sub_nomatch.
  - f_equal. apply IH. intros Ho. apply H, occurs_cons, Ho.
  - apply begins. intros v Hv. apply H. exists [], v. exact Hv.
Qed.

Lemma finditer_absent (s : text) : ~ occurs word s -> finditer r s = [].
Proof.
  induction s as [|c s IH]; intros H; [apply finditer_nil, rmatch_nil_begins|].
  rewrite finditer_nomatch.
  - apply IH. intros Ho. apply H, occurs_cons, Ho.
  - apply begins. intros v Hv. apply H. exists [], v. exact Hv.
Qed.

Lemma sub_before (repl : mobj -> text) (a b : text) :
  ~ occurs word a -> sub r repl (a ++ word ++ b) = a ++ sub r repl (word ++ b).
Proof.
  induction a as [|c a IH]; intros H; [reflexivity|].
  rewrite <- app_comm_cons.
  rewrite sub_nomatch by (apply (no_match_before c a b), H).
  rewrite <- app_comm_cons. f_equal. apply IH. intros Ho. apply H, occurs_cons, Ho.
Qed.

Lemma finditer_before (a b : text) :
  ~ occurs word a -> finditer r (a ++ word ++ b) = finditer r (word ++ b).
Proof.
  induction a as [|c a IH]; intros H; [reflexivity|].
  rewrite <- app_comm_cons.
  rewrite finditer_nomatch by (apply (no_match_before c a b), H).
  apply IH. intros Ho. apply H, occurs_cons, Ho.
Qed.
End BeginsWith.

(** ** A pattern that a character stops *)

Section Separator.
(** A pattern [r] that matches no empty text and whose match at a place
    is the same whatever follows the next [x]. *)
Variable r : regex.
Variable x : N.
Hypothesis nonempty : forall s a, rmatch r s = Some a -> matched a <> [].
Hypothesis stopped :
  forall u v, rmatch r (u ++ x :: v) = option_map (extend (x :: v)) (rmatch r u).

Lemma rmatch_nil_stopped : rmatch r [] = None.
Proof.
  destruct (rmatch r []) as [a|] eqn:E; [|reflexivity].
  pose proof (nonempty _ _ E) as Hne. apply rmatch_sound in E.
  symmetry in E. apply app_eq_nil in E as [E _]. contradiction.
Qed.

Lemma rmatch_at_separator (v : text) : rmatch r (x :: v) = None.
Proof.
  pose proof (stopped [] v) as H. simpl in H. rewrite H, rmatch_nil_stopped.
  reflexivity.
Qed.

Lemma sub_separator (repl : mobj -> text) (u v : text) :
  sub r repl (u ++ x :: v) = sub r repl u ++ x :: sub r repl v.
Proof.
  remember (length u) as n eqn:Hn. revert u Hn.
  induction n as [n IH] using lt_wf_ind. intros u Hn.
  destruct u as [|c u].
  - simpl. rewrite sub_nomatch by apply rmatch_at_separator.
    rewrite sub_nil by apply rmatch_nil_stopped. reflexivity.
  - pose proof (stopped (c :: u) v) as Hs.
    destruct (rmatch r (c :: u)) as [a|] eqn:E; simpl in Hs.
    + pose proof (nonempty _ _ E) as Hne. pose proof (rmatch_sound _ _ _ E) as Hu.
      rewrite (sub_match _ _ _ _ Hs Hne), (sub_match _ _ _ _ E Hne). simpl.
      rewrite (IH (length (rest a))); [|subst n|reflexivity].
      * rewrite <- app_assoc. reflexivity.
      * rewrite Hu, length_app. destruct (matched a); [contradiction|simpl; lia].
    + simpl. rewrite (sub_nomatch _ _ _ _ Hs), (sub_nomatch _ _ _ _ E). simpl.
      f_equal. apply (IH (length u)); [subst n; simpl; lia|reflexivity].
Qed.

Lemma finditer_separator (u v : text) :
  finditer r (u ++ x :: v) = finditer r u ++ finditer r v.
Proof.
  remember (length u) as n eqn:Hn. revert u Hn.
  induction n as [n IH] using lt_wf_ind. intros u Hn.
  destruct u as [|c u].
  - simpl. rewrite finditer_nomatch by apply rmatch_at_separator.
    rewrite finditer_nil by apply rmatch_nil_stopped. reflexivity.
  - pose proof (stopped (c :: u) v) as Hs. cbn [app] in *.
    destruct (rmatch r (c :: u)) as [a|] eqn:E; simpl in Hs.
    + pose proof (nonempty _ _ E) as Hne. pose proof (rmatch_sound _ _ _ E) as Hu.
      rewrite (finditer_match _ _ _ Hs Hne), (finditer_match _ _ _ E Hne). simpl.
      rewrite (IH (length (rest a))); [reflexivity|subst n|reflexivity].
      rewrite Hu, length_app. destruct (matched a); [contradiction|simpl; lia].
    + rewrite (finditer_nomatch _ _ _ Hs), (finditer_nomatch _ _ _ E).
      apply (IH (length u)); [subst n; simpl; lia|reflexivity].
Qed.
End Separator.

(** ** The match of a pattern, pattern by pattern *)

Lemma successes_Seq_Lit (l : text) (r : regex) (s : text) (g : gmap nat text) :
  successes (Seq (Lit l) r) s g =
    match strip_prefix l s with
    | Some s' =>
        List.map (fun b => Success (l ++ matched b) (rest b) (caps b)) (successes r s' g)
    | None => []
    end.
Proof.
  cbn [successes]. destruct (strip_prefix l s); cbn [flat_map matched rest caps].
  - apply app_nil_r.
  - reflexivity.
Qed.

Lemma rmatch_include (s : text) :
  rmatch re_include s =
    match strip_prefix INCLUDE_QUOTE s with
    | Some s' =>
        Some (Success (INCLUDE_QUOTE ++ fst (span not_newline s'))
                (snd (span not_newline s')) ∅)
    | None => None
    end.
Proof.
  unfold rmatch, re_include. rewrite successes_Seq_Lit.
  destruct (strip_prefix INCLUDE_QUOTE s) as [s'|]; [|reflexivity].
  cbn [successes]. destruct (star_splits_span not_newline s') as [l ->].
  reflexivity.
Qed.

Lemma rmatch_typedef (s : text) :
  rmatch re_typedef s =
    match strip_prefix TYPEDEF s with
    | Some (c :: s') =>
        if other_than 59 c
        then Some (Success (TYPEDEF ++ c :: fst (span (other_than 59) s'))
                     (snd (span (other_than 59) s'))
                     (<[1%nat := c :: fst (span (other_than 59) s')]> ∅))
        else None
    | _ => None
    end.
Proof.
  unfold rmatch, re_typedef. rewrite successes_Seq_Lit.
  destruct (strip_prefix TYPEDEF s) as [[|c s']|]; [reflexivity| |reflexivity].
  unfold Plus. cbn [successes flat_map].
  destruct (other_than 59 c); [|reflexivity].
  cbn [flat_map matched rest caps]. rewrite app_nil_r.
  destruct (star_splits_span (other_than 59) s') as [l ->].
  reflexivity.
Qed.

(** ** The aggregator *)

Lemma INCLUDE_QUOTE_unbordered : unbordered INCLUDE_QUOTE = true.
Proof. vm_compute. reflexivity. Qed.

Lemma INCLUDE_QUOTE_nonempty : INCLUDE_QUOTE <> [].
Proof. discriminate. Qed.

Lemma not_in_by_forallb (x : N) (l : text) :
  forallb (fun c => negb (c =? x)) l = true -> ~ In x l.
Proof.
  intros Hall H. rewrite forallb_forall in Hall.
  specialize (Hall _ H). rewrite N.eqb_refl in Hall. discriminate.
Qed.

Lemma include_begins (s : text) :
  (forall v, s <> INCLUDE_QUOTE ++ v) -> rmatch re_include s = None.
Proof.
  intros H. rewrite rmatch_include.
  destruct (strip_prefix INCLUDE_QUOTE s) as [s'|] eqn:E; [|reflexivity].
  apply strip_prefix_Some in E. exfalso. eapply H, E.
Qed.

Lemma include_nonempty (s : text) (a : success) :
  rmatch re_include s = Some a -> matched a <> [].
Proof.
  rewrite rmatch_include. destruct (strip_prefix INCLUDE_QUOTE s); [|discriminate].
  intros [= <-]. discriminate.
Qed.

Lemma include_stopped (u v : text) :
  rmatch re_include (u ++ NL :: v) = option_map (extend (NL :: v)) (rmatch re_include u).
Proof.
  rewrite !rmatch_include. rewrite strip_prefix_stop.
  - destruct (strip_prefix INCLUDE_QUOTE u) as [s'|]; [|reflexivity]. simpl.
    rewrite span_stop by reflexivity. reflexivity.
  - apply not_in_by_forallb. vm_compute. reflexivity.
Qed.

(** The includes are removed line by line. *)
Lemma strip_includes_lines (u v : text) :
  strip_includes (u ++ NL :: v) = strip_includes u ++ NL :: strip_includes v.
Proof. apply sub_separator; [exact include_nonempty | exact include_stopped]. Qed.

(** In a line, the first [#include] followed by a space and a double quote
    goes with all that follows it. *)
Lemma strip_includes_line (a l : text) :
  ~ occurs INCLUDE_QUOTE a -> ~ In NL l ->
  strip_includes (a ++ INCLUDE_QUOTE ++ l) = a.
Proof.
  intros Ha Hl. unfold strip_includes.
  rewrite (sub_before _ _ include_begins INCLUDE_QUOTE_unbordered) by exact Ha.
  assert (span not_newline l = (l, [])) as Hspan.
  { rewrite <- (app_nil_r l) at 1. apply span_all; [|discriminate].
    apply forallb_forall. intros c Hc. unfold not_newline, other_than.
    apply negb_true_iff, N.eqb_neq. intros ->. contradiction. }
  assert (rmatch re_include (INCLUDE_QUOTE ++ l) =
            Some (Success (INCLUDE_QUOTE ++ l) [] ∅)) as Hm.
  { rewrite rmatch_include, strip_prefix_app, Hspan. reflexivity. }
  rewrite (sub_match _ _ _ _ Hm); [|discriminate]. simpl.
  rewrite sub_nil by (apply include_begins; discriminate).
  apply app_nil_r.
Qed.

(** A text without [#include] followed by a space and a double quote is
    left as it is. *)
Lemma strip_includes_absent (s : text) :
  ~ occurs INCLUDE_QUOTE s -> strip_includes s = s.
Proof. apply sub_absent; [exact include_begins | exact INCLUDE_QUOTE_nonempty]. Qed.

(** ** Line endings *)

Lemma universal_newlines_no_cr (t : text) : ~ In 13 (universal_newlines t).
Proof.
  remember (length t) as n eqn:Hn. revert t Hn.
  induction n as [n IH] using lt_wf_ind. intros t Hn.
  destruct t as [|c t]; [intros []|]. cbn [universal_newlines].
  destruct (N.eqb_spec c 13) as [->|Hc].
  - intros [H|H]; [discriminate|]. destruct t as [|d t]; [destruct H|].
    destruct (d =? NL).
    + apply (IH (length t)) in H; [exact H|simpl in Hn; lia|reflexivity].
    + apply (IH (length (d :: t))) in H; [exact H|simpl in Hn |- *; lia|reflexivity].
  - intros [H|H]; [congruence|].
    apply (IH (length t)) in H; [exact H|simpl in Hn; lia|reflexivity].
Qed.

Lemma universal_newlines_clean (t : text) : ~ In 13 t -> universal_newlines t = t.
Proof.
  induction t as [|c t IH]; intros H; [reflexivity|]. cbn [universal_newlines].
  destruct (N.eqb_spec c 13) as [->|_]; [exfalso; apply H; left; reflexivity|].
  f_equal. apply IH. intros Hin. apply H. right. exact Hin.
Qed.

Lemma universal_newlines_crlf (u v : text) :
  universal_newlines (u ++ 13 :: 10 :: v) =
  universal_newlines u ++ NL :: universal_newlines v.
Proof.
  remember (length u) as n eqn:Hn. revert u Hn.
  induction n as [n IH] using lt_wf_ind. intros u Hn.
  destruct u as [|c u]; [reflexivity|].
  rewrite <- app_comm_cons. cbn [universal_newlines].
  destruct (c =? 13).
  - destruct u as [|d u]; [reflexivity|]. rewrite <- app_comm_cons.
    destruct (d =? NL).
    + rewrite (IH (length u)); [reflexivity|simpl in Hn; lia|reflexivity].
    + rewrite app_comm_cons, (IH (length (d :: u)));
        [reflexivity|simpl in Hn |- *; lia|reflexivity].
  - rewrite (IH (length u)); [reflexivity|simpl in Hn; lia|reflexivity].
Qed.

(** C2, as amended. When the four headers can be opened and the codec of
    the locale decodes their bytes, the aggregator returns their texts,
    each with its line endings translated to line feeds, joined by line
    breaks in the order of the list, with the includes of the quoted form
    removed: no carriage return is left in what is read, a carriage return
    with its line feed is read as one line break, and a text without
    carriage return is read as it is; the removal of the includes works
    line by line, in a line the first [#include] followed by a space and a
    double quote is removed with the rest of the line (the line break
    stays), and a text without such an include, one with includes of the
    angle-bracket form only for instance, is returned as it is. *)
Theorem aggregator_removes_quoted_includes
    (decode : bytes -> option text) (this_dir : path) (fs : filesystem)
    (t1 t2 t3 t4 : text) :
  reads_as decode fs (path_join (nanoarrow_dir this_dir) "nanoarrow_types.h") t1 ->
  reads_as decode fs (path_join (nanoarrow_dir this_dir) "nanoarrow.h") t2 ->
  reads_as decode fs (path_join (nanoarrow_dir this_dir) "buffer_inline.h") t3 ->
  reads_as decode fs (path_join (nanoarrow_dir this_dir) "array_inline.h") t4 ->
  generate_nanoarrow_c decode this_dir fs =
    Ok (strip_includes
          (universal_newlines t1 ++ NL :: universal_newlines t2 ++
           NL :: universal_newlines t3 ++ NL :: universal_newlines t4)) /\
  ((forall t : text, ~ In 13 (universal_newlines t)) /\
   (forall u v : text,
       universal_newlines (u ++ 13 :: 10 :: v) =
       universal_newlines u ++ NL :: universal_newlines v) /\
   (forall t : text, ~ In 13 t -> universal_newlines t = t)) /\
  (forall u v : text,
      strip_includes (u ++ NL :: v) = strip_includes u ++ NL :: strip_includes v) /\
  (forall a l : text,
      ~ occurs INCLUDE_QUOTE a -> ~ In NL l ->
      strip_includes (a ++ INCLUDE_QUOTE ++ l) = a) /\
  (forall s : text, ~ occurs INCLUDE_QUOTE s -> strip_includes s = s).
Proof.
  intros (R1 & b1 & B1 & D1) (R2 & b2 & B2 & D2) (R3 & b3 & B3 & D3)
    (R4 & b4 & B4 & D4).
  split; [|split; [|split; [|split]]].
  - unfold generate_nanoarrow_c, files. cbn [for_each bind].
    unfold read_text. rewrite R1, B1, D1. cbn [bind].
    rewrite R2, B2, D2. cbn [bind]. rewrite R3, B3, D3. cbn [bind].
    rewrite R4, B4, D4. reflexivity.
  - split; [exact universal_newlines_no_cr|].
    split; [exact universal_newlines_crlf|exact universal_newlines_clean].
  - exact strip_includes_lines.
  - exact strip_includes_line.
  - exact strip_includes_absent.
Qed.

Lemma aggregator_removes_quoted_includes_witness :
  generate_nanoarrow_c utf8_decode ["python"%string] headers_crlf =
    Ok (strip_includes
          (universal_newlines
             (lit "// caf" ++ [233] ++ [13; 10] ++
              lit "#include " ++ [DQ] ++ lit "nanoarrow_config.h" ++ [DQ] ++ [13; 10] ++
              lit "typedef int32_t ArrowErrorCode;" ++ [13; 10]) ++
           NL :: universal_newlines [] ++
           NL :: universal_newlines [] ++ NL :: universal_newlines [])) /\
  ((forall t : text, ~ In 13 (universal_newlines t)) /\
   (forall u v : text,
       universal_newlines (u ++ 13 :: 10 :: v) =
       universal_newlines u ++ NL :: universal_newlines v) /\
   (forall t : text, ~ In 13 t -> universal_newlines t = t)) /\
  (forall u v : text,
      strip_includes (u ++ NL :: v) = strip_includes u ++ NL :: strip_includes v) /\
  (forall a l : text,
      ~ occurs INCLUDE_QUOTE a -> ~ In NL l ->
      strip_includes (a ++ INCLUDE_QUOTE ++ l) = a) /\
  (forall s : text, ~ occurs INCLUDE_QUOTE s -> strip_includes s = s).
Proof.
  apply (aggregator_removes_quoted_includes utf8_decode ["python"%string] headers_crlf);
    (split; [reflexivity|]); eexists; (split; [vm_compute; reflexivity|]);
    vm_compute; reflexivity.
Defined.

(** The include of the angle-bracket form is still in the text the
    aggregator returns, the include of the quoted form beside it is gone;
    and the headers are read with the codec of the locale, which need not
    be UTF-8: the byte 233 is read as a letter under a Latin-1 locale,
    and raises under a UTF-8 locale. *)
Lemma angle_bracket_include_kept :
  generate_nanoarrow_c utf8_decode ["python"%string] headers_example =
    Ok (lit "#include <stdint.h>" ++ [NL] ++
        [NL] ++
        lit "typedef int32_t ArrowErrorCode;" ++ [NL] ++
        lit "struct ArrowBuffer { uint8_t* data; int64_t size_bytes; };" ++ [NL] ++
        lit "ArrowErrorCode ArrowBufferInit(struct ArrowBuffer* buffer);" ++ [NL]) /\
  generate_nanoarrow_c latin1_decode ["python"%string] headers_latin1 =
    Ok (lit "int caf" ++ [233] ++ lit ";" ++ [NL; NL; NL]) /\
  generate_nanoarrow_c utf8_decode ["python"%string] headers_latin1 =
    Raise UnicodeDecodeError.
Proof. repeat split; vm_compute; reflexivity. Qed.

(** ** Typedefs *)

Lemma TYPEDEF_unbordered : unbordered TYPEDEF = true.
Proof. vm_compute. reflexivity. Qed.

Lemma TYPEDEF_nonempty : TYPEDEF <> [].
Proof. discriminate. Qed.

Lemma typedef_begins (s : text) :
  (forall v, s <> TYPEDEF ++ v) -> rmatch re_typedef s = None.
Proof.
  intros H. rewrite rmatch_typedef.
  destruct (strip_prefix TYPEDEF s) as [s'|] eqn:E; [|reflexivity].
  apply strip_prefix_Some in E. exfalso. eapply H, E.
Qed.

Lemma typedef_nonempty (s : text) (a : success) :
  rmatch re_typedef s = Some a -> matched a <> [].
Proof.
  rewrite rmatch_typedef.
  destruct (strip_prefix TYPEDEF s) as [[|c s']|]; [discriminate| |discriminate].
  destruct (other_than 59 c); [|discriminate]. intros [= <-]. discriminate.
Qed.

Lemma typedef_stopped (u v : text) :
  rmatch re_typedef (u ++ 59 :: v) = option_map (extend (59 :: v)) (rmatch re_typedef u).
Proof.
  rewrite !rmatch_typedef. rewrite strip_prefix_stop.
  - destruct (strip_prefix TYPEDEF u) as [[|c s']|]; [reflexivity| |reflexivity].
    simpl. destruct (other_than 59 c); [|reflexivity].
    rewrite span_stop by reflexivity. reflexivity.
  - apply not_in_by_forallb. vm_compute. reflexivity.
Qed.

Lemma groupdict_typedef (t : text) (body : text) :
  groupdict re_typedef_names (Mobj t (<[1%nat := body]> ∅)) = typedef_record body.
Proof.
  unfold groupdict, re_typedef_names, typedef_record. simpl.
  rewrite lookup_insert_eq. reflexivity.
Qed.

(** A typedef that ends the text: all that follows the keyword is the body. *)
Lemma find_typedefs_last (a body : text) :
  ~ occurs TYPEDEF a -> body <> [] -> ~ In 59 body ->
  _find_typedefs (a ++ TYPEDEF ++ body) = [typedef_record body].
Proof.
  intros Ha Hne Hsemi. unfold _find_typedefs.
  rewrite (finditer_before _ _ typedef_begins TYPEDEF_unbordered) by exact Ha.
  destruct body as [|c body]; [contradiction|].
  assert (forallb (other_than 59) (c :: body) = true) as Hall.
  { apply forallb_forall. intros d Hd. unfold other_than.
    apply negb_true_iff, N.eqb_neq. intros ->. contradiction. }
  simpl in Hall. apply andb_true_iff in Hall as [Hc Hall].
  assert (span (other_than 59) body = (body, [])) as Hspan.
  { rewrite <- (app_nil_r body) at 1. apply span_all; [exact Hall|discriminate]. }
  assert (rmatch re_typedef (TYPEDEF ++ c :: body) =
            Some (Success (TYPEDEF ++ c :: body) [] (<[1%nat := c :: body]> ∅))) as Hm.
  { rewrite rmatch_typedef, strip_prefix_app, Hc, Hspan. reflexivity. }
  rewrite (finditer_match _ _ _ Hm); [|discriminate]. cbn [rest].
  rewrite finditer_nil by (apply typedef_begins; discriminate).
  unfold mobj_of. cbn [List.map matched caps]. rewrite groupdict_typedef. reflexivity.
Qed.

(** The keyword with nothing after it is no typedef. *)
Lemma find_typedefs_bare (a : text) :
  ~ occurs TYPEDEF a -> _find_typedefs (a ++ TYPEDEF) = [].
Proof.
  intros Ha. unfold _find_typedefs.
  rewrite <- (app_nil_r TYPEDEF).
  rewrite (finditer_before _ _ typedef_begins TYPEDEF_unbordered) by exact Ha.
  rewrite app_nil_r.
  assert (finditer re_typedef TYPEDEF = []) as -> by (vm_compute; reflexivity).
  reflexivity.
Qed.

(** C10, as amended. Typedef extraction has no prefix filter and no word
    boundary. The text is read piece by piece between the semicolons; in a
    piece, the first occurrence of [typedef] that at least one character
    follows gives a record whose body is all that follows it in the piece,
    whatever stands before the keyword and whatever name is aliased; a
    piece without the keyword, or with the keyword at its very end, gives
    no record; and each record is emitted as a [ctypedef] line. *)
Theorem typedefs_need_no_prefix :
  (forall u v : text,
      _find_typedefs (u ++ 59 :: v) = _find_typedefs u ++ _find_typedefs v) /\
  (forall a body : text,
      ~ occurs TYPEDEF a -> body <> [] -> ~ In 59 body ->
      _find_typedefs (a ++ TYPEDEF ++ body) = [typedef_record body]) /\
  (forall a : text,
      ~ occurs TYPEDEF a ->
      _find_typedefs a = [] /\ _find_typedefs (a ++ TYPEDEF) = []) /\
  (forall body indent : text,
      _typdef_to_cython (typedef_record body) indent =
      Ok (indent ++ lit "ctypedef " ++ strip_tags body)) /\
  declarations (lit "typedef int my_type;xtypedef long other") =
    Ok ([], [lit "    ctypedef  int my_type"; lit "    ctypedef  long other"], []).
Proof.
  split; [|split; [|split; [|split]]].
  - intros u v. unfold _find_typedefs.
    rewrite (finditer_separator _ _ typedef_nonempty typedef_stopped).
    apply List.map_app.
  - exact find_typedefs_last.
  - intros a Ha. split; [|apply find_typedefs_bare, Ha].
    unfold _find_typedefs.
    rewrite (finditer_absent _ _ typedef_begins TYPEDEF_nonempty) by exact Ha.
    reflexivity.
  - intros body indent. unfold _typdef_to_cython, getitem, typedef_record.
    rewrite lookup_singleton_eq. reflexivity.
  - vm_compute. reflexivity.
Qed.

(** An occurrence of [typedef] that a semicolon follows at once gives no
    record, and of the two occurrences in [typedef int typedef_t;] the
    second, inside the body of the first, gives none of its own. *)
Lemma typedef_occurrence_without_record :
  occurs TYPEDEF (lit "typedef;") /\
  _find_typedefs (lit "typedef;") = [] /\
  _find_typedefs (lit "typedef int typedef_t;") = [typedef_record (lit " int typedef_t")].
Proof.
  split; [|split].
  - exists [], (lit ";"). reflexivity.
  - vm_compute. reflexivity.
  - vm_compute. reflexivity.
Qed.

Lemma occursb_spec (t s : text) : occursb t s = true <-> occurs t s.
Proof.
  induction s as [|c s IH]; simpl.
  - destruct (strip_prefix t []) as [w|] eqn:E.
    + apply strip_prefix_Some in E. split; [|reflexivity].
      intros _. exists [], w. exact E.
    + split; [discriminate|]. rewrite strip_prefix_None in E.
      intros (u & v & H). symmetry in H. apply app_eq_nil in H as [-> H].
      exfalso. eapply E. symmetry. exact H.
  - destruct (strip_prefix t (c :: s)) as [w|] eqn:E.
    + apply strip_prefix_Some in E. split; [|reflexivity].
      intros _. exists [], w. exact E.
    + rewrite strip_prefix_None in E. rewrite IH. split.
      * apply occurs_cons.
      * intros H. apply occurs_cons_inv in H as [[v Hv]|H]; [|exact H].
        exfalso. eapply E, Hv.
Qed.

(** ** The scenario *)

(** C1, as amended. For the scenario the translator finds one declaration
    of each kind and emits the block [struct ArrowBuffer:] with the two
    member lines [uint8_t* data] and [int64_t size_bytes], the typedef line
    [ctypedef  int32_t ArrowErrorCode], in which two spaces follow
    [ctypedef] because the body of the typedef keeps the space that follows
    the keyword, and the function line
    [ArrowErrorCode ArrowBufferInit(ArrowBuffer* buffer)]. *)
Theorem scenario_declarations :
  declarations scenario =
    Ok ([lit "    struct ArrowBuffer:" ++ [NL] ++
         lit "        uint8_t* data" ++ [NL] ++
         lit "        int64_t size_bytes"],
        [lit "    ctypedef  int32_t ArrowErrorCode"],
        [lit "    ArrowErrorCode ArrowBufferInit(ArrowBuffer* buffer)"]).
Proof. vm_compute. reflexivity. Qed.

(** The file written for the scenario has no line
    [ctypedef int32_t ArrowErrorCode] with a single space. *)
Lemma scenario_typedef_line_has_two_spaces :
  exists out : bytes,
    file_bytes (snd (generate_nanoarrow_pxd scenario ["build"%string] (plain ∅)))
      ["build"; "nanoarrow_c.pxd"]%string = Some out /\
    occurs (blit "ctypedef  int32_t ArrowErrorCode") out /\
    ~ occurs (blit "ctypedef int32_t ArrowErrorCode") out.
Proof.
  eexists. split; [vm_compute; reflexivity|]. split.
  - apply occursb_spec. vm_compute. reflexivity.
  - intros H. apply occursb_spec in H. vm_compute in H. discriminate.
Qed.

(** ** The groups of a match *)

Lemma matches_sets (r : regex) (n : nat) (s : text) (g : gmap nat text) (a : success) :
  matches r s g a -> always_sets r n = true \/ is_Some (g !! n) ->
  is_Some (caps a !! n).
Proof.
  revert s g a. induction r as [l|p|p|r1 IH1 r2 IH2|r1 IH1 r2 IH2|r1 IH1|m r1 IH1];
    intros s g a; simpl.
  - intros (_ & _ & ->) [H|H]; [discriminate|exact H].
  - intros (c & _ & _ & _ & ->) [H|H]; [discriminate|exact H].
  - intros (_ & _ & ->) [H|H]; [discriminate|exact H].
  - intros (a1 & a2 & H1 & H2 & ->) H. simpl.
    destruct H as [H|H]; [apply orb_true_iff in H as [H|H]|].
    + eapply IH2; [exact H2|]. right. eapply IH1; [exact H1|]. left. exact H.
    + eapply IH2; [exact H2|]. left. exact H.
    + eapply IH2; [exact H2|]. right. eapply IH1; [exact H1|]. right. exact H.
  - intros [H1|H2] H.
    + eapply IH1; [exact H1|]. destruct H as [H|H]; [|right; exact H].
      apply andb_true_iff in H as [H _]. left. exact H.
    + eapply IH2; [exact H2|]. destruct H as [H|H]; [|right; exact H].
      apply andb_true_iff in H as [_ H]. left. exact H.
  - intros [H1| ->] [H|H]; try discriminate.
    + eapply IH1; [exact H1|]. right. exact H.
    + exact H.
  - intros (a1 & H1 & ->) H. simpl.
    destruct (Nat.eqb_spec n m) as [->|Hne].
    + rewrite lookup_insert_eq. eexists; reflexivity.
    + rewrite lookup_insert_ne by congruence.
      eapply IH1; [exact H1|]. destruct H as [H|H]; [|right; exact H].
      simpl in H. left. exact H.
Qed.

Lemma finditer_groups (r : regex) (s : text) (m : mobj) (n : nat) :
  In m (finditer r s) -> always_sets r n = true -> is_Some (m_groups m !! n).
Proof.
  intros Hin Hn. apply finditer_In in Hin as (s' & a & Ha & ->).
  apply rmatch_matches in Ha. eapply matches_sets; [exact Ha|]. left. exact Hn.
Qed.

(** The records the three passes find have a text for every group the
    conversions read. *)
Lemma find_typedefs_records (content : text) (t : gmap string (option text)) :
  In t (_find_typedefs content) -> exists body, t = typedef_record body.
Proof.
  unfold _find_typedefs. intros H. apply in_map_iff in H as [m [<- Hm]].
  destruct (finditer_groups _ _ _ 1 Hm eq_refl) as [body Hb].
  exists body. unfold groupdict, typedef_record. simpl. rewrite Hb. reflexivity.
Qed.

Lemma find_types_records (content : text) (t : gmap string (option text)) :
  In t (_find_types content) -> exists type name body, t = type_record type name body.
Proof.
  unfold _find_types. intros H. apply in_map_iff in H as [m [<- Hm]].
  destruct (finditer_groups _ _ _ 1 Hm eq_refl) as [type H1].
  destruct (finditer_groups _ _ _ 2 Hm eq_refl) as [name H2].
  destruct (finditer_groups _ _ _ 3 Hm eq_refl) as [body H3].
  exists type, name, body. unfold groupdict, type_record. simpl.
  rewrite H1, H2, H3. reflexivity.
Qed.

Lemma find_func_defs_records (content : text) (d : gmap string (option text)) :
  In d (_find_func_defs content) ->
  exists const return_type name args, d = func_record const return_type name args.
Proof.
  unfold _find_func_defs. intros H. apply in_map_iff in H as [m [<- Hm]].
  destruct (finditer_groups _ _ _ 4 Hm eq_refl) as [rt H4].
  destruct (finditer_groups _ _ _ 5 Hm eq_refl) as [name H5].
  destruct (finditer_groups _ _ _ 6 Hm eq_refl) as [args H6].
  exists (m_groups m !! 2%nat), rt, name, args. unfold groupdict, func_record. simpl.
  rewrite H4, H5, H6. reflexivity.
Qed.

(** ** The conversions *)

Lemma join_from_empty (sep : text) (items : list text) :
  join sep ([] :: items) = List.concat (List.map (fun item => sep ++ item) items).
Proof.
  assert (forall x l, sep ++ join sep (x :: l) =
            List.concat (List.map (fun item => sep ++ item) (x :: l))) as H.
  { intros x l. revert x. induction l as [|y l IH]; intros x.
    - simpl. rewrite app_nil_r. reflexivity.
    - change (join sep (x :: y :: l)) with (x ++ sep ++ join sep (y :: l)).
      rewrite IH. simpl. rewrite <- !app_assoc. reflexivity. }
  destruct items as [|x l]; [reflexivity|].
  change (join sep ([] :: x :: l)) with ([] ++ sep ++ join sep (x :: l)).
  apply H.
Qed.

Lemma typdef_to_cython_record (body indent : text) :
  _typdef_to_cython (typedef_record body) indent =
  Ok (indent ++ lit "ctypedef " ++ strip_tags body).
Proof.
  unfold _typdef_to_cython, getitem, typedef_record.
  rewrite lookup_singleton_eq. reflexivity.
Qed.

Lemma type_to_cython_record (type name body indent : text) :
  _type_to_cython (type_record type name body) indent =
  Ok (indent ++ type ++ lit " " ++ name ++ lit ":" ++
      List.concat
        (List.map (fun item => ([NL] ++ indent ++ lit "    ") ++ item)
           (segments (delimiter type) (strip_tags (strip body))))).
Proof.
  unfold _type_to_cython, getitem, type_record.
  rewrite lookup_insert_eq. cbn [bind].
  rewrite lookup_insert_ne by discriminate. rewrite lookup_insert_eq. cbn [bind].
  do 2 rewrite lookup_insert_ne by discriminate. rewrite lookup_insert_eq.
  cbn [bind as_str fmt]. rewrite join_from_empty.
  unfold segments, delimiter, text_eqb.
  destruct (decide (type = lit "enum")) as [->|Hne].
  - rewrite !bool_decide_eq_true_2 by reflexivity. reflexivity.
  - rewrite (bool_decide_eq_false_2 (Some type = Some (lit "enum"))) by congruence.
    rewrite (bool_decide_eq_false_2 (type = lit "enum")) by exact Hne. reflexivity.
Qed.

(** The arguments of a prototype as they are emitted. *)
Lemma func_def_to_cython_record (const : option text) (return_type name args indent : text) :
  _func_def_to_cython (func_record const return_type name args) indent =
  Ok (indent ++ (if truthy const then lit "const " ++ strip return_type else strip return_type)
        ++ lit " " ++ name ++ lit "(" ++
        (let args := strip_tags (sub re_whitespace (fun _ => lit " ") (strip args)) in
         if text_eqb args (lit "void") then [] else args) ++ lit ")").
Proof.
  unfold _func_def_to_cython, getitem, func_record.
  rewrite lookup_insert_ne by discriminate. rewrite lookup_insert_eq. cbn [bind as_str].
  rewrite lookup_insert_eq. cbn [bind].
  do 2 rewrite lookup_insert_ne by discriminate. rewrite lookup_insert_eq. cbn [bind].
  do 3 rewrite lookup_insert_ne by discriminate. rewrite lookup_insert_eq.
  cbn [bind as_str fmt]. reflexivity.
Qed.

Lemma Ok_inj {A : Type} (a b : A) : Ok a = Ok b -> a = b.
Proof. intros [= ->]. reflexivity. Qed.

Lemma for_each_ok {A B : Type} (f : A -> result B) (l : list A) :
  (forall a, In a l -> exists b, f a = Ok b) ->
  exists l', for_each f l = Ok l' /\ Forall2 (fun a b => f a = Ok b) l l'.
Proof.
  induction l as [|a l IH]; intros H.
  - exists []. split; [reflexivity|constructor].
  - destruct (H a (or_introl eq_refl)) as [b Hb].
    destruct IH as [l' [Hl' HF]]; [intros a' Ha'; apply H; right; exact Ha'|].
    exists (b :: l'). simpl. rewrite Hb. simpl. rewrite Hl'. simpl.
    split; [reflexivity|constructor; assumption].
Qed.

Lemma for_each_inv {A B : Type} (f : A -> result B) (l : list A) (l' : list B) :
  for_each f l = Ok l' -> Forall2 (fun a b => f a = Ok b) l l'.
Proof.
  revert l'. induction l as [|a l IH]; intros l'; simpl.
  - intros [= <-]. constructor.
  - destruct (f a) as [b|e] eqn:Hb; simpl; [|discriminate].
    destruct (for_each f l) as [bs|e]; simpl; [|discriminate].
    intros [= <-]. constructor; [exact Hb|apply IH; reflexivity].
Qed.

(** ** Line breaks *)

Lemma count_nl_app (a b : text) : count_nl (a ++ b) = (count_nl a + count_nl b)%nat.
Proof. unfold count_nl. rewrite List.filter_app, length_app. reflexivity. Qed.

Lemma count_nl_none (t : text) : ~ In NL t -> count_nl t = 0%nat.
Proof.
  unfold count_nl. induction t as [|c t IH]; intros H; [reflexivity|].
  cbn [List.filter]. destruct (N.eqb_spec NL c) as [E|_].
  - exfalso. apply H. left. symmetry. exact E.
  - apply IH. intros Hin. apply H. right. exact Hin.
Qed.

Lemma count_nl_entries (sep : text) (items : list text) :
  count_nl sep = 1%nat -> Forall (fun item => ~ In NL item) items ->
  count_nl (List.concat (List.map (fun item => sep ++ item) items)) = length items.
Proof.
  intros Hsep. induction 1 as [|item items Hitem _ IH]; [reflexivity|].
  simpl. rewrite !count_nl_app, Hsep, (count_nl_none _ Hitem), IH. reflexivity.
Qed.

(** ** Tagged types *)

(** A member written on two lines takes two lines of the block: the struct
    below has two members and three lines after the header. And a body
    that is a single space has one non-empty piece, the space, for which
    nothing is emitted. *)
Lemma member_lines_differ_from_pieces :
  (_find_types allocator_source =
     [type_record (lit "struct") (lit "ArrowBufferAllocator") allocator_body] /\
   length (segments re_struct_delim allocator_body) = 2%nat /\
   _type_to_cython (type_record (lit "struct") (lit "ArrowBufferAllocator") allocator_body)
     (lit "    ") = Ok allocator_block /\
   count_nl allocator_block = 3%nat) /\
  (_find_types empty_struct_source =
     [type_record (lit "struct") (lit "ArrowEmpty") (lit " ")] /\
   length (segments re_struct_delim (lit " ")) = 1%nat /\
   _type_to_cython (type_record (lit "struct") (lit "ArrowEmpty") (lit " ")) (lit "    ") =
     Ok (lit "    struct ArrowEmpty:")).
Proof. repeat split; vm_compute; reflexivity. Qed.

(** ** The translation as a whole *)

Lemma finditer_no_match (r : regex) (s : text) :
  (forall u w, s = u ++ w -> rmatch r w = None) -> finditer r s = [].
Proof.
  induction s as [|c s IH]; intros H.
  - apply finditer_nil. apply (H [] []). reflexivity.
  - rewrite finditer_nomatch by (apply (H [] (c :: s)); reflexivity).
    apply IH. intros u w ->. apply (H (c :: u) w). reflexivity.
Qed.

(** Every record found is converted. *)
Lemma declarations_ok (content : text) :
  exists types_cython typedefs_cython func_defs_cython,
    declarations content = Ok (types_cython, typedefs_cython, func_defs_cython) /\
    Forall2 (fun t line => _type_to_cython t (lit "    ") = Ok line)
      (_find_types (preprocessed content)) types_cython /\
    Forall2 (fun t line => _typdef_to_cython t (lit "    ") = Ok line)
      (_find_typedefs (preprocessed content)) typedefs_cython /\
    Forall2 (fun d line => _func_def_to_cython d (lit "    ") = Ok line)
      (_find_func_defs (preprocessed content)) func_defs_cython.
Proof.
  destruct (for_each_ok (fun t => _typdef_to_cython t (lit "    "))
              (_find_typedefs (preprocessed content))) as (tds & Htds & Ftds).
  { intros t Ht. apply find_typedefs_records in Ht as [body ->].
    rewrite typdef_to_cython_record. eexists; reflexivity. }
  destruct (for_each_ok (fun t => _type_to_cython t (lit "    "))
              (_find_types (preprocessed content))) as (tys & Htys & Ftys).
  { intros t Ht. apply find_types_records in Ht as (type & name & body & ->).
    rewrite type_to_cython_record. eexists; reflexivity. }
  destruct (for_each_ok (fun d => _func_def_to_cython d (lit "    "))
              (_find_func_defs (preprocessed content))) as (fns & Hfns & Ffns).
  { intros d Hd. apply find_func_defs_records in Hd as (c & rt & name & args & ->).
    rewrite func_def_to_cython_record. eexists; reflexivity. }
  exists tys, tds, fns. split; [|auto].
  unfold declarations. fold (_strip_comments content). fold (preprocessed content).
  cbv zeta. rewrite Htds, Htys, Hfns. reflexivity.
Qed.

(** ** The output file *)

Lemma encode_raises (t : text) (e : exn) :
  encode t = Raise e -> e = UnicodeEncodeError.
Proof.
  induction t as [|c t IH]; cbn [encode]; [discriminate|].
  destruct (encode_char c); [|intros [= <-]; reflexivity].
  destruct (encode t) as [bs|e']; cbn [bind]; [discriminate|].
  intros [= <-]. apply IH. reflexivity.
Qed.

Lemma encode_ascii (t : text) :
  forallb (fun c => c <? 128) t = true -> encode t = Ok t.
Proof.
  induction t as [|c t IH]; intros H; [reflexivity|].
  cbn [forallb] in H. apply andb_true_iff in H as [Hc H].
  cbn [encode]. unfold encode_char. rewrite Hc, (IH H). reflexivity.
Qed.

Lemma header_encoded :
  encode (sub re_newline_plus_indent (fun _ => [NL]) _pxd_header) =
  Ok (sub re_newline_plus_indent (fun _ => [NL]) _pxd_header).
Proof. apply encode_ascii. vm_compute. reflexivity. Qed.

Lemma extern_encoded :
  encode ([NL] ++ lit "cdef extern from " ++ [DQ] ++ lit "nanoarrow.h" ++ [DQ]
            ++ lit " nogil:" ++ [NL]) =
  Ok ([NL] ++ lit "cdef extern from " ++ [DQ] ++ lit "nanoarrow.h" ++ [DQ]
        ++ lit " nogil:" ++ [NL]).
Proof. apply encode_ascii. vm_compute. reflexivity. Qed.

(** The only exception that can leave the block is the one of [encode]. *)
Lemma write_bytes_raised (out : output) (b : bytes) :
  raised out = None \/ raised out = Some UnicodeEncodeError ->
  raised (write out (Ok b)) = None \/ raised (write out (Ok b)) = Some UnicodeEncodeError.
Proof. unfold write. intros [H|H]; rewrite H; cbn [raised]; auto. Qed.

Lemma write_text_raised (out : output) (t : text) :
  raised out = None \/ raised out = Some UnicodeEncodeError ->
  raised (write out (encode t)) = None \/
  raised (write out (encode t)) = Some UnicodeEncodeError.
Proof.
  unfold write. intros [H|H]; rewrite H; cbn [raised]; [|auto].
  destruct (encode t) as [b|e] eqn:E; cbn [raised]; [auto|].
  right. f_equal. apply (encode_raises t e E).
Qed.

Lemma write_lines_raised (sep : bytes) (lines : list text) (out : output) :
  raised out = None \/ raised out = Some UnicodeEncodeError ->
  raised (fold_left (fun out x => write (write out (encode x)) (Ok sep)) lines out) = None \/
  raised (fold_left (fun out x => write (write out (encode x)) (Ok sep)) lines out) =
    Some UnicodeEncodeError.
Proof.
  revert out. induction lines as [|x lines IH]; intros out H; [exact H|].
  cbn [fold_left]. apply IH, write_bytes_raised, write_text_raised, H.
Qed.

Lemma pxd_output_raised (types_cython typedefs_cython func_defs_cython : list text) :
  raised (pxd_output types_cython typedefs_cython func_defs_cython) = None \/
  raised (pxd_output types_cython typedefs_cython func_defs_cython) =
    Some UnicodeEncodeError.
Proof.
  unfold pxd_output. cbv zeta.
  repeat first [ apply write_lines_raised | apply write_bytes_raised
               | apply write_text_raised ].
  left. reflexivity.
Qed.

(** What [generate_nanoarrow_pxd] does once the declarations are
    converted, which they always are. *)
Lemma generate_nanoarrow_pxd_writes (content : text) (build_dir : path) (fs : filesystem) :
  exists types_cython typedefs_cython func_defs_cython,
    declarations content = Ok (types_cython, typedefs_cython, func_defs_cython) /\
    generate_nanoarrow_pxd content build_dir fs =
      if writable fs (path_join build_dir "nanoarrow_c.pxd") then
        (match raised (pxd_output types_cython typedefs_cython func_defs_cython) with
         | Some e => Raise e
         | None => Ok tt
         end,
         store fs (path_join build_dir "nanoarrow_c.pxd")
           (written (pxd_output types_cython typedefs_cython func_defs_cython)))
      else (Raise OSError, fs).
Proof.
  destruct (declarations_ok content) as (tys & tds & fns & H & _).
  exists tys, tds, fns. split; [exact H|].
  unfold generate_nanoarrow_pxd. rewrite H. reflexivity.
Qed.

(** ** Files *)

Lemma file_bytes_store (fs : filesystem) (p : path) (b : bytes) :
  file_bytes (store fs p b) p = Some b.
Proof. unfold file_bytes, store. cbn [target contents]. apply lookup_insert_eq. Qed.

Lemma file_bytes_store_other (fs : filesystem) (p q : path) (b : bytes) :
  target fs q <> target fs p -> file_bytes (store fs p b) q = file_bytes fs q.
Proof.
  intros H. unfold file_bytes, store. cbn [target contents].
  apply lookup_insert_ne. congruence.
Qed.

Lemma store_store (fs : filesystem) (p : path) (b b' : bytes) :
  store (store fs p b) p b' = store fs p b'.
Proof. unfold store. cbn [target contents readable writable]. rewrite insert_insert_eq. reflexivity. Qed.

(** C7. The translator is a function of its text: where the output file
    may be opened, the result and the bytes of the file are the same
    whatever the build directory and the files were before the run, and
    the file exists after the run; where it may not, the run raises and
    leaves the files as they were; and a second run on the same text
    changes nothing. *)
Theorem translator_deterministic
    (content : text) (build_dir build_dir' : path) (fs fs' : filesystem) :
  (writable fs (path_join build_dir "nanoarrow_c.pxd") = true ->
   writable fs' (path_join build_dir' "nanoarrow_c.pxd") = true ->
   fst (generate_nanoarrow_pxd content build_dir fs) =
     fst (generate_nanoarrow_pxd content build_dir' fs') /\
   file_bytes (snd (generate_nanoarrow_pxd content build_dir fs))
       (path_join build_dir "nanoarrow_c.pxd") =
     file_bytes (snd (generate_nanoarrow_pxd content build_dir' fs'))
       (path_join build_dir' "nanoarrow_c.pxd") /\
   is_Some (file_bytes (snd (generate_nanoarrow_pxd content build_dir fs))
              (path_join build_dir "nanoarrow_c.pxd"))) /\
  (writable fs (path_join build_dir "nanoarrow_c.pxd") = false ->
   generate_nanoarrow_pxd content build_dir fs = (Raise OSError, fs)) /\
  generate_nanoarrow_pxd content build_dir
      (snd (generate_nanoarrow_pxd content build_dir fs)) =
    generate_nanoarrow_pxd content build_dir fs.
Proof.
  destruct (generate_nanoarrow_pxd_writes content build_dir fs)
    as (tys & tds & fns & H & E).
  destruct (generate_nanoarrow_pxd_writes content build_dir' fs')
    as (tys' & tds' & fns' & H' & E').
  rewrite H in H'. injection H' as <- <- <-.
  split; [|split].
  - intros Hw Hw'. rewrite E, E', Hw, Hw'. cbn [fst snd].
    rewrite !file_bytes_store. eauto.
  - intros Hw. rewrite E, Hw. reflexivity.
  - destruct (generate_nanoarrow_pxd_writes content build_dir
                (snd (generate_nanoarrow_pxd content build_dir fs)))
      as (tys2 & tds2 & fns2 & H2 & E2).
    rewrite H in H2. injection H2 as <- <- <-.
    rewrite E2. rewrite E.
    destruct (writable fs (path_join build_dir "nanoarrow_c.pxd")) eqn:Hw;
      cbn [snd store writable]; rewrite Hw; [|reflexivity].
    fold (store fs (path_join build_dir "nanoarrow_c.pxd") (written (pxd_output tys tds fns))).
    rewrite store_store. reflexivity.
Qed.

Lemma for_each_read_fails (decode : bytes -> option text) (fs : filesystem) (dir : path)
    (l : list string) (file : string) :
  In file l ->
  readable fs (path_join dir file) = false \/ file_bytes fs (path_join dir file) = None ->
  (exists e,
      (e = OSError \/ e = UnicodeDecodeError) /\
      for_each (fun file => read_text decode fs (path_join dir file)) l = Raise e) /\
  ((forall file' b, In file' l -> file_bytes fs (path_join dir file') = Some b ->
                    is_Some (decode b)) ->
   for_each (fun file => read_text decode fs (path_join dir file)) l = Raise OSError).
Proof.
  intros Hin Hfile. induction l as [|f l IH]; [destruct Hin|].
  cbn [for_each]. unfold read_text at 1 3.
  destruct (readable fs (path_join dir f)) eqn:Hr; [|split; [eauto|reflexivity]].
  destruct (file_bytes fs (path_join dir f)) as [b|] eqn:Hb;
    [|split; [eauto|reflexivity]].
  destruct (decode b) as [t|] eqn:Hd.
  - cbn [bind]. destruct Hin as [->|Hin].
    { destruct Hfile; congruence. }
    destruct (IH Hin) as [(e & He & ->) IH2]. split; [eauto|].
    intros Hdec. rewrite IH2; [reflexivity|].
    intros file' b' Hin'. apply Hdec. right. exact Hin'.
  - cbn [bind]. split; [eauto|]. intros Hdec.
    destruct (Hdec f b (or_introl eq_refl) Hb) as [t Ht]. congruence.
Qed.

(** C8. When a header of the list is missing or may not be read the
    program raises before the translator runs, and the file system is as it
    was: no output file is written. The exception is the one of the
    failed [open], unless the bytes of a header read before it are not text
    for the codec, in which case it is the one of the decoder. *)
Theorem missing_header_is_fatal
    (decode : bytes -> option text) (this_dir build_dir : path) (fs : filesystem)
    (file : string) :
  In file files ->
  readable fs (path_join (nanoarrow_dir this_dir) file) = false \/
  file_bytes fs (path_join (nanoarrow_dir this_dir) file) = None ->
  (exists e,
      (e = OSError \/ e = UnicodeDecodeError) /\
      generate_nanoarrow_c decode this_dir fs = Raise e /\
      main decode this_dir build_dir fs = (Raise e, fs)) /\
  ((forall file' b,
       In file' files ->
       file_bytes fs (path_join (nanoarrow_dir this_dir) file') = Some b ->
       is_Some (decode b)) ->
   generate_nanoarrow_c decode this_dir fs = Raise OSError /\
   main decode this_dir build_dir fs = (Raise OSError, fs)).
Proof.
  intros Hin Hnone.
  destruct (for_each_read_fails decode fs (nanoarrow_dir this_dir) files file Hin Hnone)
    as [(e & He & Hraise) Hos].
  split.
  - exists e. split; [exact He|].
    assert (generate_nanoarrow_c decode this_dir fs = Raise e) as Hc
      by (unfold generate_nanoarrow_c; rewrite Hraise; reflexivity).
    split; [exact Hc|]. unfold main. rewrite Hc. reflexivity.
  - intros Hdec.
    assert (generate_nanoarrow_c decode this_dir fs = Raise OSError) as Hc
      by (unfold generate_nanoarrow_c; rewrite (Hos Hdec); reflexivity).
    split; [exact Hc|]. unfold main. rewrite Hc. reflexivity.
Qed.

Lemma missing_header_is_fatal_witness :
  (exists e,
      (e = OSError \/ e = UnicodeDecodeError) /\
      generate_nanoarrow_c utf8_decode ["python"%string] headers_incomplete = Raise e /\
      main utf8_decode ["python"%string] ["build"%string] headers_incomplete =
        (Raise e, headers_incomplete)) /\
  ((forall file' b,
       In file' files ->
       file_bytes headers_incomplete
         (path_join (nanoarrow_dir ["python"%string]) file') = Some b ->
       is_Some (utf8_decode b)) ->
   generate_nanoarrow_c utf8_decode ["python"%string] headers_incomplete = Raise OSError /\
   main utf8_decode ["python"%string] ["build"%string] headers_incomplete =
     (Raise OSError, headers_incomplete)).
Proof.
  apply (missing_header_is_fatal utf8_decode ["python"%string] ["build"%string]
           headers_incomplete "nanoarrow.h").
  - right. left. reflexivity.
  - right. vm_compute. reflexivity.
Defined.

(** The run on the source tree without its second header. *)
Example missing_header_run :
  main utf8_decode ["python"%string] ["build"%string] headers_incomplete =
    (Raise OSError, headers_incomplete).
Proof.
  unfold main.
  assert (generate_nanoarrow_c utf8_decode ["python"%string] headers_incomplete =
          Raise OSError) as -> by (vm_compute; reflexivity).
  reflexivity.
Qed.

(** ** The order of the declarations *)

Lemma laid_out_after (g : text) (ms : list text) (s : text) :
  laid_out ms s -> laid_out ms (g ++ s).
Proof.
  intros H. destruct H as [g'|g' m ms s H].
  - constructor.
  - rewrite app_assoc. constructor. exact H.
Qed.

Lemma laid_out_scan (l : list (mobj * text)) :
  laid_out (List.map m_text (List.map fst l))
    (List.concat (List.map (fun mg => m_text (fst mg) ++ snd mg) l)).
Proof.
  induction l as [|[m g] l IH]; simpl; [constructor|].
  rewrite <- app_assoc. apply (laid_out_cons [] (m_text m)).
  apply laid_out_after, IH.
Qed.

(** The matches [finditer] returns are pieces of the text that follow one
    another in it. *)
Lemma finditer_laid_out (r : regex) (s : text) :
  laid_out (List.map m_text (finditer r s)) s.
Proof.
  pose proof (scan_partition r s 0) as H. unfold render in H. simpl in H.
  rewrite <- H at 2. apply laid_out_after, laid_out_scan.
Qed.

Lemma Forall2_map_left {A B C : Type} (f : A -> B) (P : B -> C -> Prop)
    (l : list A) (l' : list C) :
  Forall2 P (List.map f l) l' -> Forall2 (fun a c => P (f a) c) l l'.
Proof.
  revert l'. induction l as [|a l IH]; intros l' H; inversion H; subst.
  - constructor.
  - constructor; [assumption|apply IH; assumption].
Qed.

Lemma write_ok (w b : bytes) :
  write (Output w None) (Ok b) = Output (w ++ b) None.
Proof. reflexivity. Qed.

Lemma write_lines (sep : bytes) (lines : list text) (bs : list bytes) (w : bytes) :
  Forall2 (fun line b => encode line = Ok b) lines bs ->
  fold_left (fun out x => write (write out (encode x)) (Ok sep)) lines (Output w None) =
  Output (w ++ List.concat (List.map (fun b => b ++ sep) bs)) None.
Proof.
  intros H. revert w. induction H as [|line b lines bs Hb _ IH]; intros w.
  - cbn [fold_left List.map List.concat]. rewrite app_nil_r. reflexivity.
  - cbn [fold_left]. rewrite Hb.
    rewrite !write_ok, IH. cbn [List.map List.concat]. rewrite <- !app_assoc. reflexivity.
Qed.

(** When every line can be encoded the bytes written are the preamble and
    the lines in order. *)
Lemma pxd_output_order (types_cython typedefs_cython func_defs_cython : list text)
    (types_bytes typedefs_bytes func_defs_bytes : list bytes) :
  Forall2 (fun line b => encode line = Ok b) types_cython types_bytes ->
  Forall2 (fun line b => encode line = Ok b) typedefs_cython typedefs_bytes ->
  Forall2 (fun line b => encode line = Ok b) func_defs_cython func_defs_bytes ->
  pxd_output types_cython typedefs_cython func_defs_cython =
  Output
    (pxd_preamble ++
     List.concat (List.map (fun type => type ++ [NL; NL]) types_bytes) ++
     List.concat (List.map (fun typedef => typedef ++ [NL]) typedefs_bytes) ++
     [NL] ++
     List.concat (List.map (fun func_def => func_def ++ [NL]) func_defs_bytes))
    None.
Proof.
  intros Hty Htd Hfn. unfold pxd_output. cbv zeta.
  rewrite header_encoded, extern_encoded, !write_ok.
  rewrite (write_lines _ _ _ _ Hty), (write_lines _ _ _ _ Htd), write_ok.
  rewrite (write_lines _ _ _ _ Hfn).
  unfold pxd_preamble, blit. cbn [app]. rewrite <- !app_assoc. reflexivity.
Qed.

(** A substitution edits the text in place: each match gives way to its
    replacement, and the rest is kept. *)
Lemma scan_edits (r : regex) (repl : mobj -> text) (s : text) (skip : nat) :
  edits (fun d w => exists s' a, rmatch r s' = Some a /\ d = matched a /\
                                 w = repl (mobj_of a))
    (drop skip s) (render repl (scan r s skip)).
Proof.
  revert skip. induction s as [|c s IH]; intros skip.
  - destruct skip; simpl; [|constructor].
    destruct (rmatch r []) as [a|] eqn:E; unfold render; simpl; [|constructor].
    pose proof (rmatch_sound _ _ _ E) as Hs. symmetry in Hs.
    apply app_eq_nil in Hs as [Hm _]. rewrite !app_nil_r.
    rewrite <- (app_nil_r (repl (mobj_of a))).
    apply (edits_step _ [] (repl (mobj_of a)) [] []); [|constructor].
    exists [], a. auto.
  - destruct skip as [|k]; simpl; [|apply IH].
    destruct (rmatch r (c :: s)) as [a|] eqn:E.
    + pose proof (rmatch_sound _ _ _ E) as Hs.
      destruct (matched a) as [|x m] eqn:Hm.
      * specialize (IH 0%nat). unfold render in *. simpl in *.
        rewrite <- app_assoc.
        apply (edits_step _ [] (repl (mobj_of a)) (c :: s)).
        -- exists (c :: s), a. auto.
        -- simpl. constructor. exact IH.
      * specialize (IH (length m)). unfold render in *. simpl in *.
        injection Hs as -> ->. rewrite drop_app_length in IH.
        rewrite <- app_assoc. apply (edits_step _ (x :: m) (repl (mobj_of a))).
        -- exists ((x :: m) ++ rest a), a. auto.
        -- exact IH.
    + specialize (IH 0%nat). unfold render in *. simpl in *.
      constructor. exact IH.
Qed.

Lemma edits_impl (step step' : text -> text -> Prop) (s t : text) :
  (forall d w, step d w -> step' d w) -> edits step s t -> edits step' s t.
Proof. intros Himpl. induction 1; constructor; auto. Qed.

Lemma strip_comments_edits (content : text) :
  edits comment_cut content (_strip_comments content).
Proof.
  eapply edits_impl; [|apply (scan_edits re_comment (fun _ => []) content 0)].
  intros d w (s' & a & Ha & -> & ->). split; [|reflexivity].
  apply rmatch_matches in Ha. unfold re_comment in Ha. cbn [matches] in Ha.
  destruct Ha as (a1 & a2 & _ & (b1 & b2 & (_ & Hm & _) & _ & ->) & ->).
  cbn [matched]. exists (matched a1), (matched b2). rewrite Hm. reflexivity.
Qed.

Lemma replace_max_buffers_edits (s : text) :
  edits macro_put s (replace_max_buffers s).
Proof.
  eapply edits_impl; [|apply (scan_edits re_max_buffers (fun _ => lit "3") s 0)].
  intros d w (s' & a & Ha & -> & ->). split; [|reflexivity].
  unfold re_max_buffers in Ha. rewrite rmatch_Lit in Ha.
  destruct (strip_prefix MAX_FIXED_BUFFERS s'); [|discriminate].
  injection Ha as <-. reflexivity.
Qed.

(** An edit that puts one character at most can be cut where its result is
    cut. *)
Lemma edits_app_inv (step : text -> text -> Prop) (s t1 t2 : text) :
  (forall d w, step d w -> (length w <= 1)%nat) ->
  edits step s (t1 ++ t2) ->
  exists s1 s2, s = s1 ++ s2 /\ edits step s1 t1 /\ edits step s2 t2.
Proof.
  intros Hstep H. remember (t1 ++ t2) as t eqn:Ht. revert t1 t2 Ht.
  induction H as [|c s t H IH|d w s t Hd H IH]; intros t1 t2 Ht.
  - symmetry in Ht. apply app_eq_nil in Ht as [-> ->].
    exists [], []. repeat split; constructor.
  - destruct t1 as [|c' t1]; simpl in Ht.
    + subst t2. exists [], (c :: s). repeat split; constructor. exact H.
    + injection Ht as <- Ht. destruct (IH t1 t2 Ht) as (s1 & s2 & -> & H1 & H2).
      exists (c :: s1), s2. repeat split; [constructor; exact H1|exact H2].
  - pose proof (Hstep d w Hd) as Hlen.
    destruct w as [|x [|y w]]; [| |simpl in Hlen; lia].
    + simpl in Ht. destruct (IH t1 t2 Ht) as (s1 & s2 & -> & H1 & H2).
      exists (d ++ s1), s2. rewrite app_assoc. repeat split; [|exact H2].
      apply (edits_step step d [] s1 t1 Hd H1).
    + destruct t1 as [|c' t1]; simpl in Ht.
      * subst t2. exists [], (d ++ s). repeat split; [constructor|].
        apply (edits_step step d [x] s t Hd H).
      * injection Ht as <- Ht. destruct (IH t1 t2 Ht) as (s1 & s2 & -> & H1 & H2).
        exists (d ++ s1), s2. rewrite app_assoc. repeat split; [|exact H2].
        apply (edits_step step d [x] s1 t1 Hd H1).
Qed.

(** Pieces that stand in order in the edited text come from pieces that
    stand in the same order in the text before the edit. *)
Lemma laid_out_edits (step : text -> text -> Prop) (ms : list text) (s t : text) :
  (forall d w, step d w -> (length w <= 1)%nat) ->
  edits step s t -> laid_out ms t ->
  exists ps, laid_out ps s /\ Forall2 (edits step) ps ms.
Proof.
  intros Hstep Hed Hl. revert s Hed.
  induction Hl as [g|g m ms t Hl IH]; intros s Hed.
  - exists []. split; constructor.
  - apply (edits_app_inv _ _ _ _ Hstep) in Hed as (sg & s' & -> & _ & Hed).
    apply (edits_app_inv _ _ _ _ Hstep) in Hed as (sm & s'' & -> & Hm & Hed).
    destruct (IH s'' Hed) as (ps & Hps & HF).
    exists (sm :: ps). split; constructor; assumption.
Qed.

(** What stands in order in the text the passes read comes from pieces in
    the same order in the text given to the translator. *)
Lemma laid_out_from_source (content : text) (ms : list text) :
  laid_out ms (preprocessed content) -> from_source content ms.
Proof.
  intros Hl. unfold preprocessed in Hl.
  destruct (laid_out_edits macro_put ms _ _
              ltac:(intros d w [_ ->]; simpl; lia)
              (replace_max_buffers_edits (_strip_comments content)) Hl)
    as (qs & Hqs & Fqs).
  destruct (laid_out_edits comment_cut qs _ _
              ltac:(intros d w [_ ->]; simpl; lia)
              (strip_comments_edits content) Hqs)
    as (ps & Hps & Fps).
  exists ps, qs. auto.
Qed.

(** ** Splitting a text at a character *)

Lemma split_first (q : N -> bool) (x : N) (u u' v v' : text) :
  forallb q u = true -> forallb q u' = true -> q x = false ->
  u ++ x :: v = u' ++ x :: v' -> u = u' /\ v = v'.
Proof.
  intros Hu Hu' Hx. revert u' Hu'. induction u as [|c u IH]; intros u' Hu' H.
  - destruct u' as [|c' u']; simpl in H.
    + injection H as ->. auto.
    + injection H as <- _. simpl in Hu'. rewrite Hx in Hu'. discriminate.
  - simpl in Hu. apply andb_true_iff in Hu as [Hc Hu].
    destruct u' as [|c' u']; simpl in H.
    + injection H as -> _. rewrite Hx in Hc. discriminate.
    + injection H as <- H. simpl in Hu'. apply andb_true_iff in Hu' as [_ Hu'].
      destruct (IH Hu u' Hu' H) as [-> ->]. auto.
Qed.

Lemma forallb_other_than (x : N) (l : text) :
  forallb (other_than x) l = true <-> ~ In x l.
Proof.
  unfold other_than. split.
  - apply not_in_by_forallb.
  - intros H. apply forallb_forall. intros c Hc.
    apply negb_true_iff, N.eqb_neq. intros ->. contradiction.
Qed.

Lemma split_last (x : N) (w w' z z' : text) :
  ~ In x z -> ~ In x z' -> w ++ x :: z = w' ++ x :: z' -> w = w' /\ z = z'.
Proof.
  intros Hz Hz' H. apply (f_equal (@rev N)) in H.
  rewrite !rev_app_distr in H. simpl in H. rewrite <- !app_assoc in H. simpl in H.
  apply (split_first (other_than x)) in H as [H1 H2].
  - apply (f_equal (@rev N)) in H1, H2. rewrite !rev_involutive in H1, H2. auto.
  - apply forallb_other_than. rewrite <- in_rev. exact Hz.
  - apply forallb_other_than. rewrite <- in_rev. exact Hz'.
  - unfold other_than. rewrite N.eqb_refl. reflexivity.
Qed.

(** ** Ways to match, built piece by piece *)

Lemma matches_Lit (l s : text) (g : gmap nat text) :
  matches (Lit l) (l ++ s) g (Success l s g).
Proof. simpl. auto. Qed.

Lemma matches_Star (p : N -> bool) (m s : text) (g : gmap nat text) :
  forallb p m = true -> matches (Star p) (m ++ s) g (Success m s g).
Proof. simpl. auto. Qed.

Lemma matches_Plus (p : N -> bool) (m s : text) (g : gmap nat text) :
  m <> [] -> forallb p m = true -> matches (Plus p) (m ++ s) g (Success m s g).
Proof.
  intros Hne Hm. destruct m as [|c m]; [contradiction|].
  simpl in Hm. apply andb_true_iff in Hm as [Hc Hm].
  unfold Plus. cbn [matches].
  exists (Success [c] (m ++ s) g), (Success m s g). cbn [matched rest caps].
  split; [exists c; auto|]. split; [auto|reflexivity].
Qed.

Lemma matches_Seq (r1 r2 : regex) (s : text) (g : gmap nat text) (a1 a2 : success) :
  matches r1 s g a1 -> matches r2 (rest a1) (caps a1) a2 ->
  matches (Seq r1 r2) s g (Success (matched a1 ++ matched a2) (rest a2) (caps a2)).
Proof. intros H1 H2. cbn [matches]. exists a1, a2. auto. Qed.

Lemma matches_Grp (n : nat) (r : regex) (s : text) (g : gmap nat text) (a : success) :
  matches r s g a ->
  matches (Grp n r) s g (Success (matched a) (rest a) (<[n := matched a]> (caps a))).
Proof. intros H. cbn [matches]. exists a. auto. Qed.

Lemma matches_Plus_inv (p : N -> bool) (s : text) (g : gmap nat text) (a : success) :
  matches (Plus p) s g a ->
  s = matched a ++ rest a /\ matched a <> [] /\ forallb p (matched a) = true /\
  caps a = g.
Proof.
  unfold Plus. cbn [matches].
  intros (a1 & a2 & (c & Hc & -> & Hm1 & Hg1) & (Hs & Hm2 & Hg2) & ->).
  cbn [matched rest caps]. rewrite Hm1. simpl. rewrite Hc, Hm2, Hs, Hg2, Hg1.
  repeat split. discriminate.
Qed.

(** An optional group that is one word, followed by [r]. *)
Lemma matches_Opt_word_inv (n : nat) (l : text) (r : regex)
    (s : text) (g : gmap nat text) (a : success) :
  matches (Seq (Opt (Grp n (Lit l))) r) s g a ->
  exists (b : bool) (s' : text) (a' : success),
    s = (if b then l else []) ++ s' /\
    matches r s' (if b then <[n := l]> g else g) a' /\
    a = Success ((if b then l else []) ++ matched a') (rest a') (caps a').
Proof.
  cbn [matches].
  intros (a1 & a2 & [(a0 & (Hs & Hm & Hg) & ->)| ->] & H2 & ->);
    cbn [matched rest caps] in *.
  - exists true, (rest a0), a2. rewrite Hm, Hg in *. auto.
  - exists false, s, a2. auto.
Qed.

Lemma matches_Opt_word (n : nat) (l : text) (r : regex) (b : bool)
    (s : text) (g : gmap nat text) (a : success) :
  matches r s (if b then <[n := l]> g else g) a ->
  matches (Seq (Opt (Grp n (Lit l))) r) ((if b then l else []) ++ s) g
    (Success ((if b then l else []) ++ matched a) (rest a) (caps a)).
Proof.
  intros H. destruct b.
  - apply (matches_Seq _ _ _ _ (Success l s (<[n := l]> g)) a); [|exact H].
    cbn [matches]. left. exists (Success l s g). cbn [matched rest caps]. auto.
  - apply (matches_Seq _ _ _ _ (Success [] s g) a); [|exact H].
    cbn [matches]. right. reflexivity.
Qed.

Lemma matches_Opt_tag_inv (r : regex) (s : text) (g : gmap nat text) (a : success) :
  matches (Seq (Opt (Grp 3 (Alt (Lit (lit "struct ")) (Lit (lit "enum "))))) r) s g a ->
  exists (t : tag_prefix) (s' : text) (a' : success),
    s = tag_text t ++ s' /\
    matches r s' (match t with NoTag => g | _ => <[3%nat := tag_text t]> g end) a' /\
    a = Success (tag_text t ++ matched a') (rest a') (caps a').
Proof.
  cbn [matches].
  intros (a1 & a2 & [(a0 & [(Hs & Hm & Hg)|(Hs & Hm & Hg)] & ->)| ->] & H2 & ->);
    cbn [matched rest caps] in *.
  - exists StructTag, (rest a0), a2. cbn [tag_text]. rewrite Hm, Hg in *. auto.
  - exists EnumTag, (rest a0), a2. cbn [tag_text]. rewrite Hm, Hg in *. auto.
  - exists NoTag, s, a2. auto.
Qed.

Lemma matches_Opt_tag (r : regex) (t : tag_prefix) (s : text) (g : gmap nat text)
    (a : success) :
  matches r s (match t with NoTag => g | _ => <[3%nat := tag_text t]> g end) a ->
  matches (Seq (Opt (Grp 3 (Alt (Lit (lit "struct ")) (Lit (lit "enum "))))) r)
    (tag_text t ++ s) g (Success (tag_text t ++ matched a) (rest a) (caps a)).
Proof.
  intros H. destruct t; cbn [tag_text].
  - apply (matches_Seq _ _ _ _ (Success [] s g) a); [|exact H].
    cbn [matches]. right. reflexivity.
  - apply (matches_Seq _ _ _ _
             (Success (lit "struct ") s (<[3%nat := lit "struct "]> g)) a); [|exact H].
    cbn [matches]. left. exists (Success (lit "struct ") s g).
    cbn [matched rest caps]. auto.
  - apply (matches_Seq _ _ _ _
             (Success (lit "enum ") s (<[3%nat := lit "enum "]> g)) a); [|exact H].
    cbn [matches]. left. exists (Success (lit "enum ") s g).
    cbn [matched rest caps]. auto.
Qed.

Lemma matches_tail_inv (s : text) (g : gmap nat text) (a : success) :
  matches func_def_tail s g a ->
  exists rt nm args : text,
    s = rt ++ [SP] ++ (lit "Arrow" ++ nm) ++ lit "(" ++ args ++ lit ");" ++ rest a /\
    matched a = rt ++ [SP] ++ (lit "Arrow" ++ nm) ++ lit "(" ++ args ++ lit ");" /\
    rt <> [] /\ forallb return_type_char rt = true /\
    nm <> [] /\ forallb is_alnum nm = true /\
    forallb (other_than 41) args = true /\
    caps a = <[6%nat := args]> (<[5%nat := lit "Arrow" ++ nm]> (<[4%nat := rt]> g)).
Proof.
  unfold func_def_tail. cbn [matches].
  intros (a1 & a2 & (a4 & H4 & ->) & (b1 & b2 & (Hsp & Hspm & Hspg) &
            (c1 & c2 & (a5 & (d1 & d2 & (Har & Harm & Harg) & H5 & ->) & ->) &
               (e1 & e2 & (Hlp & Hlpm & Hlpg) &
                  (f1 & f2 & (a6 & (H6s & H6 & H6g) & ->) &
                     (Hend & Hendm & Hendg) & ->) & ->) & ->) & ->) & ->).
  apply matches_Plus_inv in H4 as (H4s & H4ne & H4all & H4g).
  apply matches_Plus_inv in H5 as (H5s & H5ne & H5all & H5g).
  cbn [matched rest caps] in *.
  exists (matched a4), (matched d2), (matched a6).
  rewrite Hendg, H6g, Hlpg, H5g, Harg, Hspg, H4g.
  rewrite Hendm, Hlpm, Harm, Hspm.
  split.
  { rewrite H4s, Hsp, Har, H5s, Hlp, H6s, Hend. rewrite <- !app_assoc. reflexivity. }
  split; [reflexivity|]. auto 10.
Qed.

Lemma matches_tail (rt nm args post : text) (g : gmap nat text) :
  rt <> [] -> forallb return_type_char rt = true ->
  nm <> [] -> forallb is_alnum nm = true ->
  forallb (other_than 41) args = true ->
  exists a,
    matches func_def_tail
      (rt ++ [SP] ++ (lit "Arrow" ++ nm) ++ lit "(" ++ args ++ lit ");" ++ post) g a.
Proof.
  intros Hrt Hrtc Hnm Hnmc Hargs. eexists. unfold func_def_tail.
  eapply matches_Seq; [apply matches_Grp, matches_Plus; eassumption|].
  cbn [rest caps].
  eapply matches_Seq; [apply matches_Lit|]. cbn [rest caps].
  eapply matches_Seq.
  { apply matches_Grp. rewrite <- app_assoc.
    eapply matches_Seq; [apply matches_Lit|]. cbn [rest caps].
    apply matches_Plus; eassumption. }
  cbn [rest caps].
  eapply matches_Seq; [apply matches_Lit|]. cbn [rest caps].
  eapply matches_Seq; [apply matches_Grp, matches_Star; eassumption|].
  cbn [rest caps]. apply matches_Lit.
Qed.

(** ** The match of a prototype *)

Lemma re_func_def_unfold :
  re_func_def =
  Seq (Lit [NL])
    (Seq (Opt (Grp 1 (Lit (lit "static inline "))))
       (Seq (Opt (Grp 2 (Lit (lit "const "))))
          (Seq (Opt (Grp 3 (Alt (Lit (lit "struct ")) (Lit (lit "enum ")))))
             func_def_tail))).
Proof. reflexivity. Qed.

Lemma prefix_text_head (si c : bool) (t : tag_prefix) :
  forallb head_char (prefix_text si c t) = true.
Proof. destruct si, c, t; vm_compute; reflexivity. Qed.

Lemma prefix_text_shape (si c : bool) (t : tag_prefix) :
  prefix_text si c t = [] \/ exists p, prefix_text si c t = p ++ [SP].
Proof.
  destruct si, c, t; try (left; reflexivity); right;
    match goal with |- exists p, ?P = _ => exists (removelast P) end;
    vm_compute; reflexivity.
Qed.

Lemma prefix_text_const (si c : bool) (t : tag_prefix) (si' c' : bool) (t' : tag_prefix) :
  prefix_text si c t = prefix_text si' c' t' -> c = c'.
Proof.
  intros H. destruct c, c'; try reflexivity; exfalso;
    destruct si, t, si', t'; vm_compute in H; discriminate.
Qed.

Lemma prefix_unique (p p' rt rt' : text) :
  (p = [] \/ exists q, p = q ++ [SP]) -> (p' = [] \/ exists q, p' = q ++ [SP]) ->
  ~ In SP rt -> ~ In SP rt' -> p ++ rt = p' ++ rt' -> p = p' /\ rt = rt'.
Proof.
  intros [->|[q ->]] [->|[q' ->]] Hrt Hrt' H.
  - simpl in H. auto.
  - exfalso. apply Hrt. simpl in H. rewrite H, <- app_assoc.
    apply in_or_app. right. left. reflexivity.
  - exfalso. apply Hrt'. simpl in H. rewrite <- H, <- app_assoc.
    apply in_or_app. right. left. reflexivity.
  - rewrite <- !app_assoc in H. simpl in H.
    apply split_last in H as [-> ->]; auto.
Qed.

Lemma return_type_char_head (l : text) :
  forallb return_type_char l = true -> forallb head_char l = true.
Proof.
  rewrite !forallb_forall. intros H c Hc. unfold head_char.
  rewrite (H c Hc). reflexivity.
Qed.

Lemma is_alnum_head (l : text) :
  forallb is_alnum l = true -> forallb head_char l = true.
Proof.
  rewrite !forallb_forall. intros H c Hc. unfold head_char, return_type_char.
  rewrite (H c Hc). reflexivity.
Qed.

Lemma return_type_char_no_space (l : text) :
  forallb return_type_char l = true -> ~ In SP l.
Proof.
  rewrite forallb_forall. intros H Hin. specialize (H _ Hin). discriminate.
Qed.

Lemma is_alnum_no_space (l : text) :
  forallb is_alnum l = true -> ~ In SP (lit "Arrow" ++ l).
Proof.
  rewrite forallb_forall. intros H Hin. apply in_app_or in Hin as [Hin|Hin].
  - revert Hin. apply not_in_by_forallb. reflexivity.
  - specialize (H _ Hin). discriminate.
Qed.

Lemma head_of_prototype (si c : bool) (t : tag_prefix) (rt nm : text) :
  forallb return_type_char rt = true -> forallb is_alnum nm = true ->
  forallb head_char (prefix_text si c t ++ rt ++ [SP] ++ lit "Arrow" ++ nm) = true.
Proof.
  intros Hrt Hnm. rewrite !forallb_app.
  rewrite prefix_text_head, (return_type_char_head _ Hrt), (is_alnum_head _ Hnm).
  reflexivity.
Qed.

Lemma matches_Seq_Lit_inv (l : text) (r : regex) (s : text) (g : gmap nat text)
    (a : success) :
  matches (Seq (Lit l) r) s g a ->
  exists (s' : text) (a' : success),
    s = l ++ s' /\ matches r s' g a' /\
    a = Success (l ++ matched a') (rest a') (caps a').
Proof.
  cbn [matches]. intros (a0 & a1 & (Hs & Hm & Hg) & H & ->).
  exists (rest a0), a1. rewrite Hg in H. rewrite Hm. auto.
Qed.

(** Every way the pattern of prototypes matches at the head of a text is a
    prototype of the grammar, with its parts in the groups. *)
Lemma matches_func_def_inv (s : text) (a : success) :
  matches re_func_def s ∅ a ->
  exists (si c : bool) (t : tag_prefix) (rt nm args : text),
    s = prototype si c t rt (lit "Arrow" ++ nm) args ++ rest a /\
    matched a = prototype si c t rt (lit "Arrow" ++ nm) args /\
    rt <> [] /\ forallb return_type_char rt = true /\
    nm <> [] /\ forallb is_alnum nm = true /\
    forallb (other_than 41) args = true /\
    caps a !! 2%nat = const_group c /\
    caps a !! 4%nat = Some rt /\
    caps a !! 5%nat = Some (lit "Arrow" ++ nm) /\
    caps a !! 6%nat = Some args.
Proof.
  rewrite re_func_def_unfold. intros H.
  apply matches_Seq_Lit_inv in H as (s0 & a1 & Hs & H & ->).
  apply matches_Opt_word_inv in H as (si & s1 & a2 & Hs1 & H & ->).
  apply matches_Opt_word_inv in H as (c & s2 & a3 & Hs2 & H & ->).
  apply matches_Opt_tag_inv in H as (t & s3 & a4 & Hs3 & H & ->).
  apply matches_tail_inv in H
    as (rt & nm & args & Hs4 & Hm4 & Hrt & Hrtc & Hnm & Hnmc & Hargs & Hcaps).
  exists si, c, t, rt, nm, args. cbn [matched rest caps].
  split; [|split].
  - rewrite Hs, Hs1, Hs2, Hs3, Hs4. unfold prototype, prefix_text.
    rewrite <- !app_assoc. reflexivity.
  - rewrite Hm4. unfold prototype, prefix_text.
    rewrite <- !app_assoc. reflexivity.
  - repeat (split; [assumption|]). rewrite Hcaps.
    split; [|split; [|split]].
    + rewrite !lookup_insert_ne by discriminate.
      destruct t; [|rewrite lookup_insert_ne by discriminate..];
        (destruct c; cbn [const_group];
         [apply lookup_insert_eq|
          destruct si; [rewrite lookup_insert_ne by discriminate|];
          apply lookup_empty]).
    + rewrite !lookup_insert_ne by discriminate. apply lookup_insert_eq.
    + rewrite lookup_insert_ne by discriminate. apply lookup_insert_eq.
    + apply lookup_insert_eq.
Qed.

(** A prototype of the grammar has a way to match. *)
Lemma matches_func_def (si c : bool) (t : tag_prefix) (rt nm args post : text) :
  rt <> [] -> forallb return_type_char rt = true ->
  nm <> [] -> forallb is_alnum nm = true ->
  forallb (other_than 41) args = true ->
  exists a,
    matches re_func_def (prototype si c t rt (lit "Arrow" ++ nm) args ++ post) ∅ a.
Proof.
  intros Hrt Hrtc Hnm Hnmc Hargs.
  set (g1 := if si then <[1%nat := lit "static inline "]> (∅ : gmap nat text) else ∅).
  set (g2 := if c then <[2%nat := lit "const "]> g1 else g1).
  set (g3 := match t with NoTag => g2 | _ => <[3%nat := tag_text t]> g2 end).
  destruct (matches_tail rt nm args post g3 Hrt Hrtc Hnm Hnmc Hargs) as [a4 H4].
  apply (matches_Opt_tag _ t) in H4.
  apply (matches_Opt_word 2 (lit "const ") _ c) in H4.
  apply (matches_Opt_word 1 (lit "static inline ") _ si) in H4.
  eexists. rewrite re_func_def_unfold.
  replace (prototype si c t rt (lit "Arrow" ++ nm) args ++ post) with
    ([NL] ++ ((if si then lit "static inline " else []) ++
              (if c then lit "const " else []) ++ tag_text t ++
              rt ++ [SP] ++ (lit "Arrow" ++ nm) ++ lit "(" ++ args ++ lit ");" ++ post)).
  - eapply matches_Seq; [apply matches_Lit|]. cbn [rest caps]. exact H4.
  - unfold prototype, prefix_text. rewrite <- !app_assoc. reflexivity.
Qed.

Lemma prototype_shape (si c : bool) (t : tag_prefix) (rt name args post : text) :
  prototype si c t rt name args ++ post =
  NL :: (prefix_text si c t ++ rt ++ [SP] ++ name) ++ 40 :: args ++ 41 :: 59 :: post.
Proof. unfold prototype. rewrite <- !app_assoc. reflexivity. Qed.

(** The match the pattern reports at a prototype of the grammar is that
    prototype, with its parts in the groups: the optional words and the
    return type cannot be read in two ways. *)
Lemma rmatch_prototype (si c : bool) (t : tag_prefix) (rt nm args post : text) :
  rt <> [] -> forallb return_type_char rt = true ->
  nm <> [] -> forallb is_alnum nm = true ->
  ~ In 41 args ->
  exists a,
    rmatch re_func_def (prototype si c t rt (lit "Arrow" ++ nm) args ++ post) = Some a /\
    matched a = prototype si c t rt (lit "Arrow" ++ nm) args /\
    rest a = post /\
    groupdict re_func_def_names (mobj_of a) =
      func_record (const_group c) rt (lit "Arrow" ++ nm) args.
Proof.
  intros Hrt Hrtc Hnm Hnmc Hargs. apply forallb_other_than in Hargs.
  destruct (matches_func_def si c t rt nm args post Hrt Hrtc Hnm Hnmc Hargs) as [a0 H0].
  destruct (rmatch_complete _ _ _ H0) as [a Ha]. exists a. split; [exact Ha|].
  apply rmatch_matches, matches_func_def_inv in Ha
    as (si' & c' & t' & rt' & nm' & args' & Hs & Hm & Hrt' & Hrtc' & Hnm' & Hnmc' &
        Hargs' & H2 & H4 & H5 & H6).
  rewrite !prototype_shape in Hs. apply (f_equal (@tl N)) in Hs. cbn [tl] in Hs.
  apply (split_first head_char 40) in Hs as [Hu Hv];
    [|(apply head_of_prototype; assumption) .. |reflexivity].
  apply (split_first (other_than 41) 41) in Hv as [<- Hv];
    [|assumption .. |reflexivity].
  apply (f_equal (@tl N)) in Hv. cbn [tl] in Hv.
  rewrite !(app_assoc (prefix_text _ _ _)) in Hu.
  apply (split_last SP) in Hu as [Hp Hname];
    [|(apply is_alnum_no_space; assumption) ..].
  apply prefix_unique in Hp as [Hp <-];
    [|apply prefix_text_shape|apply prefix_text_shape|(apply return_type_char_no_space; assumption) ..].
  apply app_inv_head in Hname as <-.
  pose proof (prefix_text_const _ _ _ _ _ _ Hp) as <-.
  split; [|split; [symmetry; exact Hv|]].
  - rewrite Hm. unfold prototype. rewrite Hp. reflexivity.
  - unfold groupdict, func_record, mobj_of. simpl.
    rewrite H2, H4, H5, H6. reflexivity.
Qed.

Lemma rmatch_func_def_not_newline (c : N) (s : text) :
  c <> NL -> rmatch re_func_def (c :: s) = None.
Proof.
  intros Hc. apply rmatch_None. intros a Ha.
  rewrite re_func_def_unfold in Ha.
  apply matches_Seq_Lit_inv in Ha as (s' & a' & Hs & _). simpl in Hs.
  injection Hs as -> _. contradiction.
Qed.

Lemma finditer_func_def_skip (pre s : text) :
  ~ In NL pre -> finditer re_func_def (pre ++ s) = finditer re_func_def s.
Proof.
  induction pre as [|c pre IH]; intros H; [reflexivity|].
  rewrite <- app_comm_cons. rewrite finditer_nomatch.
  - apply IH. intros Hin. apply H. right. exact Hin.
  - apply rmatch_func_def_not_newline. intros ->. apply H. left. reflexivity.
Qed.

(** A prototype of the grammar, after a text without line break, gives a
    record with its parts, and the search goes on after its semicolon. *)
Lemma find_func_defs_prototype
    (pre post : text) (si c : bool) (t : tag_prefix) (rt nm args : text) :
  ~ In NL pre ->
  rt <> [] -> forallb return_type_char rt = true ->
  nm <> [] -> forallb is_alnum nm = true ->
  ~ In 41 args ->
  _find_func_defs (pre ++ prototype si c t rt (lit "Arrow" ++ nm) args ++ post) =
  func_record (const_group c) rt (lit "Arrow" ++ nm) args :: _find_func_defs post.
Proof.
  intros Hpre Hrt Hrtc Hnm Hnmc Hargs. unfold _find_func_defs.
  rewrite finditer_func_def_skip by exact Hpre.
  destruct (rmatch_prototype si c t rt nm args post Hrt Hrtc Hnm Hnmc Hargs)
    as (a & Ha & Hm & Hr & Hd).
  rewrite (finditer_match _ _ _ Ha).
  - cbn [List.map]. rewrite Hd, Hr. reflexivity.
  - rewrite Hm. discriminate.
Qed.

(** ** White space *)

Lemma rmatch_whitespace (s : text) :
  rmatch re_whitespace s =
    match s with
    | c :: s' =>
        if isspace c
        then Some (Success (c :: fst (span isspace s')) (snd (span isspace s')) ∅)
        else None
    | [] => None
    end.
Proof.
  unfold rmatch, re_whitespace, Plus. cbn [successes].
  destruct s as [|c s']; [reflexivity|]. destruct (isspace c); [|reflexivity].
  cbn [flat_map matched rest caps]. rewrite app_nil_r.
  destruct (star_splits_span isspace s') as [l ->]. reflexivity.
Qed.

Lemma span_lstrip (s : text) : snd (span isspace s) = lstrip s.
Proof.
  induction s as [|c s IH]; simpl; [reflexivity|].
  destruct (isspace c); [exact IH|reflexivity].
Qed.

Lemma collapse_nil : sub re_whitespace (fun _ => lit " ") [] = [].
Proof. apply sub_nil. rewrite rmatch_whitespace. reflexivity. Qed.

Lemma collapse_other (c : N) (s : text) :
  isspace c = false ->
  sub re_whitespace (fun _ => lit " ") (c :: s) =
  c :: sub re_whitespace (fun _ => lit " ") s.
Proof.
  intros Hc. apply sub_nomatch. rewrite rmatch_whitespace, Hc. reflexivity.
Qed.

Lemma collapse_space (c : N) (s : text) :
  isspace c = true ->
  sub re_whitespace (fun _ => lit " ") (c :: s) =
  SP :: sub re_whitespace (fun _ => lit " ") (lstrip s).
Proof.
  intros Hc.
  assert (rmatch re_whitespace (c :: s) =
            Some (Success (c :: fst (span isspace s)) (snd (span isspace s)) ∅)) as Hm
    by (rewrite rmatch_whitespace, Hc; reflexivity).
  rewrite (sub_match _ _ _ _ Hm); [|discriminate].
  cbn [rest]. rewrite span_lstrip. reflexivity.
Qed.

Lemma lstrip_head (s : text) :
  match lstrip s with
  | c :: _ => isspace c = false
  | [] => True
  end.
Proof.
  induction s as [|c s IH]; simpl; [exact I|].
  destruct (isspace c) eqn:Hc; [exact IH|exact Hc].
Qed.

Lemma words_lstrip (s : text) : words (lstrip s) = words s.
Proof.
  induction s as [|c s IH]; [reflexivity|]. cbn [lstrip words].
  destruct (isspace c) eqn:Hc; [exact IH|]. cbn [words]. rewrite Hc. reflexivity.
Qed.

Lemma ends_clean_cons (c d : N) (s : text) :
  ends_clean (c :: d :: s) <-> ends_clean (d :: s).
Proof.
  unfold ends_clean. cbn [rev].
  destruct (rev s ++ [d]) as [|x l] eqn:E.
  - apply app_eq_nil in E as [_ E]. discriminate.
  - reflexivity.
Qed.

Lemma ends_clean_one (c : N) : ends_clean [c] <-> isspace c = false.
Proof. reflexivity. Qed.

Lemma words_nonempty (s : text) : s <> [] -> ends_clean s -> words s <> [].
Proof.
  induction s as [|c s IH]; [contradiction|]. intros _ Hend. cbn [words].
  destruct (isspace c) eqn:Hc.
  - destruct s as [|d s].
    + apply ends_clean_one in Hend. congruence.
    + apply IH; [discriminate|]. apply ends_clean_cons in Hend. exact Hend.
  - destruct s as [|d s]; [discriminate|].
    destruct (isspace d); [discriminate|].
    unfold cons_head. destruct (words (d :: s)); discriminate.
Qed.

Lemma join_cons_head (sep : text) (c : N) (ws : list text) :
  ws <> [] -> join sep (cons_head c ws) = c :: join sep ws.
Proof.
  destruct ws as [|w ws]; [contradiction|]. intros _. unfold cons_head.
  destruct ws; reflexivity.
Qed.

Lemma join_word (sep w : text) (ws : list text) :
  ws <> [] -> join sep (w :: ws) = w ++ sep ++ join sep ws.
Proof. destruct ws; [contradiction|reflexivity]. Qed.

Lemma words_head (d : N) (s : text) : isspace d = false -> words (d :: s) <> [].
Proof.
  intros Hd. cbn [words]. rewrite Hd. destruct s as [|e s]; [discriminate|].
  destruct (isspace e); [discriminate|].
  unfold cons_head. destruct (words (e :: s)); discriminate.
Qed.

(** The substitution of one space for every run of white space, on a text
    that does not end with white space. *)
Lemma collapse_words (s : text) :
  ends_clean s ->
  sub re_whitespace (fun _ => lit " ") s = lead s ++ join [SP] (words s) /\
  sub re_whitespace (fun _ => lit " ") (lstrip s) = join [SP] (words s).
Proof.
  induction s as [|c s IH]; intros Hend.
  - simpl. rewrite collapse_nil. auto.
  - cbn [lstrip lead words]. destruct (isspace c) eqn:Hc.
    + destruct s as [|d s]; [apply ends_clean_one in Hend; congruence|].
      apply ends_clean_cons in Hend. destruct (IH Hend) as [_ IH2].
      rewrite (collapse_space _ _ Hc), IH2. auto.
    + assert (sub re_whitespace (fun _ => lit " ") (c :: s) =
                join [SP]
                  match s with
                  | [] => [[c]]
                  | d :: _ =>
                      if isspace d then [c] :: words s else cons_head c (words s)
                  end) as H; [|rewrite H; auto].
      rewrite (collapse_other _ _ Hc). destruct s as [|d s].
      * rewrite collapse_nil. reflexivity.
      * apply ends_clean_cons in Hend. destruct (IH Hend) as [IH1 _].
        rewrite IH1. cbn [lead]. destruct (isspace d) eqn:Hd.
        -- rewrite join_word by (apply words_nonempty; [discriminate|exact Hend]).
           reflexivity.
        -- rewrite join_cons_head by (apply words_head, Hd). reflexivity.
Qed.

Lemma lstrip_split (s : text) :
  exists w, s = w ++ lstrip s /\ forallb isspace w = true.
Proof.
  exists (fst (span isspace s)). rewrite <- span_lstrip. apply span_sound.
Qed.

Lemma rstrip_split (s : text) :
  exists w, s = rstrip s ++ w /\ forallb isspace w = true.
Proof.
  destruct (lstrip_split (rev s)) as (w & Hs & Hw). exists (rev w). split.
  - unfold rstrip. rewrite <- rev_app_distr, <- Hs. symmetry. apply rev_involutive.
  - apply forallb_forall. intros c Hc. apply in_rev in Hc.
    rewrite forallb_forall in Hw. apply Hw, Hc.
Qed.

Lemma rstrip_ends_clean (s : text) : ends_clean (rstrip s).
Proof.
  unfold ends_clean, rstrip. rewrite rev_involutive. apply lstrip_head.
Qed.

Lemma words_spaces (w : text) : forallb isspace w = true -> words w = [].
Proof.
  induction w as [|c w IH]; [reflexivity|]. simpl.
  intros H. apply andb_true_iff in H as [-> H]. apply IH, H.
Qed.

Lemma words_app_spaces (s w : text) :
  forallb isspace w = true -> words (s ++ w) = words s.
Proof.
  intros Hw. induction s as [|c s IH]; [apply words_spaces, Hw|].
  rewrite <- app_comm_cons. cbn [words]. rewrite IH.
  destruct (isspace c); [reflexivity|].
  destruct s as [|d s]; [|reflexivity]. simpl ([] ++ w).
  destruct w as [|d w]; [reflexivity|].
  simpl in Hw. apply andb_true_iff in Hw as [Hd Hw]. rewrite Hd. reflexivity.
Qed.

Lemma words_strip (s : text) : words (strip s) = words s.
Proof.
  unfold strip. destruct (rstrip_split (lstrip s)) as (w & Hs & Hw).
  rewrite <- (words_lstrip s). rewrite Hs at 2. symmetry.
  apply words_app_spaces, Hw.
Qed.

Lemma lead_strip (s : text) : lead (strip s) = [].
Proof.
  unfold strip. destruct (rstrip_split (lstrip s)) as (w & Hs & Hw).
  pose proof (lstrip_head s) as Hh. rewrite Hs in Hh.
  destruct (rstrip (lstrip s)) as [|c l]; [reflexivity|].
  simpl in Hh. simpl. rewrite Hh. reflexivity.
Qed.

(** What the code does to the argument list, trimming it and substituting
    one space for every run of white space, is the collapse of the
    specification. *)
Lemma collapse_refines (s : text) :
  sub re_whitespace (fun _ => lit " ") (strip s) = collapse_whitespace s.
Proof.
  destruct (collapse_words (strip s)) as [H _].
  - unfold strip. apply rstrip_ends_clean.
  - rewrite H, lead_strip, words_strip. reflexivity.
Qed.

Lemma strip_clean (s : text) :
  forallb (fun c => negb (isspace c)) s = true -> strip s = s.
Proof.
  intros H.
  assert (forall l, forallb (fun c => negb (isspace c)) l = true -> lstrip l = l) as Hl.
  { intros [|c l]; [reflexivity|]. simpl. intros Hc.
    apply andb_true_iff in Hc as [Hc _]. apply negb_true_iff in Hc.
    rewrite Hc. reflexivity. }
  unfold strip, rstrip. rewrite (Hl s H), Hl; [apply rev_involutive|].
  apply forallb_forall. intros c Hc. apply in_rev in Hc.
  rewrite forallb_forall in H. apply H, Hc.
Qed.

Lemma return_type_char_not_space (c : N) :
  return_type_char c = true -> isspace c = false.
Proof.
  unfold return_type_char, is_alnum, is_alpha, is_upper, is_lower, is_digit, isspace.
  rewrite !orb_true_iff, !andb_true_iff, !N.leb_le, !N.eqb_eq.
  rewrite !orb_false_iff, !andb_false_iff, !N.leb_gt, !N.eqb_neq. lia.
Qed.

Lemma strip_return_type (rt : text) :
  forallb return_type_char rt = true -> strip rt = rt.
Proof.
  intros H. apply strip_clean. rewrite forallb_forall in *. intros c Hc.
  apply negb_true_iff, return_type_char_not_space, H, Hc.
Qed.

(** ** Function prototypes *)

(** The line of the example, as text. *)
Lemma example_binding_line :
  for_each (fun d => _func_def_to_cython d (lit "    "))
    (_find_func_defs
       (lit "int x;" ++
        prototype true true EnumTag (lit "ArrowErrorCode*") (lit "ArrowBufferInit")
          example_args)) =
  Ok [lit "    const ArrowErrorCode* ArrowBufferInit(ArrowBuffer* buffer, int64_t size_bytes)"].
Proof. vm_compute. reflexivity. Qed.

(** ** The operations on small texts *)

Example strip_comments_line :
  _strip_comments (lit "int x;  // some text" ++ [NL] ++ lit "int y;") =
  lit "int x;" ++ [NL] ++ lit "int y;".
Proof. vm_compute. reflexivity. Qed.

Example split_struct_members :
  split re_struct_delim (lit "uint8_t* data; int64_t size_bytes;") =
  [lit "uint8_t* data"; lit "int64_t size_bytes"; []].
Proof. vm_compute. reflexivity. Qed.

Example split_enum_members :
  segments re_enum_delim (lit "NANOARROW_TYPE_NA = 0, NANOARROW_TYPE_BOOL,") =
  [lit "NANOARROW_TYPE_NA = 0"; lit "NANOARROW_TYPE_BOOL"].
Proof. vm_compute. reflexivity. Qed.

Example strip_tags_argument :
  strip_tags (lit "struct ArrowArray* array, enum ArrowType type, struct Other* o") =
  lit "ArrowArray* array, ArrowType type, struct Other* o".
Proof. vm_compute. reflexivity. Qed.

Example strip_both_ends :
  strip ([NL] ++ lit "  int a; int b;  " ++ [NL]) = lit "int a; int b;".
Proof. vm_compute. reflexivity. Qed.

Example replace_inside_identifier :
  replace_max_buffers (lit "int64_t x[NANOARROW_MAX_FIXED_BUFFERS]; XNANOARROW_MAX_FIXED_BUFFERSY") =
  lit "int64_t x[3]; X3Y".
Proof. vm_compute. reflexivity. Qed.

Example header_unindented :
  occurs ([NL] ++ lit "# cython: language_level = 3" ++ [NL] ++ [NL] ++ lit "from libc.stdint")
    pxd_preamble.
Proof. apply occursb_spec. vm_compute. reflexivity. Qed.

(** * Further properties *)

(** ** What the records hold *)

Lemma matches_type_inv (s : text) (g : gmap nat text) (a : success) :
  matches re_type s g a ->
  exists kw nr body : text,
    In kw tag_keywords /\
    s = kw ++ [SP] ++ (lit "Arrow" ++ nr) ++ lit " {" ++ body ++ lit "}" ++ rest a /\
    matched a = kw ++ [SP] ++ (lit "Arrow" ++ nr) ++ lit " {" ++ body ++ lit "}" /\
    nr <> [] /\ forallb (other_than SP) nr = true /\
    forallb (other_than 125) body = true /\
    caps a = <[3%nat := body]> (<[2%nat := lit "Arrow" ++ nr]> (<[1%nat := kw]> g)).
Proof.
  unfold re_type, tag_keyword. cbn [matches].
  intros (a1 & a2 & (a0 & Hkw & ->) & (b1 & b2 & (Hsp & Hspm & Hspg) &
            (c1 & c2 & (a5 & (d1 & d2 & (Har & Harm & Harg) & H5 & ->) & ->) &
               (e1 & e2 & (Hlb & Hlbm & Hlbg) &
                  (f1 & f2 & (a6 & (H6s & H6 & H6g) & ->) &
                     (Hend & Hendm & Hendg) & ->) & ->) & ->) & ->) & ->).
  apply matches_Plus_inv in H5 as (H5s & H5ne & H5all & H5g).
  cbn [matched rest caps] in *.
  assert (In (matched a0) tag_keywords /\ s = matched a0 ++ rest a0 /\ caps a0 = g)
    as (Hin & Hs & Hg).
  { unfold tag_keywords.
    destruct Hkw as [(Hs & Hm & Hg)|[(Hs & Hm & Hg)|(Hs & Hm & Hg)]];
      rewrite Hm; simpl; auto. }
  exists (matched a0), (matched d2), (matched a6).
  rewrite Hendg, H6g, Hlbg, H5g, Harg, Hspg, Hg.
  rewrite Hendm, Hlbm, Harm, Hspm.
  split; [exact Hin|]. split.
  { rewrite Hs, Hsp, Har, H5s, Hlb, H6s, Hend. rewrite <- !app_assoc. reflexivity. }
  split; [reflexivity|]. auto 10.
Qed.

(** X2. Whatever the text, every record of a tagged type has one of the
    three keywords as its kind, a name that is [Arrow] followed by at least
    one character and has no space in it, and a body without a closing
    brace. *)
Theorem type_records_wellformed (content : text) :
  Forall
    (fun t =>
       exists kw nr body : text,
         t = type_record kw (lit "Arrow" ++ nr) body /\
         In kw tag_keywords /\
         nr <> [] /\ ~ In SP nr /\ ~ In 125 body)
    (_find_types content).
Proof.
  apply List.Forall_forall. intros t Ht. unfold _find_types in Ht.
  apply in_map_iff in Ht as [m [<- Hm]].
  apply finditer_In in Hm as (s' & a & Ha & ->).
  apply rmatch_matches, matches_type_inv in Ha
    as (kw & nr & body & Hkw & _ & _ & Hnr & Hnrc & Hbody & Hcaps).
  exists kw, nr, body. split.
  - unfold groupdict, type_record, mobj_of. simpl. rewrite Hcaps.
    rewrite !lookup_insert_ne by discriminate. rewrite lookup_insert_eq.
    rewrite lookup_insert_ne by discriminate. rewrite !lookup_insert_eq.
    reflexivity.
  - split; [exact Hkw|]. split; [exact Hnr|].
    split; apply forallb_other_than; assumption.
Qed.

(** ** What the passes do not find *)

Lemma occurs_app_r (t u s : text) : occurs t s -> occurs t (u ++ s).
Proof. intros (a & b & ->). exists (u ++ a), b. rewrite <- app_assoc. reflexivity. Qed.

(** X4. A text in which [Arrow] never follows a space has no tagged type
    and no function prototype for the translator: both patterns want the
    name, with the library prefix, after a space. *)
Theorem no_prefix_no_record (s : text) :
  ~ occurs (lit " Arrow") s -> _find_types s = [] /\ _find_func_defs s = [].
Proof.
  intros Hs. unfold _find_types, _find_func_defs. split.
  - rewrite finditer_no_match; [reflexivity|]. intros u w -> .
    apply rmatch_None. intros a Ha.
    apply matches_type_inv in Ha as (kw & nr & body & _ & Hw & _).
    apply Hs, occurs_app_r. rewrite Hw.
    exists kw, (nr ++ lit " {" ++ body ++ lit "}" ++ rest a).
    rewrite <- !app_assoc. reflexivity.
  - rewrite finditer_no_match; [reflexivity|]. intros u w -> .
    apply rmatch_None. intros a Ha.
    apply matches_func_def_inv in Ha as (si & c & t & rt & nm & args & Hw & _).
    apply Hs, occurs_app_r. rewrite Hw. unfold prototype.
    exists ([NL] ++ prefix_text si c t ++ rt), (nm ++ lit "(" ++ args ++ lit ");" ++ rest a).
    rewrite <- !app_assoc. reflexivity.
Qed.

Lemma no_prefix_no_record_witness :
  _find_types (lit "struct Other { int a; };" ++ [NL] ++ lit "int other_init(void);") = [] /\
  _find_func_defs (lit "struct Other { int a; };" ++ [NL] ++ lit "int other_init(void);") = [].
Proof.
  apply no_prefix_no_record.
  intros H. apply occursb_spec in H. vm_compute in H. discriminate.
Defined.

(** X5. A text without a line break has no function prototype for the
    translator: the pattern starts at a line break, so a prototype on the
    first line of the text is not found. *)
Theorem first_line_prototype_missed (s : text) :
  ~ In NL s -> _find_func_defs s = [].
Proof.
  intros Hs. unfold _find_func_defs.
  rewrite <- (app_nil_r s), (finditer_func_def_skip s [] Hs).
  rewrite finditer_nil; [reflexivity|].
  apply rmatch_None. intros a Ha. rewrite re_func_def_unfold in Ha.
  apply matches_Seq_Lit_inv in Ha as (s' & a' & Hs' & _). discriminate.
Qed.

Lemma first_line_prototype_missed_witness :
  _find_func_defs (lit "ArrowErrorCode ArrowBufferInit(struct ArrowBuffer* buffer);") = [].
Proof.
  apply first_line_prototype_missed. apply not_in_by_forallb. vm_compute. reflexivity.
Defined.

(** ** A tagged type in the text *)

Lemma straddle (t k u v w : text) :
  no_straddle t k = true -> u ++ k ++ v = t ++ w ->
  u = [] \/ exists u', u = t ++ u'.
Proof.
  intros Hns Heq. destruct (le_lt_dec (length t) (length u)) as [Hle|Hlt].
  - right. exists (drop (length t) u).
    assert (take (length t) u = t) as Ht.
    { rewrite <- (take_app_le u (k ++ v)) by exact Hle.
      rewrite Heq. apply take_app_length. }
    rewrite <- Ht at 1. symmetry. apply take_drop.
  - destruct u as [|c u]; [left; reflexivity|]. exfalso.
    set (i := length (c :: u)) in *.
    assert (k ++ v = drop i t ++ w) as Hd.
    { rewrite <- (drop_app_length (c :: u) (k ++ v)). fold i. rewrite Heq.
      apply drop_app_le. lia. }
    unfold no_straddle in Hns. rewrite forallb_forall in Hns.
    specialize (Hns i). rewrite in_seq in Hns.
    assert (1 <= i)%nat by (subst i; simpl; lia).
    specialize (Hns ltac:(lia)). apply negb_true_iff in Hns.
    unfold agree in Hns. apply text_eqb_false in Hns. apply Hns.
    set (n := Nat.min (length (drop i t)) (length k)).
    rewrite <- (take_app_le (drop i t) w n) by (subst n; lia).
    rewrite <- (take_app_le k v n) by (subst n; lia).
    rewrite Hd. reflexivity.
Qed.

Lemma tag_keywords_no_straddle (kw kw' : text) :
  In kw tag_keywords -> In kw' tag_keywords -> no_straddle kw' (kw ++ [SP]) = true.
Proof.
  unfold tag_keywords.
  intros [<-|[<-|[<-|[]]]] [<-|[<-|[<-|[]]]]; vm_compute; reflexivity.
Qed.

Lemma tag_keywords_no_space (kw : text) :
  In kw tag_keywords -> forallb (other_than SP) kw = true.
Proof. unfold tag_keywords. intros [<-|[<-|[<-|[]]]]; vm_compute; reflexivity. Qed.

Lemma matches_tag_keyword (kw s : text) (g : gmap nat text) :
  In kw tag_keywords -> matches tag_keyword (kw ++ s) g (Success kw s g).
Proof.
  unfold tag_keywords, tag_keyword.
  intros [<-|[<-|[<-|[]]]]; cbn [matches matched rest caps]; auto 6.
Qed.

Lemma tagged_type_shape (kw nr body post : text) :
  tagged_type kw (lit "Arrow" ++ nr) body ++ post =
  kw ++ SP :: (lit "Arrow" ++ nr) ++ SP :: 123 :: body ++ 125 :: post.
Proof. unfold tagged_type. rewrite <- !app_assoc. reflexivity. Qed.

Lemma matches_type (kw nr body post : text) :
  In kw tag_keywords -> nr <> [] -> forallb (other_than SP) nr = true ->
  forallb (other_than 125) body = true ->
  exists a, matches re_type (tagged_type kw (lit "Arrow" ++ nr) body ++ post) ∅ a.
Proof.
  intros Hkw Hnr Hnrc Hbody. eexists. unfold re_type.
  replace (tagged_type kw (lit "Arrow" ++ nr) body ++ post) with
    (kw ++ [SP] ++ (lit "Arrow" ++ nr) ++ lit " {" ++ body ++ lit "}" ++ post)
    by (unfold tagged_type; rewrite <- !app_assoc; reflexivity).
  eapply matches_Seq; [apply matches_Grp, matches_tag_keyword, Hkw|].
  cbn [rest caps].
  eapply matches_Seq; [apply matches_Lit|]. cbn [rest caps].
  eapply matches_Seq.
  { apply matches_Grp. rewrite <- app_assoc.
    eapply matches_Seq; [apply matches_Lit|]. cbn [rest caps].
    apply matches_Plus; eassumption. }
  cbn [rest caps].
  eapply matches_Seq; [apply matches_Lit|]. cbn [rest caps].
  eapply matches_Seq; [apply matches_Grp, matches_Star; eassumption|].
  cbn [rest caps]. apply matches_Lit.
Qed.

Lemma forallb_arrow_name (nr : text) :
  forallb (other_than SP) nr = true ->
  forallb (other_than SP) (lit "Arrow" ++ nr) = true.
Proof. intros H. rewrite forallb_app, H. reflexivity. Qed.

(** The match the pattern of tagged types reports at a definition is the
    definition, with its parts in the groups. *)
Lemma rmatch_tagged_type (kw nr body post : text) :
  In kw tag_keywords -> nr <> [] -> ~ In SP nr -> ~ In 125 body ->
  exists a,
    rmatch re_type (tagged_type kw (lit "Arrow" ++ nr) body ++ post) = Some a /\
    matched a = tagged_type kw (lit "Arrow" ++ nr) body /\
    rest a = post /\
    groupdict re_type_names (mobj_of a) = type_record kw (lit "Arrow" ++ nr) body.
Proof.
  intros Hkw Hnr Hnrc Hbody.
  apply forallb_other_than in Hnrc, Hbody.
  destruct (matches_type kw nr body post Hkw Hnr Hnrc Hbody) as [a0 H0].
  destruct (rmatch_complete _ _ _ H0) as [a Ha]. exists a. split; [exact Ha|].
  apply rmatch_matches, matches_type_inv in Ha
    as (kw' & nr' & body' & Hkw' & Hs & Hm & Hnr' & Hnrc' & Hbody' & Hcaps).
  rewrite tagged_type_shape in Hs.
  apply (split_first (other_than SP) SP) in Hs as [<- Hs];
    [|(apply tag_keywords_no_space; assumption) ..|reflexivity].
  apply (split_first (other_than SP) SP) in Hs as [Hname Hs];
    [|(apply forallb_arrow_name; assumption) ..|reflexivity].
  apply app_inv_head in Hname as <-.
  apply (f_equal (@tl N)) in Hs. cbn [tl] in Hs.
  apply (split_first (other_than 125) 125) in Hs as [<- Hs];
    [|assumption ..|reflexivity].
  split; [|split; [symmetry; exact Hs|]].
  - rewrite Hm. unfold tagged_type. reflexivity.
  - unfold groupdict, type_record, mobj_of. simpl. rewrite Hcaps.
    rewrite !lookup_insert_ne by discriminate. rewrite lookup_insert_eq.
    rewrite lookup_insert_ne by discriminate. rewrite !lookup_insert_eq.
    reflexivity.
Qed.

Lemma finditer_type_skip (pre kw s : text) :
  (forall kw', In kw' tag_keywords -> ~ occurs kw' pre) ->
  In kw tag_keywords ->
  finditer re_type (pre ++ kw ++ [SP] ++ s) = finditer re_type (kw ++ [SP] ++ s).
Proof.
  intros Hpre Hkw. induction pre as [|c pre IH]; [reflexivity|].
  rewrite <- app_comm_cons. rewrite finditer_nomatch.
  - apply IH. intros kw' Hkw' Ho. apply (Hpre kw' Hkw'), occurs_cons, Ho.
  - apply rmatch_None. intros a Ha.
    apply matches_type_inv in Ha as (kw' & nr & body & Hkw' & Hs & _).
    rewrite app_comm_cons in Hs. rewrite (app_assoc kw [SP]) in Hs.
    apply straddle in Hs as [Hs|[u' Hs]];
      [discriminate| |apply tag_keywords_no_straddle; assumption].
    apply (Hpre kw' Hkw'). exists [], u'. exact Hs.
Qed.

(** X6. The definition of a tagged type, a keyword, a space, a name made
    of [Arrow] and characters other than the space, a space, and a body
    without closing brace between braces, is found after any text in which
    no tag keyword occurs: it gives a record with the keyword, the name
    and the body, and the search goes on after the closing brace. *)
Theorem tagged_type_found (pre post kw nr body : text) :
  (forall kw', In kw' tag_keywords -> ~ occurs kw' pre) ->
  In kw tag_keywords -> nr <> [] -> ~ In SP nr -> ~ In 125 body ->
  _find_types (pre ++ tagged_type kw (lit "Arrow" ++ nr) body ++ post) =
  type_record kw (lit "Arrow" ++ nr) body :: _find_types post.
Proof.
  intros Hpre Hkw Hnr Hnrc Hbody. unfold _find_types.
  destruct (rmatch_tagged_type kw nr body post Hkw Hnr Hnrc Hbody)
    as (a & Ha & Hm & Hr & Hd).
  assert (tagged_type kw (lit "Arrow" ++ nr) body ++ post =
          kw ++ [SP] ++ ((lit "Arrow" ++ nr) ++ lit " {" ++ body ++ lit "}" ++ post)) as E
    by (unfold tagged_type; rewrite <- !app_assoc; reflexivity).
  rewrite E, (finditer_type_skip pre kw _ Hpre Hkw), <- E.
  rewrite (finditer_match _ _ _ Ha).
  - cbn [List.map]. rewrite Hd, Hr. reflexivity.
  - rewrite Hm. unfold tagged_type. unfold tag_keywords in Hkw.
    destruct Hkw as [<-|[<-|[<-|[]]]]; discriminate.
Qed.

Lemma tagged_type_found_witness :
  _find_types
    (lit "typedef int32_t ArrowErrorCode;" ++ [NL] ++
     tagged_type (lit "enum") (lit "Arrow" ++ lit "Type")
       (lit " NANOARROW_TYPE_NA = 0, NANOARROW_TYPE_BOOL ") ++ lit ";") =
  type_record (lit "enum") (lit "Arrow" ++ lit "Type")
    (lit " NANOARROW_TYPE_NA = 0, NANOARROW_TYPE_BOOL ") :: _find_types (lit ";").
Proof.
  apply (tagged_type_found (lit "typedef int32_t ArrowErrorCode;" ++ [NL]) (lit ";")
           (lit "enum") (lit "Type")).
  - intros kw' Hkw' H. apply occursb_spec in H. unfold tag_keywords in Hkw'.
    destruct Hkw' as [<-|[<-|[<-|[]]]]; vm_compute in H; discriminate.
  - right. right. left. reflexivity.
  - discriminate.
  - apply not_in_by_forallb. vm_compute. reflexivity.
  - apply not_in_by_forallb. vm_compute. reflexivity.
Defined.

(** ** Comments *)

Lemma star_splits_others (p : N -> bool) (s : text) :
  exists l,
    star_splits p s = span p s :: l /\
    Forall (fun mr => exists c r, snd mr = c :: r /\ p c = true) l.
Proof.
  induction s as [|c s (l & IH & Hl)]; simpl.
  - exists []. split; [reflexivity|constructor].
  - destruct (p c) eqn:Hc.
    + rewrite IH. simpl.
      exists (List.map (fun mr => (c :: fst mr, snd mr)) l ++ [([], c :: s)]).
      split; [reflexivity|]. apply Forall_app. split.
      * apply List.Forall_forall. intros mr Hmr.
        apply in_map_iff in Hmr as [mr' [<- Hmr']].
        rewrite List.Forall_forall in Hl. apply (Hl _ Hmr').
      * constructor; [|constructor]. exists c, s. auto.
    + exists []. split; [reflexivity|constructor].
Qed.

Lemma flat_map_nil {A B : Type} (f : A -> list B) (l : list A) :
  Forall (fun x => f x = []) l -> flat_map f l = [].
Proof. induction 1 as [|x l Hx _ IH]; simpl; [reflexivity|]. rewrite Hx, IH. reflexivity. Qed.

Lemma span_rest (p : N -> bool) (s : text) :
  snd (span p s) = [] \/ exists c r, snd (span p s) = c :: r /\ p c = false.
Proof.
  induction s as [|c s IH]; simpl; [left; reflexivity|].
  destruct (p c) eqn:Hc; [exact IH|]. right. exists c, s. auto.
Qed.

Lemma flat_map_of_map {A B C : Type} (f : B -> list C) (g : A -> B) (l : list A) :
  flat_map f (List.map g l) = flat_map (fun x => f (g x)) l.
Proof. induction l as [|x l IH]; simpl; [reflexivity|]. rewrite IH. reflexivity. Qed.

Lemma successes_Seq_Star (p : N -> bool) (r : regex) (s : text) (g : gmap nat text) :
  successes (Seq (Star p) r) s g =
  flat_map
    (fun mr =>
       List.map (fun b => Success (fst mr ++ matched b) (rest b) (caps b))
         (successes r (snd mr) g))
    (star_splits p s).
Proof. cbn [successes]. rewrite flat_map_of_map. reflexivity. Qed.

(** The match of the pattern of comments: the white space before the two
    slashes, the slashes, and the rest of the line. *)
Lemma rmatch_comment (s : text) :
  rmatch re_comment s =
    match strip_prefix SLASHES (lstrip s) with
    | Some r =>
        Some (Success (fst (span isspace s) ++ SLASHES ++ fst (span not_newline r))
                (snd (span not_newline r)) ∅)
    | None => None
    end.
Proof.
  unfold rmatch, re_comment. fold SLASHES. rewrite successes_Seq_Star.
  destruct (star_splits_others isspace s) as (l & -> & Hl).
  cbn [flat_map]. rewrite (flat_map_nil _ l).
  - rewrite app_nil_r, span_lstrip, successes_Seq_Lit.
    destruct (strip_prefix SLASHES (lstrip s)) as [r|]; [|reflexivity].
    cbn [successes]. destruct (star_splits_span not_newline r) as [l' ->].
    reflexivity.
  - apply List.Forall_forall. intros mr Hmr.
    rewrite List.Forall_forall in Hl. destruct (Hl _ Hmr) as (c & r & Hr & Hc).
    rewrite Hr, successes_Seq_Lit.
    assert (strip_prefix SLASHES (c :: r) = None) as ->; [|reflexivity].
    apply strip_prefix_None. intros v Hv. injection Hv as -> _. discriminate.
Qed.

Lemma comment_match_inv (s : text) (a : success) :
  rmatch re_comment s = Some a ->
  occurs SLASHES s /\ matched a <> [] /\ (rest a = [] \/ exists r, rest a = NL :: r).
Proof.
  rewrite rmatch_comment.
  destruct (strip_prefix SLASHES (lstrip s)) as [r|] eqn:E; [|discriminate].
  intros [= <-]. cbn [matched rest]. apply strip_prefix_Some in E. split; [|split].
  - destruct (lstrip_split s) as (w & Hs & _). rewrite Hs, E. exists w, r. reflexivity.
  - intros H. apply app_eq_nil in H as [_ H]. discriminate.
  - destruct (span_rest not_newline r) as [->|(c & r' & -> & Hc)]; [left; reflexivity|].
    right. exists r'. unfold not_newline, other_than in Hc.
    apply negb_false_iff, N.eqb_eq in Hc. rewrite Hc. reflexivity.
Qed.

Lemma comment_at_slashes (s : text) : rmatch re_comment (SLASHES ++ s) <> None.
Proof.
  rewrite rmatch_comment.
  assert (lstrip (SLASHES ++ s) = SLASHES ++ s) as -> by reflexivity.
  rewrite strip_prefix_app. discriminate.
Qed.

Lemma strip_comments_head (n : nat) (s : text) (x : N) (t : text) :
  (length s <= n)%nat -> _strip_comments s = x :: t -> isspace x = false ->
  exists s', s = x :: s' /\ rmatch re_comment s = None /\ _strip_comments s' = t.
Proof.
  revert s. induction n as [|n IH]; intros s Hn Hs Hx.
  - destruct s; [|simpl in Hn; lia].
    unfold _strip_comments in Hs. rewrite sub_nil in Hs; [discriminate|].
    rewrite rmatch_comment. reflexivity.
  - destruct (rmatch re_comment s) as [a|] eqn:E.
    + pose proof (rmatch_sound _ _ _ E) as Hsa.
      apply comment_match_inv in E as E'. destruct E' as (_ & Hne & Hrest).
      unfold _strip_comments in Hs. rewrite (sub_match _ _ _ _ E Hne) in Hs.
      simpl in Hs. fold (_strip_comments (rest a)) in Hs.
      destruct (IH (rest a)) as (s' & Hs' & _); [|exact Hs|exact Hx|].
      * rewrite Hsa, length_app in Hn. destruct (matched a); [contradiction|].
        simpl in Hn. lia.
      * exfalso. destruct Hrest as [Hr|[r Hr]]; rewrite Hr in Hs'; [discriminate|].
        injection Hs' as <- _. discriminate.
    + destruct s as [|c s].
      * unfold _strip_comments in Hs. rewrite sub_nil in Hs by exact E. discriminate.
      * unfold _strip_comments in Hs. rewrite (sub_nomatch _ _ _ _ E) in Hs.
        injection Hs as -> Hs. exists s. auto.
Qed.

Lemma strip_comments_clean (n : nat) (s : text) :
  (length s <= n)%nat -> ~ occurs SLASHES (_strip_comments s).
Proof.
  revert s. induction n as [|n IH]; intros s Hn.
  - destruct s; [|simpl in Hn; lia].
    unfold _strip_comments. rewrite sub_nil by (rewrite rmatch_comment; reflexivity).
    apply occurs_nil_inv. discriminate.
  - destruct (rmatch re_comment s) as [a|] eqn:E.
    + pose proof (rmatch_sound _ _ _ E) as Hsa.
      apply comment_match_inv in E as E'. destruct E' as (_ & Hne & _).
      unfold _strip_comments. rewrite (sub_match _ _ _ _ E Hne). simpl.
      apply IH. rewrite Hsa, length_app in Hn. destruct (matched a); [contradiction|].
      simpl in Hn. lia.
    + destruct s as [|c s].
      * unfold _strip_comments. rewrite sub_nil by exact E.
        apply occurs_nil_inv. discriminate.
      * unfold _strip_comments. rewrite (sub_nomatch _ _ _ _ E).
        fold (_strip_comments s). intros Ho.
        apply occurs_cons_inv in Ho as [[v Hv]|Ho].
        -- injection Hv as -> Hv.
           destruct (strip_comments_head (length s) s 47 v) as (s' & -> & _);
             [lia|exact Hv|reflexivity|].
           exact (comment_at_slashes s' E).
        -- revert Ho. apply IH. simpl in Hn. lia.
Qed.

(** X7. After the comments are stripped the text has no two slashes in a
    row left, whatever the text was; and a text without two slashes in a
    row is returned as it is. *)
Theorem comments_all_removed :
  (forall s : text, ~ occurs SLASHES (_strip_comments s)) /\
  (forall s : text, ~ occurs SLASHES s -> _strip_comments s = s).
Proof.
  split.
  - intros s. apply (strip_comments_clean (length s)). lia.
  - intros s. induction s as [|c s IH]; intros Hs.
    + apply sub_nil. rewrite rmatch_comment. reflexivity.
    + unfold _strip_comments. rewrite sub_nomatch.
      * f_equal. apply IH. intros Ho. apply Hs, occurs_cons, Ho.
      * destruct (rmatch re_comment (c :: s)) as [a|] eqn:E; [|reflexivity].
        apply comment_match_inv in E as [Ho _]. contradiction.
Qed.

(** ** Substitutions that only delete *)

Lemma render_delete_sublist (r : regex) (s : text) (skip : nat) :
  sublist (render (fun _ => []) (scan r s skip)) (drop skip s).
Proof.
  revert skip. induction s as [|c s IH]; intros skip.
  - destruct skip; simpl; [|constructor].
    destruct (rmatch r []); unfold render; simpl; constructor.
  - destruct skip as [|k]; simpl; [|apply IH].
    destruct (rmatch r (c :: s)) as [a|] eqn:E.
    + destruct (matched a) as [|x m] eqn:Hm.
      * specialize (IH 0%nat). unfold render in *. simpl in *.
        apply sublist_skip. exact IH.
      * specialize (IH (length m)). unfold render in *. simpl in *.
        apply sublist_cons. etransitivity; [exact IH|]. apply sublist_drop.
    + specialize (IH 0%nat). unfold render in *. simpl in *.
      apply sublist_skip. exact IH.
Qed.

Lemma sublist_In {A : Type} (l1 l2 : list A) (x : A) :
  sublist l1 l2 -> In x l1 -> In x l2.
Proof.
  induction 1 as [|y l1 l2 _ IH|y l1 l2 _ IH]; simpl; [auto| |auto].
  intros [->|H]; auto.
Qed.

(** X8. The two clean-up substitutions only delete: the text without its
    comments, and the text without its quoted includes, are what is left of
    the text when some of its characters are taken out, in the same order;
    nothing is added and nothing is moved. *)
Theorem cleanups_only_delete (s : text) :
  sublist (_strip_comments s) s /\ sublist (strip_includes s) s.
Proof.
  split.
  - apply (render_delete_sublist re_comment s 0).
  - apply (render_delete_sublist re_include s 0).
Qed.

Lemma count_nl_cons (c : N) (t : text) :
  count_nl (c :: t) = ((if N.eqb NL c then 1 else 0) + count_nl t)%nat.
Proof. unfold count_nl. cbn [List.filter]. destruct (N.eqb NL c); reflexivity. Qed.

(** X9. Removing the includes keeps every line break: the text the
    aggregator returns has as many lines as the headers joined, so a line
    of a header keeps its number. *)
Theorem strip_includes_keeps_lines (s : text) :
  count_nl (strip_includes s) = count_nl s.
Proof.
  assert (forall u : text, ~ In NL u -> count_nl (strip_includes u) = count_nl u)
    as Hline.
  { intros u Hno. rewrite (count_nl_none u Hno). apply count_nl_none.
    intros Hin. apply Hno. eapply sublist_In; [|exact Hin].
    apply (render_delete_sublist re_include u 0). }
  remember (length s) as n eqn:Hn. revert s Hn.
  induction n as [n IH] using lt_wf_ind. intros s Hn.
  destruct (span_sound not_newline s) as [Hs Hall].
  apply forallb_other_than in Hall.
  destruct (span_rest not_newline s) as [Hr|(c & r & Hr & Hc)].
  - apply Hline. rewrite Hs, Hr, app_nil_r. exact Hall.
  - unfold not_newline, other_than in Hc. apply negb_false_iff, N.eqb_eq in Hc.
    subst c. rewrite Hr in Hs.
    remember (fst (span not_newline s)) as u eqn:Hu. clear Hu Hr. subst s.
    rewrite strip_includes_lines, !count_nl_app, !count_nl_cons.
    rewrite (Hline u Hall). f_equal. f_equal.
    apply (IH (length r)); [|reflexivity].
    rewrite Hn, length_app. simpl. lia.
Qed.

(** ** The program and its files *)

Lemma for_each_ext {A B : Type} (f g : A -> result B) (l : list A) :
  (forall a, In a l -> f a = g a) -> for_each f l = for_each g l.
Proof.
  induction l as [|a l IH]; intros H; [reflexivity|].
  cbn [for_each]. rewrite (H a (or_introl eq_refl)).
  rewrite IH; [reflexivity|]. intros a' Ha'. apply H. right. exact Ha'.
Qed.

Lemma read_text_result (decode : bytes -> option text) (fs : filesystem) (p : path) :
  (exists t, reads_as decode fs p t /\
             read_text decode fs p = Ok (universal_newlines t)) \/
  ((forall t, ~ reads_as decode fs p t) /\
   (read_text decode fs p = Raise OSError \/
    read_text decode fs p = Raise UnicodeDecodeError)).
Proof.
  unfold read_text, reads_as.
  destruct (readable fs p) eqn:Hr;
    [|right; split; [intros t [H _]; discriminate|auto]].
  destruct (file_bytes fs p) as [b|] eqn:Hb;
    [|right; split; [intros t (_ & b & H & _); discriminate|auto]].
  destruct (decode b) as [t|] eqn:Hd.
  - left. exists t. eauto.
  - right. split; [|auto]. intros t (_ & b' & [= <-] & H). congruence.
Qed.

Lemma for_each_read (decode : bytes -> option text) (fs : filesystem) (dir : path)
    (l : list string) :
  ((exists hs, for_each (fun file => read_text decode fs (path_join dir file)) l = Ok hs) <->
     Forall (fun file => exists t, reads_as decode fs (path_join dir file) t) l) /\
  (forall e,
     for_each (fun file => read_text decode fs (path_join dir file)) l = Raise e ->
     e = OSError \/ e = UnicodeDecodeError).
Proof.
  induction l as [|file l [[IH1 IH2] IH3]].
  - split; [split|]; [constructor|exists []; reflexivity|discriminate].
  - cbn [for_each].
    destruct (read_text_result decode fs (path_join dir file))
      as [(t & Ht & ->)|[Hno [-> | ->]]]; cbn [bind].
    + destruct (for_each (fun file => read_text decode fs (path_join dir file)) l)
        as [hs|e'] eqn:Hl; cbn [bind].
      * split; [split|discriminate].
        -- intros _. constructor; [eauto|]. apply IH1. eexists; reflexivity.
        -- intros _. eexists; reflexivity.
      * split; [split|].
        -- intros [hs Hhs]. discriminate.
        -- intros H. apply Forall_cons in H as [_ H].
           apply IH2 in H as [hs Hhs]. discriminate.
        -- intros e [= <-]. apply IH3. reflexivity.
    + split; [split|].
      * intros [hs Hhs]. discriminate.
      * intros H. apply Forall_cons in H as [[t Ht] _]. destruct (Hno t Ht).
      * intros e [= <-]. auto.
    + split; [split|].
      * intros [hs Hhs]. discriminate.
      * intros H. apply Forall_cons in H as [[t Ht] _]. destruct (Hno t Ht).
      * intros e [= <-]. auto.
Qed.

Lemma generate_nanoarrow_c_agree (decode : bytes -> option text) (this_dir : path)
    (fs fs' : filesystem) :
  (forall file, In file files ->
     readable fs' (path_join (nanoarrow_dir this_dir) file) =
       readable fs (path_join (nanoarrow_dir this_dir) file) /\
     file_bytes fs' (path_join (nanoarrow_dir this_dir) file) =
       file_bytes fs (path_join (nanoarrow_dir this_dir) file)) ->
  generate_nanoarrow_c decode this_dir fs' = generate_nanoarrow_c decode this_dir fs.
Proof.
  intros Hagree. unfold generate_nanoarrow_c. f_equal. apply for_each_ext.
  intros file Hin. unfold read_text. destruct (Hagree file Hin) as [-> ->].
  reflexivity.
Qed.

(** X10. The aggregator returns a text exactly when each of the four
    headers can be opened and its bytes are text for the codec of the
    locale; the exceptions it raises are the one of a file that cannot be
    opened and the one of the decoder, and no other; and its result depends
    on those four files only: on two file systems that agree on them it
    gives the same result. *)
Theorem aggregator_reads_headers_only
    (decode : bytes -> option text) (this_dir : path) (fs : filesystem) :
  ((exists contents, generate_nanoarrow_c decode this_dir fs = Ok contents) <->
     Forall (fun file =>
               exists t, reads_as decode fs (path_join (nanoarrow_dir this_dir) file) t)
       files) /\
  (forall e, generate_nanoarrow_c decode this_dir fs = Raise e ->
             e = OSError \/ e = UnicodeDecodeError) /\
  (forall fs' : filesystem,
     (forall file, In file files ->
        readable fs' (path_join (nanoarrow_dir this_dir) file) =
          readable fs (path_join (nanoarrow_dir this_dir) file) /\
        file_bytes fs' (path_join (nanoarrow_dir this_dir) file) =
          file_bytes fs (path_join (nanoarrow_dir this_dir) file)) ->
     generate_nanoarrow_c decode this_dir fs' = generate_nanoarrow_c decode this_dir fs).
Proof.
  destruct (for_each_read decode fs (nanoarrow_dir this_dir) files) as [[H1 H2] H3].
  unfold generate_nanoarrow_c. split; [split|split].
  - intros [contents Hc]. apply H1.
    destruct (for_each _ files) as [hs|e]; [eexists; reflexivity|discriminate].
  - intros H. apply H2 in H as [hs ->]. eexists; reflexivity.
  - intros e He. apply H3.
    destruct (for_each _ files) as [hs|e']; [discriminate|].
    injection He as ->. reflexivity.
  - intros fs'. apply generate_nanoarrow_c_agree.
Qed.

Lemma main_other_files (decode : bytes -> option text) (this_dir build_dir : path)
    (fs : filesystem) :
  (forall p : path,
     target fs p <> target fs (path_join build_dir "nanoarrow_c.pxd") ->
     file_bytes (snd (main decode this_dir build_dir fs)) p = file_bytes fs p) /\
  target (snd (main decode this_dir build_dir fs)) = target fs /\
  readable (snd (main decode this_dir build_dir fs)) = readable fs /\
  writable (snd (main decode this_dir build_dir fs)) = writable fs.
Proof.
  unfold main.
  destruct (generate_nanoarrow_c decode this_dir fs) as [contents|e];
    [|repeat split; reflexivity].
  destruct (generate_nanoarrow_pxd_writes contents build_dir fs)
    as (tys & tds & fns & _ & ->).
  destruct (writable fs (path_join build_dir "nanoarrow_c.pxd"));
    [|repeat split; reflexivity].
  cbn [snd]. split; [|repeat split; reflexivity].
  intros p Hp. apply file_bytes_store_other, Hp.
Qed.

(** X11. The program changes one file at most, the one that
    [nanoarrow_c.pxd] of the build directory leads to, links followed:
    every path that leads to another file finds after the run the bytes it
    found before, and what can be read and written is as before, in a run
    that raises as in one that does not. *)
Theorem program_writes_one_file
    (decode : bytes -> option text) (this_dir build_dir : path) (fs : filesystem) :
  (forall p : path,
     target fs p <> target fs (path_join build_dir "nanoarrow_c.pxd") ->
     file_bytes (snd (main decode this_dir build_dir fs)) p = file_bytes fs p) /\
  target (snd (main decode this_dir build_dir fs)) = target fs /\
  readable (snd (main decode this_dir build_dir fs)) = readable fs /\
  writable (snd (main decode this_dir build_dir fs)) = writable fs.
Proof. apply main_other_files. Qed.

(** X12. When the output file is none of the four headers, under any
    name, a second run of the program on the files the first run left
    gives the result of the first and leaves the files as the first left
    them. *)
Theorem program_rerun
    (decode : bytes -> option text) (this_dir build_dir : path) (fs : filesystem) :
  (forall file, In file files ->
     target fs (path_join (nanoarrow_dir this_dir) file) <>
     target fs (path_join build_dir "nanoarrow_c.pxd")) ->
  main decode this_dir build_dir (snd (main decode this_dir build_dir fs)) =
    main decode this_dir build_dir fs.
Proof.
  intros Hout.
  destruct (main_other_files decode this_dir build_dir fs) as (Hb & Ht & Hr & Hw).
  assert (generate_nanoarrow_c decode this_dir (snd (main decode this_dir build_dir fs)) =
          generate_nanoarrow_c decode this_dir fs) as Hsame.
  { apply generate_nanoarrow_c_agree. intros file Hin.
    rewrite Hr. split; [reflexivity|]. apply Hb, Hout, Hin. }
  unfold main at 1. rewrite Hsame. unfold main.
  destruct (generate_nanoarrow_c decode this_dir fs) as [contents|e]; [|reflexivity].
  destruct (generate_nanoarrow_pxd_writes contents build_dir fs)
    as (tys & tds & fns & H & E).
  destruct (generate_nanoarrow_pxd_writes contents build_dir
              (snd (generate_nanoarrow_pxd contents build_dir fs)))
    as (tys2 & tds2 & fns2 & H2 & E2).
  rewrite H in H2. injection H2 as <- <- <-. rewrite E2, E.
  destruct (writable fs (path_join build_dir "nanoarrow_c.pxd")) eqn:Hwr;
    cbn [snd store writable]; rewrite Hwr; [|reflexivity].
  fold (store fs (path_join build_dir "nanoarrow_c.pxd") (written (pxd_output tys tds fns))).
  rewrite store_store. reflexivity.
Qed.

Lemma program_rerun_witness :
  main utf8_decode ["python"%string] ["build"%string]
    (snd (main utf8_decode ["python"%string] ["build"%string] headers_example)) =
  main utf8_decode ["python"%string] ["build"%string] headers_example.
Proof.
  apply (program_rerun utf8_decode ["python"%string] ["build"%string] headers_example).
  intros file Hin. unfold files in Hin.
  destruct Hin as [<-|[<-|[<-|[<-|[]]]]]; discriminate.
Defined.

(** With the output file linked to a header the first run overwrites that
    header, and the second run, which reads it, does not give the files
    the first gave. *)
Example linked_output_overwrites_header :
  file_bytes (snd (main utf8_decode ["python"%string] ["build"%string] headers_linked))
    (path_join (nanoarrow_dir ["python"%string]) "array_inline.h") <>
  file_bytes headers_linked
    (path_join (nanoarrow_dir ["python"%string]) "array_inline.h") /\
  main utf8_decode ["python"%string] ["build"%string]
    (snd (main utf8_decode ["python"%string] ["build"%string] headers_linked)) <>
  main utf8_decode ["python"%string] ["build"%string] headers_linked.
Proof.
  split.
  - vm_compute. discriminate.
  - intros H.
    apply (f_equal (fun r => option_map (@length N)
                               (file_bytes (snd r) ["build"; "nanoarrow_c.pxd"]%string)))
      in H.
    vm_compute in H. discriminate.
Qed.

(** ** References to tagged types *)

Lemma successes_Seq (r1 r2 : regex) (s : text) (g : gmap nat text) :
  successes (Seq r1 r2) s g =
  flat_map
    (fun a =>
       List.map (fun b => Success (matched a ++ matched b) (rest b) (caps b))
         (successes r2 (rest a) (caps a)))
    (successes r1 s g).
Proof. reflexivity. Qed.

Lemma successes_Grp (n : nat) (r : regex) (s : text) (g : gmap nat text) :
  successes (Grp n r) s g =
  List.map (fun a => Success (matched a) (rest a) (<[n := matched a]> (caps a)))
    (successes r s g).
Proof. reflexivity. Qed.

Lemma successes_tag_keyword (kw t : text) (g : gmap nat text) :
  In kw tag_keywords -> successes tag_keyword (kw ++ t) g = [Success kw t g].
Proof. unfold tag_keywords. intros [<-|[<-|[<-|[]]]]; reflexivity. Qed.

Lemma successes_Plus (p : N -> bool) (c : N) (s : text) (g : gmap nat text) :
  p c = true ->
  exists l,
    successes (Plus p) (c :: s) g =
    Success (c :: fst (span p s)) (snd (span p s)) g :: l.
Proof.
  intros Hc. unfold Plus. cbn [successes flat_map]. rewrite Hc.
  cbn [flat_map matched rest caps]. rewrite app_nil_r.
  destruct (star_splits_span p s) as [l ->]. eexists. reflexivity.
Qed.

(** The match of the pattern at a reference: the keyword, the space, and
    the name as far as its letters go. *)
Lemma rmatch_tag_reference (kw : text) (c : N) (t : text) :
  In kw tag_keywords -> is_alpha c = true ->
  rmatch re_tagged_type (kw ++ SP :: lit "Arrow" ++ c :: t) =
    Some (Success (kw ++ SP :: lit "Arrow" ++ c :: fst (span is_alpha t))
            (snd (span is_alpha t))
            (<[2%nat := lit "Arrow" ++ c :: fst (span is_alpha t)]> (<[1%nat := kw]> ∅))).
Proof.
  intros Hkw Hc. unfold rmatch, re_tagged_type.
  rewrite successes_Seq, successes_Grp, (successes_tag_keyword _ _ _ Hkw).
  cbn [List.map flat_map matched rest caps]. rewrite app_nil_r.
  rewrite successes_Seq_Lit. change (strip_prefix [SP] (SP :: ?x)) with (Some x).
  cbv beta iota. rewrite successes_Grp, successes_Seq_Lit, strip_prefix_app.
  destruct (successes_Plus is_alpha c t (<[1%nat := kw]> ∅) Hc) as [l ->].
  cbn [List.map head matched rest caps]. reflexivity.
Qed.

Lemma matches_tagged_inv (s : text) (g : gmap nat text) (a : success) :
  matches re_tagged_type s g a ->
  exists kw letters : text,
    In kw tag_keywords /\
    s = kw ++ [SP] ++ (lit "Arrow" ++ letters) ++ rest a /\
    matched a = kw ++ [SP] ++ (lit "Arrow" ++ letters) /\
    letters <> [] /\ forallb is_alpha letters = true /\
    caps a = <[2%nat := lit "Arrow" ++ letters]> (<[1%nat := kw]> g).
Proof.
  unfold re_tagged_type, tag_keyword. cbn [matches].
  intros (a1 & a2 & (a0 & Hkw & ->) & (b1 & b2 & (Hsp & Hspm & Hspg) &
            (a5 & (d1 & d2 & (Har & Harm & Harg) & H5 & ->) & ->) & ->) & ->).
  apply matches_Plus_inv in H5 as (H5s & H5ne & H5all & H5g).
  cbn [matched rest caps] in *.
  assert (In (matched a0) tag_keywords /\ s = matched a0 ++ rest a0 /\ caps a0 = g)
    as (Hin & Hs & Hg).
  { unfold tag_keywords.
    destruct Hkw as [(Hs & Hm & Hg)|[(Hs & Hm & Hg)|(Hs & Hm & Hg)]];
      rewrite Hm; simpl; auto. }
  exists (matched a0), (matched d2).
  rewrite H5g, Harg, Hspg, Hg, Harm, Hspm.
  split; [exact Hin|]. split.
  { rewrite Hs, Hsp, Har, H5s. rewrite <- !app_assoc. reflexivity. }
  split; [reflexivity|]. auto.
Qed.

Lemma strip_tags_skip (pre kw s : text) :
  (forall kw', In kw' tag_keywords -> ~ occurs kw' pre) ->
  In kw tag_keywords ->
  strip_tags (pre ++ kw ++ [SP] ++ s) = pre ++ strip_tags (kw ++ [SP] ++ s).
Proof.
  intros Hpre Hkw. induction pre as [|c pre IH]; [reflexivity|].
  rewrite <- (app_comm_cons pre). unfold strip_tags in *. rewrite sub_nomatch.
  - rewrite <- (app_comm_cons pre). f_equal. apply IH. intros kw' Hkw' Ho. apply (Hpre kw' Hkw'), occurs_cons, Ho.
  - apply rmatch_None. intros a Ha.
    apply matches_tagged_inv in Ha as (kw' & letters & Hkw' & Hs & _).
    rewrite app_comm_cons in Hs. rewrite (app_assoc kw [SP]) in Hs.
    apply straddle in Hs as [Hs|[u' Hs]];
      [discriminate| |apply tag_keywords_no_straddle; assumption].
    apply (Hpre kw' Hkw'). exists [], u'. exact Hs.
Qed.

(** X13. A reference to a tagged type, a tag keyword, a space and a name
    made of [Arrow] and letters that no letter follows, loses its keyword
    and its space and keeps its name, after any text in which no tag
    keyword occurs; that text stays as it is, and the substitution goes on
    after the name. *)
Theorem tag_reference_stripped (pre kw letters post : text) :
  (forall kw', In kw' tag_keywords -> ~ occurs kw' pre) ->
  In kw tag_keywords -> letters <> [] -> forallb is_alpha letters = true ->
  no_letter_ahead post = true ->
  strip_tags (pre ++ tag_reference kw (lit "Arrow" ++ letters) ++ post) =
  pre ++ (lit "Arrow" ++ letters) ++ strip_tags post.
Proof.
  intros Hpre Hkw Hne Hall Hpost. unfold tag_reference.
  rewrite <- !app_assoc. rewrite (strip_tags_skip pre kw _ Hpre Hkw). f_equal.
  destruct letters as [|c t]; [contradiction|].
  cbn [forallb] in Hall. apply andb_true_iff in Hall as [Hc Ht].
  assert (span is_alpha (t ++ post) = (t, post)) as Hspan.
  { apply span_all; [exact Ht|]. intros d s' ->. cbn [no_letter_ahead] in Hpost.
    apply negb_true_iff, Hpost. }
  unfold strip_tags. cbn [app].
  erewrite sub_match; [|apply (rmatch_tag_reference kw c (t ++ post) Hkw Hc)|].
  - cbn [rest mobj_of matched caps]. rewrite Hspan. cbn [fst snd].
    unfold backref, mobj_of. cbn [m_groups caps]. rewrite lookup_insert_eq.
    cbn [default from_option id]. rewrite <- app_assoc. reflexivity.
  - cbn [matched]. unfold tag_keywords in Hkw.
    destruct Hkw as [<-|[<-|[<-|[]]]]; discriminate.
Qed.

Lemma tag_reference_stripped_witness :
  strip_tags
    (lit "const " ++
     tag_reference (lit "struct") (lit "Arrow" ++ lit "Buffer") ++ lit "* buffer") =
  lit "const " ++ (lit "Arrow" ++ lit "Buffer") ++ strip_tags (lit "* buffer").
Proof.
  apply (tag_reference_stripped (lit "const ") (lit "struct") (lit "Buffer")
           (lit "* buffer")).
  - intros kw' Hkw' H. apply occursb_spec in H. unfold tag_keywords in Hkw'.
    destruct Hkw' as [<-|[<-|[<-|[]]]]; vm_compute in H; discriminate.
  - left. reflexivity.
  - discriminate.
  - vm_compute. reflexivity.
  - vm_compute. reflexivity.
Defined.

Lemma sub_no_match (r : regex) (repl : mobj -> text) (s : text) :
  (forall u w, s = u ++ w -> rmatch r w = None) -> sub r repl s = s.
Proof.
  induction s as [|c s IH]; intros H.
  - apply sub_nil, (H [] []). reflexivity.
  - rewrite sub_nomatch by (apply (H []); reflexivity).
    f_equal. apply IH. intros u w ->. apply (H (c :: u)). reflexivity.
Qed.

Lemma render_sublist (r : regex) (repl : mobj -> text) :
  (forall w a, rmatch r w = Some a -> sublist (repl (mobj_of a)) (matched a)) ->
  forall (s : text) (skip : nat),
    sublist (render repl (scan r s skip)) (drop skip s).
Proof.
  intros Hrepl s. induction s as [|c s IH]; intros skip.
  - destruct skip; simpl; [|constructor].
    destruct (rmatch r []) as [a|] eqn:E; unfold render; simpl; [|constructor].
    pose proof (Hrepl _ _ E) as Hsub. apply rmatch_sound in E.
    symmetry in E. apply app_eq_nil in E as [E _]. rewrite E in Hsub.
    apply sublist_nil_r in Hsub. rewrite Hsub. constructor.
  - destruct skip as [|k]; simpl; [|apply IH].
    destruct (rmatch r (c :: s)) as [a|] eqn:E.
    + pose proof (Hrepl _ _ E) as Hsub. apply rmatch_sound in E.
      destruct (matched a) as [|x m] eqn:Hm.
      * apply sublist_nil_r in Hsub.
        specialize (IH 0%nat). unfold render in *. simpl in *. rewrite Hsub.
        simpl. apply sublist_skip. exact IH.
      * specialize (IH (length m)). unfold render in *. simpl in *.
        injection E as <- ->. rewrite drop_app_length in IH.
        rewrite <- app_assoc. change (c :: m ++ rest a) with ((c :: m) ++ rest a).
        apply sublist_app; assumption.
    + specialize (IH 0%nat). unfold render in *. simpl in *.
      apply sublist_skip. exact IH.
Qed.

(** X14. Stripping the tag keywords only deletes: what it returns is what
    is left of the text when some of its characters are taken out, in the
    same order; and a text in which [Arrow] never follows a space is
    returned as it is. *)
Theorem strip_tags_only_deletes :
  (forall s : text, sublist (strip_tags s) s) /\
  (forall s : text, ~ occurs (lit " Arrow") s -> strip_tags s = s).
Proof.
  split.
  - intros s. apply (render_sublist re_tagged_type (backref 2)) with (skip := 0%nat).
    intros w a Ha.
    apply rmatch_matches, matches_tagged_inv in Ha
      as (kw & letters & _ & _ & Hm & _ & _ & Hcaps).
    unfold backref, mobj_of. cbn [m_groups]. rewrite Hcaps, lookup_insert_eq, Hm.
    cbn [default]. rewrite app_assoc. apply sublist_inserts_l. reflexivity.
  - intros s Hs. apply sub_no_match. intros u w ->.
    apply rmatch_None. intros a Ha.
    apply matches_tagged_inv in Ha as (kw & letters & _ & Hw & _).
    apply Hs, occurs_app_r. rewrite Hw.
    exists kw, (letters ++ rest a). rewrite <- !app_assoc. reflexivity.
Qed.

(** ** The layout of the arguments *)

Lemma words_layout (w1 args w2 : text) :
  forallb isspace w1 = true -> forallb isspace w2 = true ->
  words (w1 ++ args ++ w2) = words args.
Proof.
  intros H1 H2. induction w1 as [|c w1 IH].
  - apply (words_app_spaces args w2 H2).
  - cbn [forallb] in H1. apply andb_true_iff in H1 as [Hc H1].
    rewrite <- app_comm_cons. cbn [words]. rewrite Hc. apply IH, H1.
Qed.

(** X15. The line of a prototype depends on its argument list through the
    words of the list only: white space before the first word and after
    the last one is dropped, and two lists that differ in the white space
    between their words give the same line. *)
Theorem binding_line_ignores_layout
    (const : option text) (return_type name args args' w1 w2 indent : text) :
  words args = words args' ->
  forallb isspace w1 = true -> forallb isspace w2 = true ->
  _func_def_to_cython (func_record const return_type name (w1 ++ args ++ w2)) indent =
  _func_def_to_cython (func_record const return_type name args') indent.
Proof.
  intros Hwords H1 H2. rewrite !func_def_to_cython_record, !collapse_refines.
  unfold collapse_whitespace. rewrite (words_layout w1 args w2 H1 H2), Hwords.
  reflexivity.
Qed.

Lemma binding_line_ignores_layout_witness :
  _func_def_to_cython
    (func_record None (lit "int") (lit "ArrowNow")
       (lit " " ++ (lit "int64_t   n,  int* out") ++ [NL; SP])) (lit "    ") =
  _func_def_to_cython
    (func_record None (lit "int") (lit "ArrowNow")
       (lit "int64_t n," ++ [NL] ++ lit "    int* out")) (lit "    ").
Proof.
  apply (binding_line_ignores_layout None (lit "int") (lit "ArrowNow")
           (lit "int64_t   n,  int* out") (lit "int64_t n," ++ [NL] ++ lit "    int* out")
           (lit " ") [NL; SP] (lit "    "));
    vm_compute; reflexivity.
Defined.

(** ** A comment in the text *)

Lemma comment_none_before (r : text) (c : N) (t : text) :
  ~ In 47 (c :: r) -> ends_clean (c :: r) ->
  rmatch re_comment ((c :: r) ++ t) = None.
Proof.
  revert c. induction r as [|d r IH]; intros c Hno Hend; rewrite rmatch_comment.
  - unfold ends_clean in Hend. cbn [rev app] in Hend.
    cbn [app lstrip]. rewrite Hend.
    assert (strip_prefix SLASHES (c :: t) = None) as ->; [|reflexivity].
    apply strip_prefix_None. intros v Hv. injection Hv as -> _.
    apply Hno. left. reflexivity.
  - rewrite <- app_comm_cons. cbn [lstrip]. destruct (isspace c) eqn:Hc.
    + specialize (IH d). rewrite rmatch_comment in IH.
      destruct (strip_prefix SLASHES (lstrip ((d :: r) ++ t))); [|reflexivity].
      discriminate IH.
      * intros Hin. apply Hno. right. exact Hin.
      * apply ends_clean_cons in Hend. exact Hend.
    + assert (strip_prefix SLASHES (c :: (d :: r) ++ t) = None) as ->; [|reflexivity].
      apply strip_prefix_None. intros v Hv. injection Hv as -> _.
      apply Hno. left. reflexivity.
Qed.

Lemma strip_comments_before (r t : text) :
  ~ In 47 r -> ends_clean r -> _strip_comments (r ++ t) = r ++ _strip_comments t.
Proof.
  induction r as [|c r IH]; intros Hno Hend; [reflexivity|].
  unfold _strip_comments in *. rewrite <- !app_comm_cons.
  rewrite sub_nomatch by (apply (comment_none_before r c t); assumption).
  f_equal. apply IH.
  - intros Hin. apply Hno. right. exact Hin.
  - destruct r as [|d r]; [exact I|]. apply ends_clean_cons in Hend. exact Hend.
Qed.

Lemma lstrip_spaces (w s : text) :
  forallb isspace w = true -> lstrip (w ++ s) = lstrip s.
Proof.
  induction w as [|c w IH]; intros H; [reflexivity|].
  cbn [forallb] in H. apply andb_true_iff in H as [Hc H].
  rewrite <- app_comm_cons. cbn [lstrip]. rewrite Hc. apply IH, H.
Qed.

Lemma at_line_end_stops (v : text) (c : N) (v' : text) :
  at_line_end v = true -> v = c :: v' -> not_newline c = false.
Proof.
  intros H ->. cbn [at_line_end] in H. unfold not_newline, other_than.
  rewrite H. reflexivity.
Qed.

Lemma strip_comments_comment (w l v : text) :
  forallb isspace w = true -> ~ In NL l -> at_line_end v = true ->
  _strip_comments (w ++ SLASHES ++ l ++ v) = _strip_comments v.
Proof.
  intros Hw Hl Hv. unfold _strip_comments.
  assert (rmatch re_comment (w ++ SLASHES ++ l ++ v) =
          Some (Success (w ++ SLASHES ++ l) v ∅)) as Hm.
  { rewrite rmatch_comment, (lstrip_spaces w _ Hw).
    assert (lstrip (SLASHES ++ l ++ v) = SLASHES ++ l ++ v) as -> by reflexivity.
    rewrite strip_prefix_app.
    rewrite (span_all isspace w (SLASHES ++ l ++ v) Hw)
      by (intros c s' [= <- _]; reflexivity).
    rewrite (span_all not_newline l v)
      by (first [apply forallb_other_than; exact Hl | intros c s'; apply at_line_end_stops, Hv]).
    reflexivity. }
  rewrite (sub_match _ _ _ _ Hm); [reflexivity|].
  cbn [matched]. intros H. apply app_eq_nil in H as [_ H]. discriminate.
Qed.

(** X16. A line comment contributes nothing, whatever it holds: for a
    text without slash before the comment, and a comment that goes to the
    end of its line, the text without its comments is the text before the
    comment without the white space at its end, followed by what the rest
    gives; and the declarations are those of the text with the comment and
    the white space before it cut out. *)
Theorem comment_contributes_nothing (u l v : text) :
  ~ In 47 u -> ~ In NL l -> at_line_end v = true ->
  _strip_comments (u ++ SLASHES ++ l ++ v) = rstrip u ++ _strip_comments v /\
  declarations (u ++ SLASHES ++ l ++ v) = declarations (rstrip u ++ v).
Proof.
  intros Hu Hl Hv.
  destruct (rstrip_split u) as (w & Hsplit & Hw).
  assert (~ In 47 (rstrip u)) as Hr.
  { intros Hin. apply Hu. rewrite Hsplit. apply in_or_app. left. exact Hin. }
  assert (_strip_comments (u ++ SLASHES ++ l ++ v) = rstrip u ++ _strip_comments v) as H1.
  { rewrite Hsplit at 1. rewrite <- app_assoc.
    rewrite (strip_comments_before _ _ Hr (rstrip_ends_clean u)).
    rewrite (strip_comments_comment w l v Hw Hl Hv). reflexivity. }
  split; [exact H1|].
  pose proof (strip_comments_before _ v Hr (rstrip_ends_clean u)) as H2.
  unfold declarations. fold (_strip_comments (u ++ SLASHES ++ l ++ v)).
  fold (_strip_comments (rstrip u ++ v)). rewrite H1, H2. reflexivity.
Qed.

Lemma comment_contributes_nothing_witness :
  _strip_comments
    (lit "int64_t a;  " ++ SLASHES ++ lit " int ArrowInComment(void);" ++
     NL :: lit "int ArrowAfter(void);") =
    rstrip (lit "int64_t a;  ") ++ _strip_comments (NL :: lit "int ArrowAfter(void);") /\
  declarations
    (lit "int64_t a;  " ++ SLASHES ++ lit " int ArrowInComment(void);" ++
     NL :: lit "int ArrowAfter(void);") =
    declarations (rstrip (lit "int64_t a;  ") ++ NL :: lit "int ArrowAfter(void);").
Proof.
  apply (comment_contributes_nothing (lit "int64_t a;  ")
           (lit " int ArrowInComment(void);") (NL :: lit "int ArrowAfter(void);")).
  - apply not_in_by_forallb. vm_compute. reflexivity.
  - apply not_in_by_forallb. vm_compute. reflexivity.
  - reflexivity.
Defined.

(** ** The items of a tagged type *)

Lemma rmatch_delim (x : N) (s : text) :
  rmatch (Seq (Lit [x]) (Star isspace)) s =
    match s with
    | c :: s' =>
        if x =? c
        then Some (Success (x :: fst (span isspace s')) (snd (span isspace s')) ∅)
        else None
    | [] => None
    end.
Proof.
  unfold rmatch. rewrite successes_Seq_Lit.
  destruct s as [|c s']; cbn [strip_prefix]; [reflexivity|].
  destruct (x =? c); [|reflexivity].
  cbn [successes]. destruct (star_splits_span isspace s') as [l ->]. reflexivity.
Qed.

Lemma split_cons (r : regex) (s : text) :
  split r s = hd [] (split r s) :: tl (split r s).
Proof. reflexivity. Qed.

(** The pieces between the delimiters hold no delimiter character, and a
    piece after a delimiter does not begin with white space. *)
Lemma split_delim_pieces (x : N) (n : nat) (s : text) :
  (length s <= n)%nat ->
  Forall (fun item => ~ In x item) (split (Seq (Lit [x]) (Star isspace)) s) /\
  Forall (fun item => begins_blank item = false)
    (tl (split (Seq (Lit [x]) (Star isspace)) s)) /\
  (begins_blank s = false ->
   begins_blank (hd [] (split (Seq (Lit [x]) (Star isspace)) s)) = false).
Proof.
  revert s. induction n as [|n IH]; intros s Hn.
  - destruct s; [|simpl in Hn; lia].
    rewrite split_nil by (rewrite rmatch_delim; reflexivity).
    split; [|split]; [|constructor|reflexivity].
    constructor; [|constructor]. intros [].
  - destruct s as [|c s'].
    { rewrite split_nil by (rewrite rmatch_delim; reflexivity).
      split; [|split]; [|constructor|reflexivity].
      constructor; [|constructor]. intros []. }
    simpl in Hn. pose proof (rmatch_delim x (c :: s')) as Hm. cbv beta iota in Hm.
    destruct (N.eqb_spec x c) as [<-|Hx].
    + rewrite (split_match _ _ _ Hm) by discriminate. cbn [rest hd tl].
      destruct (span_sound isspace s') as [Hs' _].
      destruct (IH (snd (span isspace s'))) as (A & B & C).
      { rewrite Hs', length_app in Hn. lia. }
      split; [|split]; [|rewrite split_cons; constructor; [apply C|exact B]|reflexivity].
      * constructor; [intros []|exact A].
      * destruct (span_rest isspace s') as [->|(d & t & -> & Hd)]; [reflexivity|exact Hd].
    + rewrite (split_nomatch _ _ _ Hm).
      destruct (IH s') as (A & B & C); [lia|].
      rewrite split_cons in A. apply Forall_cons in A as [A1 A2].
      split; [|split]; [|exact B|intros Hc; exact Hc].
      constructor; [|exact A2]. intros [Hin|Hin]; [congruence|contradiction].
Qed.

Lemma strip_tags_head (t : text) :
  begins_blank t = false -> begins_blank (strip_tags t) = false.
Proof.
  destruct t as [|c t]; intros Hc; [reflexivity|]. unfold strip_tags.
  destruct (rmatch re_tagged_type (c :: t)) as [a|] eqn:E.
  - pose proof E as E'.
    apply rmatch_matches, matches_tagged_inv in E'
      as (kw & letters & Hkw & _ & Hm & _ & _ & Hcaps).
    rewrite (sub_match _ _ _ _ E).
    + unfold backref, mobj_of. cbn [m_groups]. rewrite Hcaps, lookup_insert_eq.
      reflexivity.
    + rewrite Hm. unfold tag_keywords in Hkw.
      destruct Hkw as [<-|[<-|[<-|[]]]]; discriminate.
  - rewrite (sub_nomatch _ _ _ _ E). exact Hc.
Qed.

Lemma strip_head (s : text) : begins_blank (strip s) = false.
Proof.
  pose proof (lead_strip s) as H. destruct (strip s) as [|c t]; [reflexivity|].
  cbn [lead begins_blank] in *. destruct (isspace c); [discriminate|reflexivity].
Qed.

Lemma strip_blank (w : text) : forallb isspace w = true -> strip w = [].
Proof.
  intros H. unfold strip. rewrite <- (app_nil_r w), (lstrip_spaces w [] H). reflexivity.
Qed.

Lemma delimiter_form (type : text) :
  delimiter type = Seq (Lit [delimiter_char type]) (Star isspace).
Proof. unfold delimiter, delimiter_char. destruct (text_eqb type (lit "enum")); reflexivity. Qed.

(** X17. The entries of a block are clean: whatever the record, each
    entry emitted after the header line and the indentation is a text that
    is not empty, does not begin with white space, and holds no delimiter
    of its kind (no comma in an [enum], no semicolon in a [struct] or a
    [union]); and for a body of white space alone the block is its header
    line and nothing more. *)
Theorem block_entries_clean :
  (forall type name body indent : text,
      exists items : list text,
        _type_to_cython (type_record type name body) indent =
          Ok (indent ++ type ++ lit " " ++ name ++ lit ":" ++
              List.concat
                (List.map (fun item => ([NL] ++ indent ++ lit "    ") ++ item) items)) /\
        Forall
          (fun item =>
             item <> [] /\ begins_blank item = false /\ ~ In (delimiter_char type) item)
          items) /\
  (forall type name body indent : text,
      forallb isspace body = true ->
      _type_to_cython (type_record type name body) indent =
        Ok (indent ++ type ++ lit " " ++ name ++ lit ":")).
Proof.
  split.
  - intros type name body indent.
    exists (segments (delimiter type) (strip_tags (strip body))).
    split; [apply type_to_cython_record|].
    rewrite delimiter_form. unfold segments.
    destruct (split_delim_pieces (delimiter_char type)
                (length (strip_tags (strip body))) (strip_tags (strip body)))
      as (A & B & C); [lia|].
    specialize (C (strip_tags_head _ (strip_head body))).
    rewrite split_cons in A |- *.
    assert (Forall (fun item => begins_blank item = false)
              (hd [] (split (Seq (Lit [delimiter_char type]) (Star isspace))
                        (strip_tags (strip body))) ::
               tl (split (Seq (Lit [delimiter_char type]) (Star isspace))
                     (strip_tags (strip body))))) as D
      by (constructor; assumption).
    rewrite List.Forall_forall in A, D. apply List.Forall_forall.
    intros item Hitem. apply filter_In in Hitem as [Hin Hne].
    split; [|split; [apply D, Hin|apply A, Hin]].
    apply negb_true_iff, text_eqb_false in Hne. exact Hne.
  - intros type name body indent Hbody.
    rewrite type_to_cython_record, (strip_blank body Hbody).
    assert (segments (delimiter type) (strip_tags []) = []) as ->
      by (rewrite delimiter_form; reflexivity).
    cbn [List.map List.concat]. reflexivity.
Qed.

(** * The code against the words of the specification *)

(** ** Tag keywords *)

(** What the substitution of the pattern of references gives is the text
    with its references replaced by their names. *)
Lemma strip_tags_spec (s : text) : tags_stripped s (strip_tags s).
Proof.
  remember (length s) as n eqn:Hn. revert s Hn.
  induction n as [n IH] using lt_wf_ind. intros s Hn.
  destruct s as [|c s'].
  - assert (strip_tags [] = []) as -> by reflexivity. constructor.
  - unfold strip_tags.
    destruct (rmatch re_tagged_type (c :: s')) as [a|] eqn:E.
    + pose proof E as E'.
      apply rmatch_matches, matches_tagged_inv in E'
        as (kw & letters & Hkw & Hs & _ & Hne & Hall & _).
      destruct letters as [|l0 lt]; [contradiction|].
      cbn [forallb] in Hall. apply andb_true_iff in Hall as [Hl0 Hlt].
      assert (c :: s' = kw ++ SP :: lit "Arrow" ++ l0 :: lt ++ rest a) as Hs'
        by (rewrite Hs, <- !app_assoc; reflexivity).
      rewrite Hs' in E |- *. clear Hs.
      rewrite (rmatch_tag_reference kw l0 (lt ++ rest a) Hkw Hl0) in E.
      rewrite (sub_match _ _ _ _ (rmatch_tag_reference kw l0 (lt ++ rest a) Hkw Hl0)).
      2:{ cbn [matched]. unfold tag_keywords in Hkw.
          destruct Hkw as [<-|[<-|[<-|[]]]]; discriminate. }
      unfold backref, mobj_of. cbn [m_groups caps rest].
      rewrite lookup_insert_eq. cbn [default from_option id].
      destruct (span_sound is_alpha (lt ++ rest a)) as [Hsplit Hspan].
      fold (strip_tags (snd (span is_alpha (lt ++ rest a)))).
      replace (kw ++ SP :: lit "Arrow" ++ l0 :: lt ++ rest a)
        with (tag_reference kw (lit "Arrow" ++ l0 :: fst (span is_alpha (lt ++ rest a))) ++
              snd (span is_alpha (lt ++ rest a))).
      2:{ unfold tag_reference. rewrite Hsplit at 3. rewrite <- !app_assoc. reflexivity. }
      apply tags_stripped_ref.
      * exact Hkw.
      * discriminate.
      * cbn [forallb]. rewrite Hl0, Hspan. reflexivity.
      * destruct (span_rest is_alpha (lt ++ rest a)) as [->|(d & t & -> & Hd)];
          [reflexivity|]. cbn [no_letter_ahead]. rewrite Hd. reflexivity.
      * apply (IH (length (snd (span is_alpha (lt ++ rest a))))); [|reflexivity].
        subst n. rewrite Hs'. rewrite length_app. cbn [length].
        rewrite length_app. cbn [length]. rewrite Hsplit at 2. rewrite length_app. lia.
    + rewrite (sub_nomatch _ _ _ _ E). apply tags_stripped_keep.
      * intros (kw & letters & rest & Hkw & Hne & Hall & Hs).
        destruct letters as [|l0 lt]; [contradiction|].
        cbn [forallb] in Hall. apply andb_true_iff in Hall as [Hl0 _].
        rewrite Hs in E. unfold tag_reference in E. rewrite <- !app_assoc in E.
        cbn [app] in E.
        rewrite (rmatch_tag_reference kw l0 (lt ++ rest) Hkw Hl0) in E. discriminate.
      * apply (IH (length s')); [subst n; simpl; lia|reflexivity].
Qed.

(** The words leave one result only. *)
Lemma tags_stripped_unique (s out out' : text) :
  tags_stripped s out -> tags_stripped s out' -> out = out'.
Proof.
  intros H. revert out'.
  induction H as [|kw letters rest out Hkw Hne Hall Hrest H IH|c s out Hno H IH];
    intros out' H'.
  - remember [] as s0 eqn:Hs.
    destruct H' as [|kw' letters' rest' out' Hkw' Hne' Hall' Hrest' H'|c' s' out' Hno' H'];
      [reflexivity| |discriminate].
    exfalso. unfold tag_reference in Hs. unfold tag_keywords in Hkw'.
    destruct Hkw' as [<-|[<-|[<-|[]]]]; discriminate.
  - remember (tag_reference kw (lit "Arrow" ++ letters) ++ rest) as s eqn:Hs.
    destruct H' as [|kw' letters' rest' out' Hkw' Hne' Hall' Hrest' H'|c s out' Hno H'].
    + exfalso. unfold tag_reference in Hs. unfold tag_keywords in Hkw.
      destruct Hkw as [<-|[<-|[<-|[]]]]; discriminate.
    + unfold tag_reference in Hs. rewrite <- !app_assoc in Hs. cbn [app] in Hs.
      apply (split_first (other_than SP) SP) in Hs as [<- Hs];
        [|(apply tag_keywords_no_space; assumption) ..|reflexivity].
      apply app_inv_head in Hs.
      assert (span is_alpha (letters' ++ rest') = (letters', rest')) as S1.
      { apply span_all; [exact Hall'|]. intros d t ->. cbn [no_letter_ahead] in Hrest'.
        apply negb_true_iff, Hrest'. }
      assert (span is_alpha (letters ++ rest) = (letters, rest)) as S2.
      { apply span_all; [exact Hall|]. intros d t ->. cbn [no_letter_ahead] in Hrest.
        apply negb_true_iff, Hrest. }
      rewrite Hs in S1. rewrite S1 in S2. injection S2 as <- <-.
      rewrite (IH _ H'). reflexivity.
    + exfalso. apply Hno. rewrite Hs. exists kw, letters, rest. auto.
  - remember (c :: s) as s0 eqn:Hs.
    destruct H' as [|kw' letters' rest' out' Hkw' Hne' Hall' Hrest' H'|c' s' out' Hno' H'].
    + discriminate.
    + exfalso. apply Hno. exists kw', letters', rest'. auto.
    + injection Hs as <- <-. rewrite (IH _ H'). reflexivity.
Qed.

(** ** Trimming and splitting *)

Lemma strip_trimmed (s : text) : trimmed s (strip s).
Proof.
  destruct (lstrip_split s) as (w1 & H1 & Hw1).
  destruct (rstrip_split (lstrip s)) as (w2 & H2 & Hw2).
  exists w1, w2. unfold strip. split; [rewrite <- H2; exact H1|].
  split; [exact Hw1|]. split; [exact Hw2|].
  split; [apply strip_head|apply rstrip_ends_clean].
Qed.

Lemma split_spec (x : N) (n : nat) (s : text) :
  (length s <= n)%nat ->
  split_at x s (split (Seq (Lit [x]) (Star isspace)) s).
Proof.
  revert s. induction n as [|n IH]; intros s Hn.
  - destruct s; [|simpl in Hn; lia].
    rewrite split_nil by (rewrite rmatch_delim; reflexivity).
    constructor. intros [].
  - destruct s as [|c s'].
    { rewrite split_nil by (rewrite rmatch_delim; reflexivity).
      constructor. intros []. }
    simpl in Hn. pose proof (rmatch_delim x (c :: s')) as Hm. cbv beta iota in Hm.
    destruct (N.eqb_spec x c) as [<-|Hx].
    + rewrite (split_match _ _ _ Hm) by discriminate. cbn [rest].
      destruct (span_sound isspace s') as [Hs' Hw].
      rewrite Hs' at 1.
      apply (split_at_more x [] (fst (span isspace s')) (snd (span isspace s'))).
      * intros [].
      * exact Hw.
      * destruct (span_rest isspace s') as [->|(d & t & -> & Hd)]; [reflexivity|exact Hd].
      * apply IH. rewrite Hs', length_app in Hn. lia.
    + rewrite (split_nomatch _ _ _ Hm).
      pose proof (IH s' ltac:(lia)) as H. rewrite split_cons in H.
      remember (hd [] (split (Seq (Lit [x]) (Star isspace)) s')) as h eqn:Hh.
      remember (tl (split (Seq (Lit [x]) (Star isspace)) s')) as tl eqn:Htl.
      clear Hh Htl Hm IH Hn.
      inversion H as [item Hitem E1 E2|item w rest pieces Hitem Hw Hrest Hp E1 E2]; subst.
      * constructor. intros [Hin|Hin]; [congruence|contradiction].
      * rewrite app_comm_cons. constructor; auto.
        intros [Hin|Hin]; [congruence|contradiction].
Qed.

(** ** The lines of the records *)

(** The line of the record of a prototype. *)
Lemma func_def_line (const : bool) (return_type name args indent : text) :
  forallb return_type_char return_type = true ->
  exists args' : text,
    binding_arguments args args' /\
    _func_def_to_cython (func_record (const_group const) return_type name args) indent =
      Ok (indent ++ (if const then lit "const " else []) ++ return_type ++ lit " " ++
          name ++ lit "(" ++ args' ++ lit ")").
Proof.
  intros Hrt.
  exists (if text_eqb (strip_tags (collapse_whitespace args)) (lit "void")
          then [] else strip_tags (collapse_whitespace args)).
  split.
  - exists (strip_tags (collapse_whitespace args)). split; [apply strip_tags_spec|reflexivity].
  - rewrite func_def_to_cython_record, (strip_return_type _ Hrt), collapse_refines.
    destruct const; reflexivity.
Qed.

(** X1. Whatever the text, every record of a function prototype has a
    return type of letters, digits, underscores and asterisks, a name that
    is [Arrow] followed by letters or digits, arguments without a closing
    parenthesis, and for [const] either nothing or the word with its space;
    and its binding line is the indentation, [const] if present, the return
    type, the name and, in parentheses, the arguments with their white
    space collapsed to single spaces and their references to tagged types
    replaced by the names, or nothing when that leaves [void]. *)
Theorem func_records_wellformed (content : text) :
  Forall
    (fun d =>
       exists (const : bool) (return_type nm args : text),
         d = func_record (const_group const) return_type (lit "Arrow" ++ nm) args /\
         return_type <> [] /\ forallb return_type_char return_type = true /\
         nm <> [] /\ forallb is_alnum nm = true /\
         ~ In 41 args /\
         forall indent : text,
           exists args' : text,
             binding_arguments args args' /\
             _func_def_to_cython d indent =
             Ok (indent ++ (if const then lit "const " else []) ++ return_type ++
                 lit " " ++ (lit "Arrow" ++ nm) ++ lit "(" ++ args' ++ lit ")"))
    (_find_func_defs content).
Proof.
  apply List.Forall_forall. intros d Hd. unfold _find_func_defs in Hd.
  apply in_map_iff in Hd as [m [<- Hm]].
  apply finditer_In in Hm as (s' & a & Ha & ->).
  apply rmatch_matches, matches_func_def_inv in Ha
    as (si & c & t & rt & nm & args & _ & _ & Hrt & Hrtc & Hnm & Hnmc & Hargs &
        H2 & H4 & H5 & H6).
  exists c, rt, nm, args.
  assert (groupdict re_func_def_names (mobj_of a) =
            func_record (const_group c) rt (lit "Arrow" ++ nm) args) as ->.
  { unfold groupdict, func_record, mobj_of. simpl. rewrite H2, H4, H5, H6. reflexivity. }
  split; [reflexivity|]. repeat (split; [assumption|]).
  split; [apply forallb_other_than, Hargs|].
  intros indent. apply func_def_line, Hrtc.
Qed.

(** X3. Whatever the text, every record of a typedef has a body that is
    not empty and has no semicolon, and its line is the indentation,
    [ctypedef], a space, and the body with its references to tagged types
    replaced by the names. *)
Theorem typedef_records_wellformed (content : text) :
  Forall
    (fun t =>
       exists body : text,
         t = typedef_record body /\ body <> [] /\ ~ In 59 body /\
         forall indent : text,
           exists body' : text,
             tags_stripped body body' /\
             _typdef_to_cython t indent = Ok (indent ++ lit "ctypedef " ++ body'))
    (_find_typedefs content).
Proof.
  apply List.Forall_forall. intros t Ht. unfold _find_typedefs in Ht.
  apply in_map_iff in Ht as [m [<- Hm]].
  apply finditer_In in Hm as (s' & a & Ha & ->).
  rewrite rmatch_typedef in Ha.
  destruct (strip_prefix TYPEDEF s') as [[|c s'']|]; try discriminate.
  destruct (other_than 59 c) eqn:Hc; [|discriminate].
  injection Ha as <-. unfold mobj_of. cbn [matched caps].
  rewrite groupdict_typedef.
  exists (c :: fst (span (other_than 59) s'')).
  split; [reflexivity|]. split; [discriminate|]. split.
  - apply forallb_other_than. simpl. rewrite Hc.
    apply (span_sound (other_than 59) s'').
  - intros indent. exists (strip_tags (c :: fst (span (other_than 59) s''))).
    split; [apply strip_tags_spec|apply typdef_to_cython_record].
Qed.

(** ** The block of a tagged type *)

(** C4, as amended. Every record of a tagged type has a kind, a name and a
    body. The body is trimmed of the white space at its two ends, the
    references to tagged types in it are replaced by their names, and what
    that leaves is cut at the delimiters of the kind, the semicolon for a
    struct or a union and the comma for an enum, each delimiter taken with
    the white space after it; the empty pieces are dropped. The block is
    the header line followed by one entry for each piece that is left,
    each entry after a line break and the indentation; when no such piece
    and not the indentation has a line break inside, the number of lines
    after the header line is the number of these pieces. *)
Theorem type_block_entries :
  (forall (content : text) (t : gmap string (option text)),
      In t (_find_types content) ->
      exists type name body, t = type_record type name body) /\
  (forall type name body indent : text,
      exists (t t' : text) (pieces : list text) (entries : text),
        trimmed body t /\
        tags_stripped t t' /\
        split_at (delimiter_char type) t' pieces /\
        entries =
          List.concat
            (List.map (fun item => ([NL] ++ indent ++ lit "    ") ++ item)
               (nonempty_pieces pieces)) /\
        _type_to_cython (type_record type name body) indent =
          Ok ((indent ++ type ++ lit " " ++ name ++ lit ":") ++ entries) /\
        (~ In NL indent ->
         Forall (fun item => ~ In NL item) (nonempty_pieces pieces) ->
         count_nl entries = length (nonempty_pieces pieces))).
Proof.
  split; [exact find_types_records|].
  intros type name body indent.
  exists (strip body), (strip_tags (strip body)),
    (split (Seq (Lit [delimiter_char type]) (Star isspace)) (strip_tags (strip body))).
  eexists. split; [apply strip_trimmed|]. split; [apply strip_tags_spec|].
  split; [apply (split_spec _ (length (strip_tags (strip body)))); lia|].
  split; [reflexivity|]. split.
  - rewrite type_to_cython_record. unfold segments. rewrite delimiter_form.
    unfold nonempty_pieces. rewrite <- !app_assoc. reflexivity.
  - intros Hi Hitems. apply count_nl_entries; [|exact Hitems].
    rewrite !count_nl_app, (count_nl_none indent Hi).
    rewrite (count_nl_none (lit "    ")) by (apply not_in_by_forallb; reflexivity).
    reflexivity.
Qed.

(** ** Prototypes in a text *)

Lemma parens_closed_app_r (u v : text) :
  parens_closed (u ++ v) = true -> parens_closed v = true.
Proof.
  induction u as [|c u IH]; [auto|]. cbn [app parens_closed].
  intros H. apply andb_true_iff in H as [_ H]. apply IH, H.
Qed.

Lemma parens_closed_open (u v : text) :
  parens_closed (u ++ 40 :: v) = true -> In 41 v.
Proof.
  induction u as [|c u IH]; cbn [app parens_closed]; intros H;
    apply andb_true_iff in H as [H1 H2]; [|apply IH, H2].
  cbn in H1. apply existsb_exists in H1 as (x & Hx & E).
  apply N.eqb_eq in E as <-. exact Hx.
Qed.

Lemma head_char_not_newline (l : text) : forallb head_char l = true -> ~ In NL l.
Proof.
  rewrite forallb_forall. intros H Hin. specialize (H _ Hin). discriminate.
Qed.

(** A match that begins in a text whose parentheses are closed, before a
    line break, ends in that text. *)
Lemma func_def_match_inside (w X : text) (a : success) :
  parens_closed w = true -> w <> [] ->
  rmatch re_func_def (w ++ NL :: X) = Some a ->
  exists (si c : bool) (t : tag_prefix) (rt nm args m : text),
    rt <> [] /\ forallb return_type_char rt = true /\
    nm <> [] /\ forallb is_alnum nm = true /\ ~ In 41 args /\
    w = prototype si c t rt (lit "Arrow" ++ nm) args ++ m.
Proof.
  intros Hpc Hne E. destruct w as [|c0 w']; [contradiction|].
  apply rmatch_matches, matches_func_def_inv in E
    as (si & c & t & rt & nm & args & Hs & _ & Hrt & Hrtc & Hnm & Hnmc & Hargs & _).
  exists si, c, t, rt, nm, args.
  pose proof (head_of_prototype si c t rt nm Hrtc Hnmc) as HH.
  apply head_char_not_newline in HH.
  apply forallb_other_than in Hargs.
  rewrite prototype_shape in Hs.
  change ((c0 :: w') ++ NL :: X) with (c0 :: (w' ++ NL :: X)) in Hs.
  assert (c0 = NL) as -> by (apply (f_equal (hd 0)) in Hs; exact Hs).
  apply (f_equal (@tl N)) in Hs. cbn [tl] in Hs.
  apply app_eq_app in Hs as [l [[Hw Hr]|[Hh Hx]]].
  - destruct l as [|d l]; [discriminate Hr|]. injection Hr as <- Hr.
    assert (In 41 l) as Hin.
    { apply (parens_closed_open (NL :: prefix_text si c t ++ rt ++ [SP] ++ lit "Arrow" ++ nm)).
      replace ((NL :: prefix_text si c t ++ rt ++ [SP] ++ lit "Arrow" ++ nm) ++ 40 :: l)
        with (NL :: w'); [exact Hpc|]. rewrite Hw. reflexivity. }
    apply app_eq_app in Hr as [m [[Ha Hb]|[Hl Hb]]].
    + exfalso. apply Hargs. rewrite Ha. apply in_or_app. left. exact Hin.
    + destruct m as [|d m]; [discriminate Hb|]. injection Hb as <- Hb.
      destruct m as [|d m]; [discriminate Hb|]. injection Hb as <- Hb.
      exists m. repeat (split; [assumption|]).
      rewrite prototype_shape, Hw, Hl. reflexivity.
  - exfalso. destruct l as [|d l]; [discriminate Hx|]. injection Hx as <- Hx.
    apply HH. rewrite Hh. apply in_or_app. right. left. reflexivity.
Qed.

Lemma find_func_defs_match (s : text) (si c : bool) (t : tag_prefix)
    (rt nm args post : text) :
  rt <> [] -> forallb return_type_char rt = true ->
  nm <> [] -> forallb is_alnum nm = true -> ~ In 41 args ->
  _find_func_defs (prototype si c t rt (lit "Arrow" ++ nm) args ++ post) =
  func_record (const_group c) rt (lit "Arrow" ++ nm) args :: _find_func_defs post.
Proof.
  intros Hrt Hrtc Hnm Hnmc Hargs.
  apply (find_func_defs_prototype [] post si c t rt nm args); auto.
Qed.

(** The prototypes found in a text whose parentheses are closed are found
    whatever follows the text on the next lines. *)
Lemma find_func_defs_app (pre X : text) :
  parens_closed pre = true ->
  _find_func_defs (pre ++ NL :: X) = _find_func_defs pre ++ _find_func_defs (NL :: X).
Proof.
  remember (length pre) as n eqn:Hn. revert pre Hn.
  induction n as [n IH] using lt_wf_ind. intros pre Hn Hpc.
  destruct pre as [|c0 w'].
  - cbn [app]. unfold _find_func_defs at 2.
    rewrite finditer_nil; [reflexivity|].
    apply rmatch_None. intros a Ha. rewrite re_func_def_unfold in Ha.
    apply matches_Seq_Lit_inv in Ha as (s' & a' & Hs' & _). discriminate.
  - destruct (rmatch re_func_def ((c0 :: w') ++ NL :: X)) as [a|] eqn:E.
    + destruct (func_def_match_inside _ _ _ Hpc ltac:(discriminate) E)
        as (si & c & t & rt & nm & args & m & Hrt & Hrtc & Hnm & Hnmc & Hargs & Hw).
      rewrite Hw, <- app_assoc.
      rewrite !(find_func_defs_match [] si c t rt nm args) by assumption.
      cbn [app]. f_equal. apply (IH (length m)); [|reflexivity|].
      * subst n. rewrite Hw, length_app. unfold prototype.
        rewrite length_app. simpl. lia.
      * rewrite Hw in Hpc. apply parens_closed_app_r in Hpc. exact Hpc.
    + assert (rmatch re_func_def (c0 :: w') = None) as E'.
      { destruct (rmatch re_func_def (c0 :: w')) as [a|] eqn:E'; [|reflexivity].
        exfalso.
        apply rmatch_matches, matches_func_def_inv in E'
          as (si & c & t & rt & nm & args & Hs & _ & Hrt & Hrtc & Hnm & Hnmc & Hargs & _).
        apply forallb_other_than in Hargs.
        destruct (rmatch_prototype si c t rt nm args (rest a ++ NL :: X)
                    Hrt Hrtc Hnm Hnmc Hargs) as (a' & Ha' & _).
        rewrite app_assoc, <- Hs in Ha'. congruence. }
      unfold _find_func_defs in *. cbn [app] in *.
      rewrite (finditer_nomatch _ _ _ E), (finditer_nomatch _ _ _ E').
      apply (IH (length w')); [subst n; simpl; lia|reflexivity|].
      cbn [parens_closed] in Hpc. apply andb_true_iff in Hpc as [_ Hpc]. exact Hpc.
Qed.

(** ** A prototype in the text given to the translator *)

(** A substitution works on a text and on what follows it apart, when what
    follows changes no match that begins in the text. *)
Lemma sub_extends (r : regex) (repl : mobj -> text) (X : text) (n : nat) (pre : text) :
  (forall s a, rmatch r s = Some a -> matched a <> []) ->
  (length pre <= n)%nat ->
  (forall u w, pre = u ++ w -> w <> [] ->
     rmatch r (w ++ X) = option_map (extend X) (rmatch r w)) ->
  sub r repl (pre ++ X) = sub r repl pre ++ sub r repl X.
Proof.
  intros Hne.
  assert (rmatch r [] = None) as Hnil.
  { destruct (rmatch r []) as [a|] eqn:E; [|reflexivity].
    pose proof (Hne _ _ E) as Hm. apply rmatch_sound in E.
    symmetry in E. apply app_eq_nil in E as [E _]. contradiction. }
  revert pre. induction n as [|n IH]; intros pre Hn Hext.
  - destruct pre; [|simpl in Hn; lia]. cbn [app]. rewrite sub_nil by exact Hnil.
    reflexivity.
  - destruct pre as [|c pre].
    { cbn [app]. rewrite sub_nil by exact Hnil. reflexivity. }
    pose proof (Hext [] (c :: pre) eq_refl ltac:(discriminate)) as Hs.
    destruct (rmatch r (c :: pre)) as [a|] eqn:E; cbn [option_map] in Hs.
    + pose proof (Hne _ _ E) as Hm. pose proof (rmatch_sound _ _ _ E) as Hu.
      rewrite (sub_match _ _ _ _ Hs) by exact Hm. rewrite (sub_match _ _ _ _ E Hm).
      unfold extend at 2. cbn [rest].
      change (mobj_of (extend X a)) with (mobj_of a).
      rewrite (IH (rest a)); [rewrite app_assoc; reflexivity| |].
      * rewrite Hu, length_app in Hn. destruct (matched a); [contradiction|].
        simpl in Hn. lia.
      * intros u w Hw Hwne. apply (Hext (matched a ++ u) w); [|exact Hwne].
        rewrite Hu, Hw, app_assoc. reflexivity.
    + rewrite <- app_comm_cons in Hs |- *.
      rewrite (sub_nomatch _ _ _ _ Hs), (sub_nomatch _ _ _ _ E).
      rewrite <- app_comm_cons. f_equal. apply IH; [simpl in Hn; lia|].
      intros u w Hw Hwne. apply (Hext (c :: u) w); [|exact Hwne].
      rewrite Hw. reflexivity.
Qed.

Lemma lstrip_app (w X : text) :
  lstrip w <> [] ->
  lstrip (w ++ X) = lstrip w ++ X /\
  fst (span isspace (w ++ X)) = fst (span isspace w).
Proof.
  induction w as [|c w IH]; [contradiction|]. cbn [app lstrip span].
  destruct (isspace c); [|auto]. intros H. destruct (IH H) as [-> ->]. auto.
Qed.

(** A comment does not reach over a line break that a character other than
    white space and slash follows. *)
Lemma comment_stopped (w Y : text) (h : N) :
  isspace h = false -> h <> 47 ->
  rmatch re_comment (w ++ NL :: h :: Y) =
  option_map (extend (NL :: h :: Y)) (rmatch re_comment w).
Proof.
  intros Hh Hh'. rewrite !rmatch_comment.
  destruct (lstrip w) as [|d r] eqn:El.
  - destruct (lstrip_split w) as (ws & Hw & Hws). rewrite El, app_nil_r in Hw.
    subst ws. rewrite (lstrip_spaces w _ Hws).
    change (lstrip (NL :: h :: Y)) with (lstrip (h :: Y)). cbn [lstrip]. rewrite Hh.
    assert (strip_prefix SLASHES (h :: Y) = None) as ->; [|reflexivity].
    apply strip_prefix_None. intros v Hv. injection Hv as -> _. contradiction.
  - destruct (lstrip_app w (NL :: h :: Y)) as [-> ->]; [rewrite El; discriminate|].
    rewrite El. rewrite strip_prefix_stop
      by (apply not_in_by_forallb; vm_compute; reflexivity).
    destruct (strip_prefix SLASHES (d :: r)) as [r0|]; [|reflexivity].
    cbn [option_map]. rewrite span_stop by reflexivity. reflexivity.
Qed.

Lemma comment_nonempty (s : text) (a : success) :
  rmatch re_comment s = Some a -> matched a <> [].
Proof. intros H. apply comment_match_inv in H as (_ & H & _). exact H. Qed.

Lemma max_buffers_nonempty (s : text) (a : success) :
  rmatch re_max_buffers s = Some a -> matched a <> [].
Proof.
  unfold re_max_buffers. rewrite rmatch_Lit.
  destruct (strip_prefix MAX_FIXED_BUFFERS s); [|discriminate].
  intros [= <-]. discriminate.
Qed.

Lemma max_buffers_stopped (x : N) (u v : text) :
  ~ In x MAX_FIXED_BUFFERS ->
  rmatch re_max_buffers (u ++ x :: v) =
  option_map (extend (x :: v)) (rmatch re_max_buffers u).
Proof.
  intros Hx. unfold re_max_buffers. rewrite !rmatch_Lit, strip_prefix_stop by exact Hx.
  destruct (strip_prefix MAX_FIXED_BUFFERS u); reflexivity.
Qed.

Lemma return_type_char_no_slash (c : N) : return_type_char c = true -> c <> 47.
Proof.
  unfold return_type_char, is_alnum, is_alpha, is_upper, is_lower, is_digit.
  rewrite !orb_true_iff, !andb_true_iff, !N.leb_le, !N.eqb_eq. lia.
Qed.

Lemma prototype_no_slash (si c : bool) (t : tag_prefix) (rt nm args : text) :
  forallb return_type_char rt = true -> forallb is_alnum nm = true -> ~ In 47 args ->
  ~ In 47 (prototype si c t rt (lit "Arrow" ++ nm) args).
Proof.
  intros Hrt Hnm Hargs. apply forallb_other_than. unfold prototype.
  rewrite !forallb_app. apply forallb_other_than in Hargs. rewrite Hargs.
  assert (forallb (other_than 47) (prefix_text si c t) = true) as ->
    by (destruct si, c, t; vm_compute; reflexivity).
  assert (forallb (other_than 47) rt = true) as ->.
  { apply forallb_forall. intros x Hx. rewrite forallb_forall in Hrt.
    unfold other_than. apply negb_true_iff, N.eqb_neq, return_type_char_no_slash, Hrt, Hx. }
  assert (forallb (other_than 47) nm = true) as ->.
  { apply forallb_forall. intros x Hx. rewrite forallb_forall in Hnm.
    unfold other_than. apply negb_true_iff, N.eqb_neq, return_type_char_no_slash.
    unfold return_type_char. rewrite (Hnm x Hx). reflexivity. }
  reflexivity.
Qed.

Lemma prototype_head (si c : bool) (t : tag_prefix) (rt name args : text) :
  rt <> [] -> forallb return_type_char rt = true ->
  exists h Y, prototype si c t rt name args = NL :: h :: Y /\
              isspace h = false /\ h <> 47.
Proof.
  intros Hne Hrt. destruct rt as [|r0 rt]; [contradiction|].
  cbn [forallb] in Hrt. apply andb_true_iff in Hrt as [Hr0 _].
  destruct si, c, t;
    try (eexists _, _; split; [reflexivity|split; [reflexivity|discriminate]]).
  exists r0, (rt ++ [SP] ++ name ++ lit "(" ++ args ++ lit ");").
  split; [reflexivity|].
  split; [apply return_type_char_not_space, Hr0|apply return_type_char_no_slash, Hr0].
Qed.

Lemma prototype_ends_clean (si c : bool) (t : tag_prefix) (rt name args : text) :
  ends_clean (prototype si c t rt name args).
Proof.
  unfold ends_clean, prototype. rewrite !app_assoc, rev_app_distr. reflexivity.
Qed.

Lemma prototype_semicolon (si c : bool) (t : tag_prefix) (rt name args : text) :
  prototype si c t rt name args =
  NL :: (prefix_text si c t ++ rt ++ [SP] ++ name ++ lit "(" ++ args ++ lit ")") ++ [59].
Proof. unfold prototype. rewrite <- !app_assoc. reflexivity. Qed.

(** The two passes before the extraction leave a prototype as it is, and
    work on what stands before it and on what stands after it apart, when
    the prototype has no slash and no macro in it. *)
Lemma preprocessed_around_prototype
    (pre post : text) (si c : bool) (t : tag_prefix) (rt nm args : text) :
  rt <> [] -> forallb return_type_char rt = true ->
  forallb is_alnum nm = true -> ~ In 47 args ->
  ~ occurs MAX_FIXED_BUFFERS (prototype si c t rt (lit "Arrow" ++ nm) args) ->
  preprocessed (pre ++ prototype si c t rt (lit "Arrow" ++ nm) args ++ post) =
  preprocessed pre ++ prototype si c t rt (lit "Arrow" ++ nm) args ++ preprocessed post.
Proof.
  intros Hne Hrt Hnm Hargs Hmacro.
  pose proof (prototype_no_slash si c t rt nm args Hrt Hnm Hargs) as Hslash.
  destruct (prototype_head si c t rt (lit "Arrow" ++ nm) args Hne Hrt)
    as (h & Y & HP & Hh & Hh').
  assert (_strip_comments (pre ++ prototype si c t rt (lit "Arrow" ++ nm) args ++ post) =
          _strip_comments pre ++ prototype si c t rt (lit "Arrow" ++ nm) args ++
          _strip_comments post) as Hc.
  { rewrite <- (strip_comments_before _ post Hslash (prototype_ends_clean _ _ _ _ _ _)).
    rewrite HP. cbn [app]. unfold _strip_comments.
    apply (sub_extends _ _ _ (length pre)); [exact comment_nonempty|lia|].
    intros u w _ _. apply comment_stopped; assumption. }
  unfold preprocessed. rewrite Hc. rewrite prototype_semicolon in Hmacro |- *.
  set (Pm := prefix_text si c t ++ rt ++ [SP] ++ (lit "Arrow" ++ nm) ++ lit "(" ++
             args ++ lit ")") in *.
  assert (forall B : text, (NL :: Pm ++ [59]) ++ B = NL :: (Pm ++ 59 :: B)) as Hshape
    by (intros B; rewrite <- app_comm_cons, <- app_assoc; reflexivity).
  rewrite !Hshape. unfold replace_max_buffers.
  rewrite (sub_separator _ NL max_buffers_nonempty
             (fun u v => max_buffers_stopped NL u v
                           ltac:(apply not_in_by_forallb; vm_compute; reflexivity))).
  rewrite (sub_separator _ 59 max_buffers_nonempty
             (fun u v => max_buffers_stopped 59 u v
                           ltac:(apply not_in_by_forallb; vm_compute; reflexivity))).
  unfold re_max_buffers at 2.
  rewrite (replace_absent MAX_FIXED_BUFFERS (lit "3") MAX_FIXED_BUFFERS_nonempty Pm);
    [reflexivity|].
  intros (u & v & Ho). apply Hmacro. exists (NL :: u), (v ++ [59]).
  rewrite Ho. rewrite <- !app_assoc. reflexivity.
Qed.

(** C3, as amended. A prototype of the supported grammar in the text given
    to the translator: a line break, the optional [static inline], [const]
    and [struct] or [enum], a return type of letters, digits, underscores
    and asterisks, a space, a name made of [Arrow] and letters or digits,
    and between parentheses arguments without a closing parenthesis, then
    a semicolon. When the prototype has no slash and no macro in it, and
    every opening parenthesis of the text the passes read before it is
    closed, the translator emits a line for it, after the lines of the
    prototypes before it and before the lines of those after it: the
    indentation, [const] if the prototype has it, the return type, the
    name and, in parentheses, the arguments with their white space
    collapsed to single spaces and their references to tagged types
    replaced by the names, or nothing when that leaves [void]. *)
Theorem prototype_binding_line
    (pre post : text) (static_inline const : bool) (t : tag_prefix)
    (return_type nm args : text) :
  return_type <> [] -> forallb return_type_char return_type = true ->
  nm <> [] -> forallb is_alnum nm = true ->
  ~ In 41 args -> ~ In 47 args ->
  ~ occurs MAX_FIXED_BUFFERS
      (prototype static_inline const t return_type (lit "Arrow" ++ nm) args) ->
  parens_closed (preprocessed pre) = true ->
  exists (types_cython typedefs_cython before after : list text) (args' : text),
    declarations
      (pre ++ prototype static_inline const t return_type (lit "Arrow" ++ nm) args ++ post) =
      Ok (types_cython, typedefs_cython,
          before ++
          (lit "    " ++ (if const then lit "const " else []) ++ return_type ++ lit " " ++
           (lit "Arrow" ++ nm) ++ lit "(" ++ args' ++ lit ")") :: after) /\
    binding_arguments args args' /\
    Forall2 (fun d line => _func_def_to_cython d (lit "    ") = Ok line)
      (_find_func_defs (preprocessed pre)) before /\
    Forall2 (fun d line => _func_def_to_cython d (lit "    ") = Ok line)
      (_find_func_defs (preprocessed post)) after.
Proof.
  intros Hrt Hrtc Hnm Hnmc Hargs Hslash Hmacro Hpc.
  destruct (declarations_ok
              (pre ++ prototype static_inline const t return_type (lit "Arrow" ++ nm) args ++
               post)) as (tys & tds & fns & H & _ & _ & Ffns).
  rewrite (preprocessed_around_prototype pre post _ _ _ _ _ _ Hrt Hrtc Hnmc Hslash Hmacro)
    in Ffns.
  destruct (prototype_head static_inline const t return_type (lit "Arrow" ++ nm) args
              Hrt Hrtc) as (h & Y & HP & _).
  assert (_find_func_defs
            (preprocessed pre ++
             prototype static_inline const t return_type (lit "Arrow" ++ nm) args ++
             preprocessed post) =
          _find_func_defs (preprocessed pre) ++
          func_record (const_group const) return_type (lit "Arrow" ++ nm) args ::
          _find_func_defs (preprocessed post)) as E.
  { rewrite <- (find_func_defs_match [] static_inline const t return_type nm args)
      by assumption.
    rewrite HP. cbn [app]. apply find_func_defs_app, Hpc. }
  rewrite E in Ffns. apply Forall2_app_inv_l in Ffns as (before & k & Hb & Hk & ->).
  apply Forall2_cons_inv_l in Hk as (line & after & Hline & Ha & ->).
  destruct (func_def_line const return_type (lit "Arrow" ++ nm) args (lit "    ") Hrtc)
    as (args' & Hargs' & Hl).
  rewrite Hl in Hline. apply Ok_inj in Hline as <-.
  exists tys, tds, before, after, args'. auto.
Qed.

Lemma prototype_binding_line_witness :
  exists (types_cython typedefs_cython before after : list text) (args' : text),
    declarations
      ((lit "typedef int32_t ArrowErrorCode; // the status" ++ [NL] ++
        lit "int ArrowFirst(void);") ++
       prototype true true EnumTag (lit "ArrowErrorCode*") (lit "Arrow" ++ lit "BufferInit")
         example_args ++
       ([NL] ++ lit "int ArrowLast(void);")) =
      Ok (types_cython, typedefs_cython,
          before ++
          (lit "    " ++ (if true then lit "const " else []) ++ lit "ArrowErrorCode*" ++
           lit " " ++ (lit "Arrow" ++ lit "BufferInit") ++ lit "(" ++ args' ++ lit ")") ::
          after) /\
    binding_arguments example_args args' /\
    Forall2 (fun d line => _func_def_to_cython d (lit "    ") = Ok line)
      (_find_func_defs
         (preprocessed
            (lit "typedef int32_t ArrowErrorCode; // the status" ++ [NL] ++
             lit "int ArrowFirst(void);"))) before /\
    Forall2 (fun d line => _func_def_to_cython d (lit "    ") = Ok line)
      (_find_func_defs (preprocessed ([NL] ++ lit "int ArrowLast(void);"))) after.
Proof.
  apply (prototype_binding_line
           (lit "typedef int32_t ArrowErrorCode; // the status" ++ [NL] ++
            lit "int ArrowFirst(void);")
           ([NL] ++ lit "int ArrowLast(void);") true true EnumTag
           (lit "ArrowErrorCode*") (lit "BufferInit") example_args).
  - discriminate.
  - vm_compute. reflexivity.
  - discriminate.
  - vm_compute. reflexivity.
  - apply not_in_by_forallb. vm_compute. reflexivity.
  - apply not_in_by_forallb. vm_compute. reflexivity.
  - intros H. apply occursb_spec in H. vm_compute in H. discriminate.
  - vm_compute. reflexivity.
Defined.

(** A prototype of the grammar that stands after an opening parenthesis
    left open has no line of its own: the match that begins at the
    parenthesis takes it as its arguments. *)
Lemma prototype_after_open_parenthesis :
  parens_closed (preprocessed ([NL] ++ lit "int ArrowA(int a,")) = false /\
  declarations
    (([NL] ++ lit "int ArrowA(int a,") ++
     prototype false false NoTag (lit "int") (lit "Arrow" ++ lit "B") (lit "int b") ++ []) =
    Ok ([], [], [lit "    int ArrowA(int a, int ArrowB(int b)"]).
Proof. split; vm_compute; reflexivity. Qed.

(** ** The macro in the text given to the translator *)

Lemma strip_prefix_slashes (s : text) :
  strip_prefix SLASHES s =
    match s with
    | x :: y :: r => if (47 =? x) && (47 =? y) then Some r else None
    | _ => None
    end.
Proof.
  change SLASHES with [47; 47]. destruct s as [|x [|y r]]; cbn [strip_prefix];
    [reflexivity|destruct (47 =? x); reflexivity|].
  destruct (47 =? x); [|reflexivity]. destruct (47 =? y); reflexivity.
Qed.

Lemma span_app_all (p : N -> bool) (u v : text) :
  forallb p u = true -> span p (u ++ v) = (u ++ fst (span p v), snd (span p v)).
Proof.
  induction u as [|c u IH]; intros H; [cbn [app]; destruct (span p v); reflexivity|].
  cbn [forallb] in H. apply andb_true_iff in H as [Hc H].
  cbn [app span]. rewrite Hc, (IH H). reflexivity.
Qed.

Lemma solid_head (w : text) :
  solid w -> exists w0 w', w = w0 :: w' /\ isspace w0 = false /\ w0 <> 47.
Proof.
  intros [Hne H]. destruct w as [|w0 w']; [contradiction|]. exists w0, w'.
  cbn [forallb] in H. apply andb_true_iff in H as [H _].
  apply andb_true_iff in H as [H1 H2]. apply negb_true_iff in H1.
  unfold other_than in H2. apply negb_true_iff, N.eqb_neq in H2. auto.
Qed.

Lemma solid_chars (w : text) :
  solid w -> ~ In 47 w /\ ends_clean w /\ forallb not_newline w = true.
Proof.
  intros [Hne H]. rewrite forallb_forall in H. split; [|split].
  - intros Hin. specialize (H _ Hin). discriminate.
  - unfold ends_clean. destruct (rev w) as [|c l] eqn:E; [exact I|].
    assert (In c w) as Hin by (apply in_rev; rewrite E; left; reflexivity).
    specialize (H _ Hin). apply andb_true_iff in H as [H _].
    apply negb_true_iff, H.
  - apply forallb_forall. intros c Hin. specialize (H _ Hin).
    apply andb_true_iff in H as [H _]. apply negb_true_iff in H.
    unfold not_newline, other_than. apply negb_true_iff, N.eqb_neq. intros ->.
    discriminate.
Qed.

(** The stripping of the comments of a text around a word without white
    space and slash: either the word stays, between two texts that do not
    depend on it, or it goes with a comment and the result does not depend
    on it. *)
Lemma strip_comments_word (n : nat) (a b : text) :
  (length a <= n)%nat ->
  (exists x y, forall w, solid w -> _strip_comments (a ++ w ++ b) = x ++ w ++ y) \/
  (exists z, forall w, solid w -> _strip_comments (a ++ w ++ b) = z).
Proof.
  revert a. induction n as [|n IH]; intros a Hn.
  - destruct a; [|simpl in Hn; lia]. left. exists [], (_strip_comments b).
    intros w Hw. destruct (solid_chars w Hw) as (H1 & H2 & _).
    apply (strip_comments_before w b H1 H2).
  - destruct a as [|c a'].
    { left. exists [], (_strip_comments b).
      intros w Hw. destruct (solid_chars w Hw) as (H1 & H2 & _).
      apply (strip_comments_before w b H1 H2). }
    simpl in Hn.
    assert ((forall w, solid w -> rmatch re_comment ((c :: a') ++ w ++ b) = None) ->
            (exists x y, forall w, solid w ->
                _strip_comments ((c :: a') ++ w ++ b) = x ++ w ++ y) \/
            (exists z, forall w, solid w -> _strip_comments ((c :: a') ++ w ++ b) = z))
      as Hskip.
    { intros Hnone. destruct (IH a' ltac:(lia)) as [(x & y & H)|(z & H)].
      - left. exists (c :: x), y. intros w Hw. unfold _strip_comments in *.
        rewrite <- app_comm_cons, sub_nomatch by (apply (Hnone w Hw)).
        rewrite (H w Hw). reflexivity.
      - right. exists (c :: z). intros w Hw. unfold _strip_comments in *.
        rewrite <- app_comm_cons, sub_nomatch by (apply (Hnone w Hw)).
        rewrite (H w Hw). reflexivity. }
    destruct (lstrip_split (c :: a')) as (ws & Ha & Hws).
    destruct (lstrip (c :: a')) as [|d [|e r']] eqn:El.
    + apply Hskip. intros w Hw. destruct (solid_head w Hw) as (w0 & w' & -> & H0 & H0').
      rewrite rmatch_comment. rewrite app_nil_r in Ha. rewrite <- Ha in Hws.
      rewrite (lstrip_spaces _ _ Hws). cbn [app lstrip]. rewrite H0.
      rewrite strip_prefix_slashes.
      destruct (w' ++ b); [reflexivity|].
      destruct (N.eqb_spec 47 w0); [congruence|reflexivity].
    + apply Hskip. intros w Hw. destruct (solid_head w Hw) as (w0 & w' & -> & H0 & H0').
      rewrite rmatch_comment.
      destruct (lstrip_app (c :: a') ((w0 :: w') ++ b)) as [-> _];
        [rewrite El; discriminate|].
      rewrite El, strip_prefix_slashes. cbn [app].
      destruct (N.eqb_spec 47 w0); [congruence|]. rewrite andb_false_r. reflexivity.
    + destruct ((47 =? d) && (47 =? e)) eqn:C.
      * assert (forall w, solid w ->
                  _strip_comments ((c :: a') ++ w ++ b) =
                  _strip_comments (snd (span not_newline (r' ++ w ++ b)))) as Hcut.
        { intros w Hw. unfold _strip_comments.
          assert (rmatch re_comment ((c :: a') ++ w ++ b) =
                  Some (Success
                          (fst (span isspace (c :: a')) ++ SLASHES ++
                           fst (span not_newline (r' ++ w ++ b)))
                          (snd (span not_newline (r' ++ w ++ b))) ∅)) as Hm.
          { rewrite rmatch_comment.
            destruct (lstrip_app (c :: a') (w ++ b)) as [-> ->];
              [rewrite El; discriminate|].
            rewrite El, strip_prefix_slashes. cbn [app]. rewrite C. reflexivity. }
          rewrite (sub_match _ _ _ _ Hm); [reflexivity|].
          apply (comment_nonempty _ _ Hm). }
        destruct (span_sound not_newline r') as [Hr' Hl].
        destruct (span_rest not_newline r') as [Hs|(x0 & r3 & Hs & Hx0)].
        -- right. exists (_strip_comments (snd (span not_newline b))).
           intros w Hw. rewrite (Hcut w Hw).
           destruct (solid_chars w Hw) as (_ & _ & Hwn).
           rewrite Hs, app_nil_r in Hr'. rewrite <- Hr' in Hl.
           rewrite app_assoc, span_app_all by (rewrite forallb_app, Hl, Hwn; reflexivity).
           reflexivity.
        -- assert (x0 = NL) as ->.
           { unfold not_newline, other_than in Hx0.
             apply negb_false_iff, N.eqb_eq in Hx0. exact Hx0. }
           assert (forall w, snd (span not_newline (r' ++ w ++ b)) =
                             (NL :: r3) ++ w ++ b) as Hrest.
           { intros w.
             assert (span not_newline (fst (span not_newline r')) =
                     (fst (span not_newline r'), [])) as Hl2.
             { rewrite <- (app_nil_r (fst (span not_newline r'))) at 1.
               apply span_all; [exact Hl|discriminate]. }
             rewrite Hs in Hr'.
             replace (r' ++ w ++ b)
               with (fst (span not_newline r') ++ NL :: (r3 ++ w ++ b)).
             - rewrite span_stop by reflexivity. rewrite Hl2. reflexivity.
             - rewrite Hr' at 2. rewrite <- app_assoc. reflexivity. }
           destruct (IH (NL :: r3)) as [(x & y & H)|(z & H)].
           { assert (length (c :: a') = length (ws ++ d :: e :: r')) as Hlen
               by (rewrite Ha; reflexivity).
             rewrite length_app in Hlen. cbn [length] in Hlen.
             rewrite Hr', Hs, length_app in Hlen. cbn [length] in *. lia. }
           ++ left. exists x, y. intros w Hw. rewrite (Hcut w Hw), Hrest. apply H, Hw.
           ++ right. exists z. intros w Hw. rewrite (Hcut w Hw), Hrest. apply H, Hw.
      * apply Hskip. intros w Hw. rewrite rmatch_comment.
        destruct (lstrip_app (c :: a') (w ++ b)) as [-> _]; [rewrite El; discriminate|].
        rewrite El, strip_prefix_slashes. cbn [app]. rewrite C. reflexivity.
Qed.

Lemma solid_macro : solid MAX_FIXED_BUFFERS.
Proof. split; [discriminate|vm_compute; reflexivity]. Qed.

Lemma solid_three : solid (lit "3").
Proof. split; [discriminate|vm_compute; reflexivity]. Qed.

(** The text the passes read is the same for a text with the macro and
    for the text with [3] in its place. *)
Lemma preprocessed_macro (a b : text) :
  preprocessed (a ++ MAX_FIXED_BUFFERS ++ b) = preprocessed (a ++ lit "3" ++ b).
Proof.
  unfold preprocessed.
  destruct (strip_comments_word (length a) a b (le_n _)) as [(x & y & H)|(z & H)].
  - rewrite (H _ solid_macro), (H _ solid_three). unfold replace_max_buffers.
    unfold re_max_buffers at 1.
    rewrite (replace_app_word MAX_FIXED_BUFFERS (lit "3") MAX_FIXED_BUFFERS_nonempty
               MAX_FIXED_BUFFERS_unbordered).
    change (x ++ lit "3" ++ y) with (x ++ 51 :: y).
    rewrite (sub_separator _ 51 max_buffers_nonempty
               (fun u v => max_buffers_stopped 51 u v three_not_in_MAX_FIXED_BUFFERS)).
    reflexivity.
  - rewrite (H _ solid_macro), (H _ solid_three). reflexivity.
Qed.

Lemma declarations_preprocessed (c1 c2 : text) :
  preprocessed c1 = preprocessed c2 -> declarations c1 = declarations c2.
Proof.
  intros H. unfold declarations.
  fold (_strip_comments c1). fold (_strip_comments c2).
  fold (preprocessed c1). fold (preprocessed c2). rewrite H. reflexivity.
Qed.

(** C6, as amended. The macro [NANOARROW_MAX_FIXED_BUFFERS] gives way to
    [3] before the declarations are extracted, wherever it is left by the
    removal of the comments and whatever stands before and after it: the
    substitution of a text with an occurrence is the substitution of what
    precedes it, then [3], then the substitution of what follows it; the
    text the passes read has no occurrence left; after a text without
    slash the occurrence is in the text the passes read as [3]; and the
    translator gives for a text with the macro what it gives for the text
    with [3] in its place. *)
Theorem max_buffers_replaced :
  (forall a b : text,
      replace_max_buffers (a ++ MAX_FIXED_BUFFERS ++ b) =
      replace_max_buffers a ++ lit "3" ++ replace_max_buffers b) /\
  (forall s : text, ~ occurs MAX_FIXED_BUFFERS s -> replace_max_buffers s = s) /\
  (forall content : text, ~ occurs MAX_FIXED_BUFFERS (preprocessed content)) /\
  (forall a b : text,
      ~ In 47 a ->
      preprocessed (a ++ MAX_FIXED_BUFFERS ++ b) =
      replace_max_buffers a ++ lit "3" ++ preprocessed b) /\
  (forall a b : text,
      preprocessed (a ++ MAX_FIXED_BUFFERS ++ b) = preprocessed (a ++ lit "3" ++ b) /\
      declarations (a ++ MAX_FIXED_BUFFERS ++ b) = declarations (a ++ lit "3" ++ b)).
Proof.
  split; [|split; [|split; [|split]]].
  - intros a b. apply replace_app_word.
    + exact MAX_FIXED_BUFFERS_nonempty.
    + exact MAX_FIXED_BUFFERS_unbordered.
  - intros s. apply replace_absent. exact MAX_FIXED_BUFFERS_nonempty.
  - intros content. unfold preprocessed.
    apply (replace_clean _ _ MAX_FIXED_BUFFERS_nonempty MAX_FIXED_BUFFERS_unbordered 51).
    + reflexivity.
    + exact three_not_in_MAX_FIXED_BUFFERS.
  - intros a b Ha. unfold preprocessed.
    destruct (solid_chars _ solid_macro) as (Hm & Hend & _).
    rewrite app_assoc, strip_comments_before.
    + rewrite <- app_assoc. apply replace_app_word.
      * exact MAX_FIXED_BUFFERS_nonempty.
      * exact MAX_FIXED_BUFFERS_unbordered.
    + intros Hin. apply in_app_or in Hin as [Hin|Hin]; contradiction.
    + unfold ends_clean. rewrite rev_app_distr. reflexivity.
  - intros a b. split; [apply preprocessed_macro|].
    apply declarations_preprocessed, preprocessed_macro.
Qed.

(** An occurrence of the macro inside a line comment is not replaced: it
    goes with the comment, and no [3] stands for it in the text the passes
    read. *)
Lemma macro_in_comment_is_cut :
  preprocessed (lit "int64_t a; // up to NANOARROW_MAX_FIXED_BUFFERS" ++ [NL] ++
                lit "int64_t b;") =
    lit "int64_t a;" ++ [NL] ++ lit "int64_t b;" /\
  ~ In 51 (preprocessed (lit "int64_t a; // up to NANOARROW_MAX_FIXED_BUFFERS" ++ [NL] ++
                         lit "int64_t b;")).
Proof.
  split; [vm_compute; reflexivity|].
  apply not_in_by_forallb. vm_compute. reflexivity.
Qed.

(** ** The characters of the output

    What the program puts in a line comes from the text it was given or
    from its own literals: a property of characters that holds of the text
    and of the characters of a literal holds of every line. *)

Section Characters.

Variable P : N -> bool.
Hypothesis literal : forall c, (c <? 256) = true -> P c = true.

Local Abbreviation all := (Forall (fun c => P c = true)).
Local Abbreviation closed := (map_Forall (fun (_ : nat) (v : text) => all v)).

Lemma all_lit (s : string) : all (lit s).
Proof.
  unfold lit. apply List.Forall_forall. intros c Hc.
  apply in_map_iff in Hc as (a & <- & _). apply literal.
  apply N.ltb_lt, N_ascii_bounded.
Qed.

Lemma matches_closed (r : regex) :
  forall (s : text) (g : gmap nat text) (a : success),
    matches r s g a -> all s -> closed g ->
    all (matched a) /\ all (rest a) /\ closed (caps a).
Proof.
  induction r as [l|p|p|r1 IH1 r2 IH2|r1 IH1 r2 IH2|r1 IH1|n r1 IH1];
    intros s g a Hm Hs Hg; cbn [matches] in Hm.
  - destruct Hm as (Hs' & -> & ->). rewrite Hs' in Hs.
    apply Forall_app in Hs as [H1 H2]. auto.
  - destruct Hm as (c & _ & Hs' & -> & ->). rewrite Hs' in Hs.
    split; [|split; [|exact Hg]].
    + constructor; [exact (Forall_inv Hs)|constructor].
    + exact (Forall_inv_tail Hs).
  - destruct Hm as (Hs' & _ & ->). rewrite Hs' in Hs.
    apply Forall_app in Hs as [H1 H2]. auto.
  - destruct Hm as (a1 & a2 & H1 & H2 & ->). cbn [matched rest caps].
    destruct (IH1 _ _ _ H1 Hs Hg) as (Hm1 & Hr1 & Hc1).
    destruct (IH2 _ _ _ H2 Hr1 Hc1) as (Hm2 & Hr2 & Hc2).
    split; [apply Forall_app; auto|auto].
  - destruct Hm as [Hm|Hm]; eauto.
  - destruct Hm as [Hm| ->]; [eauto|]. cbn [matched rest caps].
    split; [constructor|auto].
  - destruct Hm as (a1 & H1 & ->). cbn [matched rest caps].
    destruct (IH1 _ _ _ H1 Hs Hg) as (Hm1 & Hr1 & Hc1).
    split; [exact Hm1|split; [exact Hr1|]].
    apply map_Forall_insert_2; assumption.
Qed.

Lemma rmatch_closed (r : regex) (s : text) (a : success) :
  rmatch r s = Some a -> all s -> all (matched a) /\ closed (caps a).
Proof.
  intros H Hs. apply rmatch_matches in H.
  destruct (matches_closed r s ∅ a H Hs (map_Forall_empty _)) as (H1 & _ & H2).
  auto.
Qed.

Lemma scan_closed (r : regex) (s : text) :
  forall skip : nat,
    all s ->
    all (fst (scan r s skip)) /\
    Forall (fun mg : mobj * text =>
              (all (m_text (fst mg)) /\ closed (m_groups (fst mg))) /\ all (snd mg))
      (snd (scan r s skip)).
Proof.
  induction s as [|c s' IH]; intros skip Hs; cbn [scan].
  - destruct skip; [|split; constructor].
    destruct (rmatch r []) as [a|] eqn:E; [|split; constructor].
    cbn [fst snd]. split; [constructor|].
    constructor; [|constructor]. cbn [fst snd].
    split; [exact (rmatch_closed _ _ _ E Hs)|constructor].
  - pose proof (Forall_inv Hs) as Hc. pose proof (Forall_inv_tail Hs) as Hs'.
    destruct skip as [|k]; [|apply (IH k Hs')].
    destruct (rmatch r (c :: s')) as [a|] eqn:E.
    + pose proof (rmatch_closed _ _ _ E Hs) as Ha.
      destruct (IH (pred (length (matched a))) Hs') as [H1 H2].
      destruct (matched a) as [|x m] eqn:Em; cbn [fst snd];
        (split; [constructor|]); (constructor; [|exact H2]); cbn [fst snd];
        (split; [unfold mobj_of; cbn [m_text m_groups]; rewrite Em; exact Ha|]).
      * constructor; assumption.
      * exact H1.
    + destruct (IH 0%nat Hs') as [H1 H2]. cbn [fst snd].
      split; [constructor; assumption|exact H2].
Qed.

Lemma sub_closed (r : regex) (repl : mobj -> text) (s : text) :
  (forall m, all (m_text m) -> closed (m_groups m) -> all (repl m)) ->
  all s -> all (sub r repl s).
Proof.
  intros Hrepl Hs. unfold sub, render.
  destruct (scan_closed r s 0 Hs) as [H1 H2].
  apply Forall_app. split; [exact H1|].
  induction H2 as [|mg l [[Hm Hg] Hr] _ IH]; [constructor|].
  cbn [List.map List.concat]. rewrite !Forall_app. auto.
Qed.

Lemma finditer_closed (r : regex) (s : text) :
  all s -> Forall (fun m => all (m_text m) /\ closed (m_groups m)) (finditer r s).
Proof.
  intros Hs. unfold finditer. apply List.Forall_map.
  destruct (scan_closed r s 0 Hs) as [_ H2].
  eapply List.Forall_impl; [|exact H2]. intros mg [H _]. exact H.
Qed.

Lemma split_closed (r : regex) (s : text) : all s -> Forall all (split r s).
Proof.
  intros Hs. unfold split. destruct (scan_closed r s 0 Hs) as [H1 H2].
  constructor; [exact H1|]. apply List.Forall_map.
  eapply List.Forall_impl; [|exact H2]. intros mg [_ H]. exact H.
Qed.

Lemma strip_closed (s : text) : all s -> all (strip s).
Proof.
  intros Hs. unfold strip.
  destruct (lstrip_split s) as (w & Hw & _). rewrite Hw in Hs.
  apply Forall_app in Hs as [_ Hs].
  destruct (rstrip_split (lstrip s)) as (w' & Hw' & _). rewrite Hw' in Hs.
  apply Forall_app in Hs as [Hs _]. exact Hs.
Qed.

Lemma strip_tags_closed (s : text) : all s -> all (strip_tags s).
Proof.
  apply sub_closed. intros m _ Hg. unfold backref.
  destruct (m_groups m !! 2%nat) as [v|] eqn:E; cbn [default from_option id].
  - exact (map_Forall_lookup_1 _ _ _ _ Hg E).
  - constructor.
Qed.

Lemma groupdict_closed (names : list (string * nat)) (m : mobj) (k : string) (x : text) :
  closed (m_groups m) -> groupdict names m !! k = Some (Some x) -> all x.
Proof.
  intros Hg H. unfold groupdict in H. apply elem_of_list_to_map_2 in H.
  apply list_elem_of_In, in_map_iff in H as ([k' n] & [= _ Hn] & _).
  cbn [snd] in Hn. exact (map_Forall_lookup_1 _ _ _ _ Hg Hn).
Qed.

Lemma entries_closed (sep : text) (items : list text) :
  all sep -> Forall all items ->
  all (List.concat (List.map (fun item => sep ++ item) items)).
Proof.
  intros Hsep H. induction H as [|item l Hi _ IH]; [constructor|].
  cbn [List.map List.concat]. rewrite !Forall_app. auto.
Qed.

Lemma typedef_line_closed (content : text) (t : gmap string (option text)) (line : text) :
  all content -> In t (_find_typedefs content) ->
  _typdef_to_cython t (lit "    ") = Ok line -> all line.
Proof.
  intros Hc Hin Hline. destruct (find_typedefs_records _ _ Hin) as (body & Ht).
  unfold _find_typedefs in Hin. apply in_map_iff in Hin as (m & Hm & Hin).
  pose proof (finditer_closed re_typedef _ Hc) as Hf. rewrite List.Forall_forall in Hf.
  destruct (Hf m Hin) as [_ Hg].
  assert (all body) as Hbody.
  { apply (groupdict_closed re_typedef_names m "typedef" body Hg).
    rewrite Hm, Ht. apply lookup_singleton_eq. }
  rewrite Ht, typdef_to_cython_record in Hline. apply Ok_inj in Hline as <-.
  rewrite !Forall_app. split; [apply all_lit|]. split; [apply all_lit|].
  apply strip_tags_closed, Hbody.
Qed.

Lemma type_line_closed (content : text) (t : gmap string (option text)) (line : text) :
  all content -> In t (_find_types content) ->
  _type_to_cython t (lit "    ") = Ok line -> all line.
Proof.
  intros Hc Hin Hline.
  destruct (find_types_records _ _ Hin) as (type & name & body & Ht).
  unfold _find_types in Hin. apply in_map_iff in Hin as (m & Hm & Hin).
  pose proof (finditer_closed re_type _ Hc) as Hf. rewrite List.Forall_forall in Hf.
  destruct (Hf m Hin) as [_ Hg].
  assert (all type /\ all name /\ all body) as (Htype & Hname & Hbody).
  { split; [|split].
    - apply (groupdict_closed re_type_names m "type" type Hg).
      rewrite Hm, Ht. apply lookup_insert_eq.
    - apply (groupdict_closed re_type_names m "name" name Hg).
      rewrite Hm, Ht. unfold type_record. rewrite lookup_insert_ne by discriminate. apply lookup_insert_eq.
    - apply (groupdict_closed re_type_names m "body" body Hg).
      rewrite Hm, Ht. unfold type_record. do 2 rewrite lookup_insert_ne by discriminate.
      apply lookup_insert_eq. }
  rewrite Ht, type_to_cython_record in Hline. apply Ok_inj in Hline as <-.
  rewrite !Forall_app.
  split; [apply all_lit|]. split; [exact Htype|]. split; [apply all_lit|].
  split; [exact Hname|]. split; [apply all_lit|].
  apply entries_closed.
  - rewrite !Forall_app. split; [constructor; [apply literal; reflexivity|constructor]|].
    split; apply all_lit.
  - unfold segments. apply List.Forall_forall. intros item Hitem.
    apply filter_In in Hitem as [Hitem _].
    pose proof (split_closed (delimiter type) _ (strip_tags_closed _ (strip_closed _ Hbody)))
      as Hs.
    rewrite List.Forall_forall in Hs. exact (Hs item Hitem).
Qed.

Lemma func_def_line_closed (content : text) (d : gmap string (option text)) (line : text) :
  all content -> In d (_find_func_defs content) ->
  _func_def_to_cython d (lit "    ") = Ok line -> all line.
Proof.
  intros Hc Hin Hline.
  destruct (find_func_defs_records _ _ Hin) as (const & return_type & name & args & Hd).
  unfold _find_func_defs in Hin. apply in_map_iff in Hin as (m & Hm & Hin).
  pose proof (finditer_closed re_func_def _ Hc) as Hf. rewrite List.Forall_forall in Hf.
  destruct (Hf m Hin) as [_ Hg].
  assert (all return_type /\ all name /\ all args) as (Hret & Hname & Hargs).
  { split; [|split].
    - apply (groupdict_closed re_func_def_names m "return_type" return_type Hg).
      rewrite Hm, Hd. unfold func_record. rewrite lookup_insert_ne by discriminate. apply lookup_insert_eq.
    - apply (groupdict_closed re_func_def_names m "name" name Hg).
      rewrite Hm, Hd. unfold func_record. do 2 rewrite lookup_insert_ne by discriminate.
      apply lookup_insert_eq.
    - apply (groupdict_closed re_func_def_names m "args" args Hg).
      rewrite Hm, Hd. unfold func_record. do 3 rewrite lookup_insert_ne by discriminate.
      apply lookup_insert_eq. }
  rewrite Hd, func_def_to_cython_record in Hline. apply Ok_inj in Hline as <-.
  rewrite !Forall_app.
  split; [apply all_lit|]. split.
  { destruct (truthy const); [rewrite Forall_app; split; [apply all_lit|]|];
      apply strip_closed, Hret. }
  split; [apply all_lit|]. split; [exact Hname|]. split; [apply all_lit|].
  split; [|apply all_lit].
  cbv zeta.
  destruct (text_eqb _ (lit "void")); [constructor|].
  apply strip_tags_closed, sub_closed; [intros; apply all_lit|].
  apply strip_closed, Hargs.
Qed.

Lemma preprocessed_closed (content : text) : all content -> all (preprocessed content).
Proof.
  intros H. unfold preprocessed, replace_max_buffers, _strip_comments.
  apply sub_closed; [intros; apply all_lit|].
  apply sub_closed; [intros; constructor|exact H].
Qed.

Lemma converted_closed {A : Type} (f : A -> result text) (l : list A) (lines : list text) :
  Forall2 (fun x line => f x = Ok line) l lines ->
  (forall x line, In x l -> f x = Ok line -> all line) ->
  Forall all lines.
Proof.
  intros H Hf. induction H as [|x line l lines Hx _ IH]; [constructor|].
  constructor.
  - apply (Hf x line); [left; reflexivity|exact Hx].
  - apply IH. intros x' line' Hin. apply Hf. right. exact Hin.
Qed.

Lemma declarations_closed (content : text)
    (types_cython typedefs_cython func_defs_cython : list text) :
  all content ->
  declarations content = Ok (types_cython, typedefs_cython, func_defs_cython) ->
  Forall all types_cython /\ Forall all typedefs_cython /\ Forall all func_defs_cython.
Proof.
  intros Hc H. apply preprocessed_closed in Hc.
  destruct (declarations_ok content) as (tys & tds & fns & H' & Ftys & Ftds & Ffns).
  rewrite H in H'. apply Ok_inj in H'. injection H' as -> -> ->.
  split; [|split].
  - apply (converted_closed _ _ _ Ftys). intros t line. apply type_line_closed, Hc.
  - apply (converted_closed _ _ _ Ftds). intros t line. apply typedef_line_closed, Hc.
  - apply (converted_closed _ _ _ Ffns). intros d line. apply func_def_line_closed, Hc.
Qed.

End Characters.

Lemma scalar_literal (c : N) : (c <? 256) = true -> scalar c = true.
Proof.
  intros H. apply N.ltb_lt in H. unfold scalar, is_surrogate.
  apply andb_true_iff. split; [apply N.ltb_lt; lia|].
  apply negb_true_iff, andb_false_iff. left. apply N.leb_gt. lia.
Qed.

Lemma encode_scalar (t : text) :
  Forall (fun c => scalar c = true) t -> exists b, encode t = Ok b.
Proof.
  intros H. induction H as [|c t Hc _ [b IH]]; [exists []; reflexivity|].
  cbn [encode]. unfold scalar in Hc. apply andb_true_iff in Hc as [Hlt Hs].
  apply negb_true_iff in Hs.
  assert (exists bc, encode_char c = Some bc) as [bc ->].
  { unfold encode_char. rewrite Hs, Hlt.
    destruct (c <? 128); [eauto|]. destruct (c <? 2048); [eauto|].
    destruct (c <? 65536); eauto. }
  rewrite IH. cbn [bind]. eauto.
Qed.

Lemma encode_lines (lines : list text) :
  Forall (Forall (fun c => scalar c = true)) lines ->
  exists bs, Forall2 (fun line b => encode line = Ok b) lines bs.
Proof.
  intros H. induction H as [|line l Hl _ [bs IH]]; [exists []; constructor|].
  destruct (encode_scalar line Hl) as [b Hb]. exists (b :: bs). constructor; assumption.
Qed.

(** A text without surrogate is translated to the end wherever the output
    file may be opened. *)
Lemma generate_nanoarrow_pxd_completes (content : text) (build_dir : path)
    (fs : filesystem) :
  forallb scalar content = true ->
  writable fs (path_join build_dir "nanoarrow_c.pxd") = true ->
  fst (generate_nanoarrow_pxd content build_dir fs) = Ok tt.
Proof.
  intros Hc Hw.
  assert (Forall (fun c => scalar c = true) content) as Hall
    by (apply List.Forall_forall, forallb_forall, Hc).
  destruct (generate_nanoarrow_pxd_writes content build_dir fs)
    as (tys & tds & fns & H & ->).
  rewrite Hw. cbn [fst].
  destruct (declarations_closed scalar scalar_literal content tys tds fns Hall H)
    as (Htys & Htds & Hfns).
  destruct (encode_lines _ Htys) as [btys Etys].
  destruct (encode_lines _ Htds) as [btds Etds].
  destruct (encode_lines _ Hfns) as [bfns Efns].
  rewrite (pxd_output_order _ _ _ _ _ _ Etys Etds Efns). reflexivity.
Qed.

(** C5. Within each kind the declarations are emitted in the order in which
    their matches stand in the text: the matches of each pattern are pieces
    of the text the passes read that follow one another from left to right,
    and they come from pieces of the text given to the translator that
    stand there in the same order, each turned into its match by the
    cutting of comments and the replacement of the macro, which edit the
    text in place; the converted declarations are the conversions of these
    matches one by one; and where the output file may be opened and the
    lines can be encoded, as they all can when the text has no surrogate,
    the file holds them in that order, the types first, then the
    typedefs, then the functions. *)
Theorem declaration_order_preserved (content : text) :
  exists types_cython typedefs_cython func_defs_cython : list text,
    declarations content = Ok (types_cython, typedefs_cython, func_defs_cython) /\
    (laid_out (List.map m_text (finditer re_type (preprocessed content)))
       (preprocessed content) /\
     from_source content (List.map m_text (finditer re_type (preprocessed content))) /\
     Forall2 (fun m line =>
                _type_to_cython (groupdict re_type_names m) (lit "    ") = Ok line)
       (finditer re_type (preprocessed content)) types_cython) /\
    (laid_out (List.map m_text (finditer re_typedef (preprocessed content)))
       (preprocessed content) /\
     from_source content (List.map m_text (finditer re_typedef (preprocessed content))) /\
     Forall2 (fun m line =>
                _typdef_to_cython (groupdict re_typedef_names m) (lit "    ") = Ok line)
       (finditer re_typedef (preprocessed content)) typedefs_cython) /\
    (laid_out (List.map m_text (finditer re_func_def (preprocessed content)))
       (preprocessed content) /\
     from_source content (List.map m_text (finditer re_func_def (preprocessed content))) /\
     Forall2 (fun m line =>
                _func_def_to_cython (groupdict re_func_def_names m) (lit "    ") = Ok line)
       (finditer re_func_def (preprocessed content)) func_defs_cython) /\
    (edits comment_cut content (_strip_comments content) /\
     edits macro_put (_strip_comments content) (preprocessed content)) /\
    (forallb scalar content = true ->
     exists types_bytes typedefs_bytes func_defs_bytes : list bytes,
       Forall2 (fun line b => encode line = Ok b) types_cython types_bytes /\
       Forall2 (fun line b => encode line = Ok b) typedefs_cython typedefs_bytes /\
       Forall2 (fun line b => encode line = Ok b) func_defs_cython func_defs_bytes) /\
    forall (build_dir : path) (fs : filesystem)
           (types_bytes typedefs_bytes func_defs_bytes : list bytes),
      writable fs (path_join build_dir "nanoarrow_c.pxd") = true ->
      Forall2 (fun line b => encode line = Ok b) types_cython types_bytes ->
      Forall2 (fun line b => encode line = Ok b) typedefs_cython typedefs_bytes ->
      Forall2 (fun line b => encode line = Ok b) func_defs_cython func_defs_bytes ->
      fst (generate_nanoarrow_pxd content build_dir fs) = Ok tt /\
      file_bytes (snd (generate_nanoarrow_pxd content build_dir fs))
        (path_join build_dir "nanoarrow_c.pxd") =
      Some (pxd_preamble ++
            List.concat (List.map (fun type => type ++ [NL; NL]) types_bytes) ++
            List.concat (List.map (fun typedef => typedef ++ [NL]) typedefs_bytes) ++
            [NL] ++
            List.concat (List.map (fun func_def => func_def ++ [NL]) func_defs_bytes)).
Proof.
  destruct (declarations_ok content) as (tys & tds & fns & H & Ftys & Ftds & Ffns).
  exists tys, tds, fns. split; [exact H|].
  unfold _find_types, _find_typedefs, _find_func_defs in *.
  apply Forall2_map_left in Ftys, Ftds, Ffns.
  assert (forall r, laid_out (List.map m_text (finditer r (preprocessed content)))
                      (preprocessed content)) as Hl
    by (intros r; apply finditer_laid_out).
  split; [split; [apply Hl|split; [apply laid_out_from_source, Hl|exact Ftys]]|].
  split; [split; [apply Hl|split; [apply laid_out_from_source, Hl|exact Ftds]]|].
  split; [split; [apply Hl|split; [apply laid_out_from_source, Hl|exact Ffns]]|].
  split.
  { split; [apply strip_comments_edits|apply replace_max_buffers_edits]. }
  split.
  { intros Hc.
    assert (Forall (fun c => scalar c = true) content) as Hall
      by (apply List.Forall_forall, forallb_forall, Hc).
    destruct (declarations_closed scalar scalar_literal content tys tds fns Hall H)
      as (Htys & Htds & Hfns).
    destruct (encode_lines _ Htys) as [btys Etys].
    destruct (encode_lines _ Htds) as [btds Etds].
    destruct (encode_lines _ Hfns) as [bfns Efns].
    exists btys, btds, bfns. auto. }
  intros build_dir fs tyb tdb fnb Hw Ety Etd Efn.
  unfold generate_nanoarrow_pxd. rewrite H, Hw.
  rewrite (pxd_output_order _ _ _ _ _ _ Ety Etd Efn). cbn [fst snd raised written].
  split; [reflexivity|apply file_bytes_store].
Qed.

(** C9. The three passes and the conversions raise for no text: the
    declarations of every text are an [Ok] value, with one converted
    declaration for each match of each pattern; where a pattern matches
    nowhere the pass finds no record; the translator as a whole raises
    only where it opens the output file, when that is not granted, or
    where it encodes a line, never in a pass or a conversion, and for a
    text without surrogate it completes wherever the file may be opened;
    and a prototype the pattern does not match, one with a function
    pointer among its arguments, is left out while the prototype after it
    is translated. *)
Theorem extraction_never_raises :
  (forall content : text,
      exists types_cython typedefs_cython func_defs_cython,
        declarations content = Ok (types_cython, typedefs_cython, func_defs_cython) /\
        length types_cython = length (finditer re_type (preprocessed content)) /\
        length typedefs_cython = length (finditer re_typedef (preprocessed content)) /\
        length func_defs_cython = length (finditer re_func_def (preprocessed content))) /\
  (forall (r : regex) (s : text),
      (forall u w, s = u ++ w -> rmatch r w = None) -> finditer r s = []) /\
  (forall (content : text) (build_dir : path) (fs : filesystem),
      (writable fs (path_join build_dir "nanoarrow_c.pxd") = false ->
       generate_nanoarrow_pxd content build_dir fs = (Raise OSError, fs)) /\
      (writable fs (path_join build_dir "nanoarrow_c.pxd") = true ->
       fst (generate_nanoarrow_pxd content build_dir fs) = Ok tt \/
       fst (generate_nanoarrow_pxd content build_dir fs) = Raise UnicodeEncodeError) /\
      (writable fs (path_join build_dir "nanoarrow_c.pxd") = true ->
       forallb scalar content = true ->
       fst (generate_nanoarrow_pxd content build_dir fs) = Ok tt)) /\
  declarations callback_source = Ok ([], [], [lit "    int ArrowBar()"]).
Proof.
  split; [|split; [exact finditer_no_match|split]].
  - intros content.
    destruct (declarations_ok content) as (tys & tds & fns & H & Ftys & Ftds & Ffns).
    exists tys, tds, fns. split; [exact H|].
    apply Forall2_length in Ftys, Ftds, Ffns.
    unfold _find_types, _find_typedefs, _find_func_defs in *.
    rewrite length_map in Ftys, Ftds, Ffns. auto.
  - intros content build_dir fs. split; [|split].
    + destruct (generate_nanoarrow_pxd_writes content build_dir fs)
        as (tys & tds & fns & _ & ->).
      intros ->. reflexivity.
    + destruct (generate_nanoarrow_pxd_writes content build_dir fs)
        as (tys & tds & fns & _ & ->).
      intros ->. cbn [fst].
      destruct (pxd_output_raised tys tds fns) as [-> | ->]; auto.
    + intros Hw Hc. apply generate_nanoarrow_pxd_completes; assumption.
  - vm_compute. reflexivity.
Qed.

(** A line with a surrogate is not encoded: the run raises where it comes
    to it, and the file is left with what was written before. *)
Example surrogate_line_not_encoded :
  fst (generate_nanoarrow_pxd surrogate_source ["build"%string] (plain ∅)) =
    Raise UnicodeEncodeError /\
  file_bytes (snd (generate_nanoarrow_pxd surrogate_source ["build"%string] (plain ∅)))
    ["build"; "nanoarrow_c.pxd"]%string =
    Some (pxd_preamble ++ blit "    ctypedef  int ArrowA" ++ [NL]).
Proof. split; vm_compute; reflexivity. Qed.

(** The codec on a letter and on characters of two, three and four bytes;
    the decoder refuses an overlong form, a surrogate and a sequence cut
    short. *)
Example utf8_examples :
  encode (lit "a" ++ [233; 8364; 128512]) =
    Ok [97; 195; 169; 226; 130; 172; 240; 159; 152; 128] /\
  utf8_decode [97; 195; 169; 226; 130; 172; 240; 159; 152; 128] =
    Some (lit "a" ++ [233; 8364; 128512]) /\
  utf8_decode [192; 128] = None /\
  utf8_decode [237; 160; 128] = None /\
  utf8_decode [233] = None.
Proof. repeat split; vm_compute; reflexivity. Qed.
